(** * BusTub buffer pool: extendible hash table, LRU-K replacer, buffer pool manager

    A shallow embedding of
      - src/container/hash/extendible_hash_table.cpp  (module [EHT]),
      - src/buffer/lru_k_replacer.cpp                 (module [LRUK]),
      - src/buffer/buffer_pool_manager_instance.cpp   (module [BPM]),
    and the properties of the specification checked against it.

    The model is sequential: latches are not modelled.  A call that does
    not return in C++ ends in [Fault] (a failed BUSTUB_ASSERT, an access
    outside a vector or through a pointer to no bucket) or in [Overflow]
    (a shift [1 << n] that leaves the range of [int]); recursion is bounded
    by a fuel argument and ends in [NoFuel] when the budget is used up. *)

From Stdlib Require Import ZArith Lia.
From stdpp Require Import base option list gmap.

Local Open Scope Z_scope.

(** ** Outcome of a call *)

Inductive outcome (A : Type) : Type :=
| Ok (a : A)
| Fault
| Overflow
| NoFuel.
Arguments Ok {A} a.
Arguments Fault {A}.
Arguments Overflow {A}.
Arguments NoFuel {A}.

#[global] Instance outcome_ret : MRet outcome := fun A a => Ok a.
#[global] Instance outcome_bind : MBind outcome := fun A B f m =>
  match m with
  | Ok a => f a
  | Fault => Fault
  | Overflow => Overflow
  | NoFuel => NoFuel
  end.

Definition returns {A} (m : outcome A) : Prop := exists a, m = Ok a.

(** [1 << n] on a 32-bit [int]: defined for [0 <= n <= 30]; outside that
    range the shift overflows (or is undefined) and the sizes and masks the
    source computes from it are unusable. *)
Definition shl1 (n : Z) : outcome Z :=
  if bool_decide (0 <= n <= 30) then Ok (Z.shiftl 1 n) else Overflow.

(** [v[i]] on a vector: outside the bounds the access is undefined. *)
Definition vec_at {A} (v : list A) (i : Z) : outcome A :=
  if bool_decide (0 <= i) then
    match v !! Z.to_nat i with
    | Some a => Ok a
    | None => Fault
    end
  else Fault.

Definition vec_set {A} (v : list A) (i : Z) (a : A) : outcome (list A) :=
  if bool_decide (0 <= i < Z.of_nat (length v)) then Ok (<[Z.to_nat i := a]> v)
  else Fault.

(** ** Extendible hash table *)

Module EHT.

Section Table.
Context {K V : Type} `{EqDecision K}.
(** [std::hash<K>()(key)], a [size_t]. *)
Variable hash : K -> Z.

(** *** Bucket *)

Record Bucket : Type := mkBucket {
  size_ : nat;              (* capacity, [array_size] of the constructor *)
  depth_ : Z;               (* local depth *)
  list_ : list (K * V)
}.

(** [Bucket::Find]: the value of the first entry whose key matches. *)
Fixpoint list_find_key (key : K) (l : list (K * V)) : option V :=
  match l with
  | [] => None
  | (k, v) :: l' => if decide (k = key) then Some v else list_find_key key l'
  end.

Definition Bucket_Find (key : K) (b : Bucket) : option V :=
  list_find_key key (list_ b).

(** [Bucket::Remove]: erases the first entry whose key matches. *)
Fixpoint list_remove_key (key : K) (l : list (K * V)) : bool * list (K * V) :=
  match l with
  | [] => (false, [])
  | (k, v) :: l' =>
      if decide (k = key) then (true, l')
      else let '(r, l'') := list_remove_key key l' in (r, (k, v) :: l'')
  end.

Definition Bucket_Remove (key : K) (b : Bucket) : bool * Bucket :=
  let '(r, l) := list_remove_key key (list_ b) in
  (r, mkBucket (size_ b) (depth_ b) l).

(** [Bucket::Insert]: refuses when the list is at capacity (before looking
    for the key), else overwrites the first match or appends. *)
Fixpoint list_upsert (key : K) (value : V) (l : list (K * V)) : list (K * V) :=
  match l with
  | [] => [(key, value)]
  | (k, v) :: l' =>
      if decide (k = key) then (k, value) :: l'
      else (k, v) :: list_upsert key value l'
  end.

(** Modelled from the spec: [IsFull], [GetDepth], [IncrementDepth] and
    [GetItems] are members defined with the class declaration
    (extendible_hash_table.h, not among the sources).  A bucket is a
    "capacity-bounded list" with "capacity [bucket_size]"; a split does
    "increment [b.local_depth]". *)
Definition IsFull (b : Bucket) : bool := bool_decide (length (list_ b) = size_ b).

Definition Bucket_Insert (key : K) (value : V) (b : Bucket) : bool * Bucket :=
  if IsFull b then (false, b)
  else (true, mkBucket (size_ b) (depth_ b) (list_upsert key value (list_ b))).

(** Modelled from the spec: [IncrementDepth] (see [IsFull]). *)
Definition IncrementDepth (b : Bucket) : Bucket :=
  mkBucket (size_ b) (depth_ b + 1) (list_ b).

(** *** Table

    Buckets are shared between directory slots through [shared_ptr]s: the
    model keeps them in a store [heap_] and the directory holds addresses
    ([None] is [nullptr]).  Buckets are never freed ([latches_] keeps a
    reference to each of them). *)

Record Table : Type := mkTable {
  global_depth_ : Z;
  bucket_size_ : nat;
  num_buckets_ : Z;
  dir_ : list (option nat);
  heap_ : list Bucket
}.

Definition set_dir (t : Table) (d : list (option nat)) : Table :=
  mkTable (global_depth_ t) (bucket_size_ t) (num_buckets_ t) d (heap_ t).

Definition set_heap (t : Table) (h : list Bucket) : Table :=
  mkTable (global_depth_ t) (bucket_size_ t) (num_buckets_ t) (dir_ t) h.

(** [std::make_shared<Bucket>(size, depth)] *)
Definition alloc (t : Table) (depth : Z) : option nat * Table :=
  (Some (length (heap_ t)),
   set_heap t (heap_ t ++ [mkBucket (bucket_size_ t) depth []])).

(** [p->...]: reading the bucket behind a pointer. *)
Definition deref (t : Table) (p : option nat) : outcome Bucket :=
  match p with
  | Some a => match heap_ t !! a with Some b => Ok b | None => Fault end
  | None => Fault
  end.

(** Writing the bucket behind a pointer. *)
Definition store (t : Table) (p : option nat) (b : Bucket) : outcome Table :=
  match p with
  | Some a =>
      if bool_decide (a < length (heap_ t))%nat
      then Ok (set_heap t (<[a := b]> (heap_ t)))
      else Fault
  | None => Fault
  end.

(** The constructor: one bucket of depth [global_depth_], one directory
    slot.
    Modelled from the spec: the initial values of [global_depth_] and
    [num_buckets_] are set in the class declaration (not among the
    sources); the directory has "length 2^global_depth" and the depth
    advances "0→1→2", so the depth starts at 0, with the one bucket the
    constructor makes. *)
Definition init (bucket_size : nat) : Table :=
  mkTable 0 bucket_size 1 [Some 0%nat] [mkBucket bucket_size 0 []].

(** [IndexOf]: [mask = (1 << global_depth_) - 1; hash(key) & mask]. *)
Definition IndexOf (t : Table) (key : K) : outcome Z :=
  p ← shl1 (global_depth_ t);
  Ok (Z.land (hash key) (p - 1)).

Definition GetGlobalDepth (t : Table) : Z := global_depth_ t.

Definition GetLocalDepth (t : Table) (dir_index : Z) : outcome Z :=
  p ← vec_at (dir_ t) dir_index;
  b ← deref t p;
  Ok (depth_ b).

Definition GetNumBuckets (t : Table) : Z := num_buckets_ t.

(** [Find]: [Some v] when the key is found with value [v]. *)
Definition Find (t : Table) (key : K) : outcome (option V) :=
  idx ← IndexOf t key;
  p ← vec_at (dir_ t) idx;
  b ← deref t p;
  Ok (Bucket_Find key b).

Definition Remove (t : Table) (key : K) : outcome (bool * Table) :=
  idx ← IndexOf t key;
  p ← vec_at (dir_ t) idx;
  b ← deref t p;
  let '(r, b') := Bucket_Remove key b in
  t' ← store t p b';
  Ok (r, t').

(** The copying loop of [DoubleDir]:
    [tmp_dir[i] = dir_[i]; tmp_dir[i + (1 << global_depth_)] = dir_[i]]. *)
Definition copy_step (dir : list (option nat)) (half : Z)
    (acc : outcome (list (option nat))) (i : nat) : outcome (list (option nat)) :=
  tmp ← acc;
  p ← vec_at dir (Z.of_nat i);
  tmp1 ← vec_set tmp (Z.of_nat i) p;
  vec_set tmp1 (Z.of_nat i + half) p.

Definition DoubleDir (t : Table) (idx : Z) : outcome Table :=
  n ← shl1 (global_depth_ t + 1);
  half ← shl1 (global_depth_ t);
  tmp_dir ← foldl (copy_step (dir_ t) half)
                  (Ok (replicate (Z.to_nat n) None)) (seq 0 (Z.to_nat half));
  let '(bptr, t1) := alloc (set_dir t tmp_dir) (global_depth_ t + 1) in
  d ← vec_set (dir_ t1) (idx + half) bptr;
  Ok (mkTable (global_depth_ t1 + 1) (bucket_size_ t1) (num_buckets_ t1 + 1)
              d (heap_ t1)).

(** One round of the loop of [RedistributeBucket] over the copied item
    list: an item that no longer routes to [bucket] is inserted where it
    routes (the result of that insert is not looked at) and removed from
    [bucket]. *)
Definition redistribute_step (bucket : option nat)
    (acc : outcome Table) (it : K * V) : outcome Table :=
  t ← acc;
  idx ← IndexOf t it.1;
  p ← vec_at (dir_ t) idx;
  if decide (p = bucket) then Ok t
  else
    tgt ← deref t p;
    t1 ← store t p (Bucket_Insert it.1 it.2 tgt).2;
    src ← deref t1 bucket;
    store t1 bucket (Bucket_Remove it.1 src).2.

Definition RedistributeBucket (t : Table) (bucket : option nat) : outcome Table :=
  b ← deref t bucket;
  foldl (redistribute_step bucket) (Ok t) (list_ b).

(** [dir_[idx]->IncrementDepth()] *)
Definition bump_depth (t : Table) (idx : Z) : outcome Table :=
  p ← vec_at (dir_ t) idx;
  b ← deref t p;
  store t p (IncrementDepth b).

(** The part of [Insert] that splits the full bucket behind [dir_[idx]]
    (everything between the [IsFull] test and the recursive call). *)
Definition split (t : Table) (idx : Z) : outcome Table :=
  ld ← GetLocalDepth t idx;
  if bool_decide (GetGlobalDepth t = ld) then
    t1 ← DoubleDir t idx;
    t2 ← bump_depth t1 idx;
    p ← vec_at (dir_ t2) idx;
    RedistributeBucket t2 p
  else
    t1 ← bump_depth t idx;
    let '(bptr, t2) := alloc t1 (global_depth_ t1) in
    tmp ← shl1 (global_depth_ t2 - 1);
    if bool_decide (idx < tmp) then
      d ← vec_set (dir_ t2) (idx + tmp) bptr;
      p ← vec_at d idx;
      RedistributeBucket (set_dir t2 d) p
    else
      d ← vec_set (dir_ t2) idx bptr;
      p ← vec_at d (idx - tmp);
      RedistributeBucket (set_dir t2 d) p.

(** [Insert].  [tmp] starts as [value]; [Bucket::Find] overwrites it with
    the stored value when the key is present, and that is what the bucket
    is then given. *)
Fixpoint Insert (fuel : nat) (t : Table) (key : K) (value : V) : outcome Table :=
  match fuel with
  | O => NoFuel
  | S fuel' =>
      idx ← IndexOf t key;
      p ← vec_at (dir_ t) idx;
      b ← deref t p;
      match Bucket_Find key b with
      | Some tmp => store t p (Bucket_Insert key tmp b).2
      | None =>
          if IsFull b then
            t' ← split t idx;
            Insert fuel' t' key value
          else store t p (Bucket_Insert key value b).2
      end
  end.

(** *** Predicates on tables *)

(** Shape of the directory: [2^global_depth_] slots, at a depth for which
    the shifts of [IndexOf] are defined. *)
Definition dir_shape (t : Table) : Prop :=
  0 <= global_depth_ t <= 30 /\ Z.of_nat (length (dir_ t)) = 2 ^ global_depth_ t.

(** Every directory slot holds the address of a bucket of the store. *)
Definition ptrs_ok (t : Table) : Prop :=
  forall i p, dir_ t !! i = Some p ->
    exists a, p = Some a /\ (a < length (heap_ t))%nat.

(** Local depths lie between 0 and the global depth. *)
Definition depths_ok (t : Table) : Prop :=
  Forall (fun d => 0 <= d <= global_depth_ t) (depth_ <$> heap_ t).

(** The tables a call can start on: built by the constructor, changed by
    calls of [Insert] and [Remove] that return ([Find] changes nothing),
    or left by a split for the recursive call of [Insert]. *)
Inductive reachable : Table -> Prop :=
| reach_init bucket_size : reachable (init bucket_size)
| reach_Insert fuel t key value t' :
    reachable t -> Insert fuel t key value = Ok t' -> reachable t'
| reach_Remove t key r t' :
    reachable t -> Remove t key = Ok (r, t') -> reachable t'
| reach_retry t key idx p b t' :
    reachable t ->
    IndexOf t key = Ok idx -> vec_at (dir_ t) idx = Ok p -> deref t p = Ok b ->
    Bucket_Find key b = None -> IsFull b = true ->
    split t idx = Ok t' -> reachable t'.

(** No bucket of the table holds [key]. *)
Definition key_absent (key : K) (t : Table) : Prop :=
  forall a b, heap_ t !! a = Some b -> Bucket_Find key b = None.

(** A sequence of [Insert] calls, each given the same recursion budget. *)
Definition insert_all (fuel : nat) (t : Table) (kvs : list (K * V)) : outcome Table :=
  foldl (fun acc kv => t' ← acc; Insert fuel t' kv.1 kv.2) (Ok t) kvs.

(** The keys held by a bucket are pairwise distinct, in every bucket. *)
Definition keys_nodup (t : Table) : Prop :=
  Forall (fun b => NoDup (list_ b).*1) (heap_ t).

(** Every entry of every bucket satisfies [S]. *)
Definition entries_in (S : K * V -> Prop) (t : Table) : Prop :=
  forall a b kv, heap_ t !! a = Some b -> kv ∈ list_ b -> S kv.

(** Every bucket has the capacity given to the constructor of the table
    and holds no more entries than that. *)
Definition capacity_ok (t : Table) : Prop :=
  Forall (fun b => size_ b = bucket_size_ t
                   /\ (length (list_ b) <= size_ b)%nat) (heap_ t).

(** A slot of the upper half of the directory holds what the slot
    [2^(global_depth_ - 1)] below it holds, or a bucket whose local depth
    is the global depth. *)
Definition mirror_ok (t : Table) : Prop :=
  forall i : nat,
    2 ^ (global_depth_ t - 1) <= Z.of_nat i < 2 ^ global_depth_ t ->
    dir_ t !! i = dir_ t !! (i - Z.to_nat (2 ^ (global_depth_ t - 1)))%nat
    \/ exists a, dir_ t !! i = Some (Some a)
         /\ (depth_ <$> heap_ t) !! a = Some (global_depth_ t).

(** The tables [split] hands to [RedistributeBucket], for the bucket [b] at
    address [a] behind the slot that is split.  After [DoubleDir] and
    [IncrementDepth]: [tmp] is the doubled directory before the slot
    [idx + 2^global_depth_] is pointed to the new bucket. *)
Definition split_doubled (t : Table) (idx : Z) (a : nat) (b : Bucket)
    (tmp : list (option nat)) : Table :=
  mkTable (global_depth_ t + 1) (bucket_size_ t) (num_buckets_ t + 1)
    (<[Z.to_nat (idx + 2 ^ global_depth_ t) := Some (length (heap_ t))]> tmp)
    (<[a := IncrementDepth b]>
       (heap_ t ++ [mkBucket (bucket_size_ t) (global_depth_ t + 1) []])).

(** After [IncrementDepth] and the allocation of the split in place: the
    new bucket is behind [slot] ([idx + tmp] or [idx]). *)
Definition split_placed (t : Table) (slot : Z) (a : nat) (b : Bucket) : Table :=
  mkTable (global_depth_ t) (bucket_size_ t) (num_buckets_ t)
    (<[Z.to_nat slot := Some (length (heap_ t))]> (dir_ t))
    (<[a := IncrementDepth b]> (heap_ t)
     ++ [mkBucket (bucket_size_ t) (global_depth_ t) []]).

End Table.

Arguments Bucket : clear implicits.
Arguments Table : clear implicits.

(** The directory sends the key of the entry [kv] to the bucket at address
    [a]: [dir_[IndexOf(kv.first)] == bucket]. *)
Definition stays_in {K V} (hash : K -> Z) (t : Table K V) (a : nat) (kv : K * V)
    : Prop :=
  dir_ t !! Z.to_nat (Z.land (hash kv.1) (2 ^ global_depth_ t - 1)) = Some (Some a).

#[global] Instance stays_in_dec {K V} (hash : K -> Z) (t : Table K V) a kv :
  Decision (stays_in hash t a kv).
Proof. unfold stays_in. apply _. Defined.

(** [std::hash<int>] is the identity, seen as a [size_t]. *)
Definition hash_int (k : Z) : Z := k mod 2 ^ 64.

(** *** Tables over [int] keys used in the examples below *)

(** After [Insert(1, 10)] on a new table of bucket size 2. *)
Definition table_1 : Table Z Z :=
  mkTable 0 2 1 [Some 0%nat] [mkBucket 2 0 [(1, 10)]].

(** After [Insert(0), Insert(4), Insert(3)] on a table of bucket size 1:
    slots 1, 3, 5 and 7 share the bucket at address 1, of local depth 1. *)
Definition table_034 : Table Z Z :=
  mkTable 3 1 4
    [Some 0; Some 1; Some 2; Some 1; Some 3; Some 1; Some 2; Some 1]%nat
    [mkBucket 1 3 [(0, 0)]; mkBucket 1 1 [(3, 30)]; mkBucket 1 2 [];
     mkBucket 1 3 [(4, 40)]].

(** Tables on which [Insert] of key 1 finds a full bucket that no split
    relieves: slots 1 and 3 share a one-entry bucket that holds key 3. *)
Definition stuck (t : Table Z Z) : Prop :=
  exists a b v3,
    3 <= global_depth_ t <= 30
    /\ dir_ t !! 1%nat = Some (Some a) /\ dir_ t !! 3%nat = Some (Some a)
    /\ heap_ t !! a = Some b
    /\ list_ b = [(3, v3)] /\ size_ b = 1%nat /\ depth_ b <= global_depth_ t.

(** After [Insert(0), Insert(4), Insert(8), Insert(5), Insert(3)] on a table
    of bucket size 2: the bucket at address 1 (local depth 1, slots 1, 3, 5
    and 7) is full. *)
Definition table_04853 : Table Z Z :=
  mkTable 3 2 4
    [Some 0; Some 1; Some 2; Some 1; Some 3; Some 1; Some 2; Some 1]%nat
    [mkBucket 2 3 [(0, 0); (8, 80)]; mkBucket 2 1 [(5, 50); (3, 30)];
     mkBucket 2 2 []; mkBucket 2 3 [(4, 40)]].

(** [table_04853] after [Insert(1)]: the full bucket was split without
    doubling the directory; key 5 moved to the new bucket at address 4. *)
Definition table_048531 : Table Z Z :=
  mkTable 3 2 4
    [Some 0; Some 1; Some 2; Some 1; Some 3; Some 4; Some 2; Some 1]%nat
    [mkBucket 2 3 [(0, 0); (8, 80)]; mkBucket 2 2 [(3, 30); (1, 10)];
     mkBucket 2 2 []; mkBucket 2 3 [(4, 40)]; mkBucket 2 3 [(5, 50)]].

(** [table_048531] after [Insert(9)]. *)
Definition table_0485319 : Table Z Z :=
  mkTable 4 2 5
    [Some 0; Some 1; Some 2; Some 1; Some 3; Some 5; Some 2; Some 1;
     Some 0; Some 6; Some 2; Some 1; Some 3; Some 5; Some 2; Some 1]%nat
    [mkBucket 2 3 [(0, 0); (8, 80)]; mkBucket 2 4 [(3, 30); (1, 10)];
     mkBucket 2 2 []; mkBucket 2 3 [(4, 40)]; mkBucket 2 3 [(5, 50)];
     mkBucket 2 3 []; mkBucket 2 4 [(9, 90)]].

End EHT.


(** ** LRU-K replacer *)

Module LRUK.

Definition LONG_MAX : Z := 2 ^ 63 - 1.

(** Arithmetic on [size_t] wraps around at [2^64]. *)
Definition wrap64 (z : Z) : Z := z mod 2 ^ 64.

(** Modelled from the spec: a slot (the struct is declared in
    lru_k_replacer.h, not among the sources): "a bounded history of the
    last K access timestamps (most-recent first), a count of stored
    timestamps (0..K), and an evictable flag".  The source pushes new
    timestamps to the front of [records_]. *)
Record Slot : Type := mkSlot {
  records_ : list Z;
  record_nums_ : Z;
  evictable_ : bool
}.

Record Replacer : Type := mkReplacer {
  replacer_size_ : Z;
  k_ : Z;
  slots_ : gmap Z Slot;
  current_timestamp_ : Z;
  curr_size_ : Z
}.

(** The constructor.
    Modelled from the spec: [current_timestamp_] and [curr_size_] get their
    initial values in the class declaration (lru_k_replacer.h, not among
    the sources); a "monotonic timestamp" counter and a "counter of
    currently evictable frames" of an empty replacer start at 0. *)
Definition init (num_frames k : Z) : Replacer := mkReplacer num_frames k ∅ 0 0.

(** [records_->front()] and [records_->back()]; undefined on an empty list. *)
Definition front (l : list Z) : outcome Z :=
  match l with
  | x :: _ => Ok x
  | [] => Fault
  end.

Definition back (l : list Z) : outcome Z :=
  match last l with
  | Some x => Ok x
  | None => Fault
  end.

(** The local variables of [Evict]; [result] is unset until [flag] is. *)
Record EvictVars : Type := mkVars {
  max_distance : Z;
  min_timestamp : Z;
  min_record_nums : Z;
  result : option Z;
  flag : bool
}.

Definition evict_init : EvictVars := mkVars 0 LONG_MAX LONG_MAX None false.

(** The body of the loop of [Evict] for one entry of [slots_]. *)
Definition evict_visit (k : Z) (acc : outcome EvictVars) (it : Z * Slot)
    : outcome EvictVars :=
  a ← acc;
  let s := it.2 in
  if bool_decide (record_nums_ s = 0) || negb (evictable_ s) then Ok a
  else if bool_decide (record_nums_ s < k) then
    if bool_decide (record_nums_ s < min_record_nums a) then
      f ← front (records_ s);
      Ok (mkVars (max_distance a) f (record_nums_ s) (Some it.1) true)
    else if bool_decide (record_nums_ s = min_record_nums a) then
      f ← front (records_ s);
      if bool_decide (f < min_timestamp a)
      then Ok (mkVars (max_distance a) f (min_record_nums a) (Some it.1) true)
      else Ok a
    else Ok a
  else if bool_decide (min_record_nums a < k) then Ok a
  else
    f ← front (records_ s);
    b ← back (records_ s);
    let tmp := wrap64 (f - b) in
    if bool_decide (tmp > max_distance a)
    then Ok (mkVars tmp (min_timestamp a) k (Some it.1) true)
    else Ok a.

(** [Evict]: the loop runs over [slots_] in the order of the container,
    which the model leaves open ([map_to_list]). *)
Definition Evict (r : Replacer) : outcome (option Z * Replacer) :=
  a ← foldl (evict_visit (k_ r)) (Ok evict_init) (map_to_list (slots_ r));
  if flag a then
    match result a with
    | Some fid =>
        Ok (Some fid,
            mkReplacer (replacer_size_ r) (k_ r) (delete fid (slots_ r))
                       (current_timestamp_ r) (wrap64 (curr_size_ r - 1)))
    | None => Fault
    end
  else Ok (None, r).

(** [SetEvictable]; the assertion that the frame has a slot ends the call
    when it fails. *)
Definition SetEvictable (r : Replacer) (frame_id : Z) (set_evictable : bool)
    : outcome Replacer :=
  match slots_ r !! frame_id with
  | None => Fault
  | Some tslot =>
      let c1 := if evictable_ tslot && negb set_evictable
                then wrap64 (curr_size_ r - 1) else curr_size_ r in
      let c2 := if negb (evictable_ tslot) && set_evictable
                then wrap64 (c1 + 1) else c1 in
      Ok (mkReplacer (replacer_size_ r) (k_ r)
            (<[frame_id := mkSlot (records_ tslot) (record_nums_ tslot) set_evictable]>
               (slots_ r))
            (current_timestamp_ r) c2)
  end.

(** [Remove]: nothing happens for a frame without a slot; otherwise the
    slot must be evictable (assertion) and is erased. *)
Definition Remove (r : Replacer) (frame_id : Z) : outcome Replacer :=
  match slots_ r !! frame_id with
  | None => Ok r
  | Some s =>
      if evictable_ s then
        Ok (mkReplacer (replacer_size_ r) (k_ r) (delete frame_id (slots_ r))
                       (current_timestamp_ r) (wrap64 (curr_size_ r - 1)))
      else Fault
  end.

Definition Size (r : Replacer) : Z := curr_size_ r.

Section Default.
(** The value the constructor [Slot()] gives [evictable_]: it is set in the
    class declaration, which is not among the sources, and is left open
    here.  (The specification has slots start non-evictable; the counter
    of [RecordAccess] and the buffer pool only fit slots that start
    evictable.)  A new slot has no record. *)
Variable slot_evictable : bool.

(** [RecordAccess].  A frame without a slot gets one (after the assertion
    on the size counter), with the current timestamp as its only record,
    and the size counter goes up; a frame with [k_] records drops its
    oldest one. *)
Definition RecordAccess (r : Replacer) (frame_id : Z) : outcome Replacer :=
  match slots_ r !! frame_id with
  | None =>
      if bool_decide (curr_size_ r < replacer_size_ r) then
        Ok (mkReplacer (replacer_size_ r) (k_ r)
              (<[frame_id := mkSlot [current_timestamp_ r] 1 slot_evictable]> (slots_ r))
              (wrap64 (current_timestamp_ r + 1)) (wrap64 (curr_size_ r + 1)))
      else Fault
  | Some s =>
      let s' :=
        if bool_decide (record_nums_ s = k_ r)
        then mkSlot (removelast (current_timestamp_ r :: records_ s))
                    (record_nums_ s) (evictable_ s)
        else mkSlot (current_timestamp_ r :: records_ s)
                    (wrap64 (record_nums_ s + 1)) (evictable_ s) in
      Ok (mkReplacer (replacer_size_ r) (k_ r) (<[frame_id := s']> (slots_ r))
                     (wrap64 (current_timestamp_ r + 1)) (curr_size_ r))
  end.

(** The states of a replacer: built by the constructor, changed by calls
    that return. *)
Inductive reachable : Replacer -> Prop :=
| reach_init num_frames k :
    0 <= num_frames < 2 ^ 64 -> 1 <= k < 2 ^ 64 -> reachable (init num_frames k)
| reach_RecordAccess r f r' :
    reachable r -> RecordAccess r f = Ok r' -> reachable r'
| reach_SetEvictable r f b r' :
    reachable r -> SetEvictable r f b = Ok r' -> reachable r'
| reach_Evict r o r' :
    reachable r -> Evict r = Ok (o, r') -> reachable r'
| reach_Remove r f r' :
    reachable r -> Remove r f = Ok r' -> reachable r'.

End Default.

(** *** Notions used in the statements *)

(** The number of slots whose evictable flag is set. *)
Definition is_evictable (kv : Z * Slot) : Prop := evictable_ kv.2 = true.

#[global] Instance is_evictable_dec kv : Decision (is_evictable kv).
Proof. unfold is_evictable. apply _. Defined.

Definition count_slots (m : gmap Z Slot) : nat := size (filter is_evictable m).

Definition count_evictable (r : Replacer) : nat := count_slots (slots_ r).

(** A slot as [RecordAccess] leaves it: between 1 and [k] records, counted
    by [record_nums_]. *)
Definition slot_ok (k : Z) (s : Slot) : Prop :=
  record_nums_ s = Z.of_nat (length (records_ s)) /\ 1 <= record_nums_ s <= k.

Definition slots_ok (r : Replacer) : Prop :=
  forall f s, slots_ r !! f = Some s -> slot_ok (k_ r) s.

(** Most recent and oldest timestamp kept for a slot. *)
Definition newest (s : Slot) : Z := hd 0 (records_ s).
Definition oldest (s : Slot) : Z := List.last (records_ s) 0.

(** What [Evict] compares slots with [k_] records by: the time between the
    oldest and the most recent access kept. *)
Definition span (s : Slot) : Z := wrap64 (newest s - oldest s).

(** The order [Evict] uses among slots with fewer than [k_] records: fewer
    records first, then the earlier most recent access. *)
Definition fewer_then_earlier (s s' : Slot) : Prop :=
  record_nums_ s < record_nums_ s'
  \/ (record_nums_ s = record_nums_ s' /\ newest s <= newest s').

(** [f] holds an evictable slot. *)
Definition evictable_at (r : Replacer) (f : Z) (s : Slot) : Prop :=
  slots_ r !! f = Some s /\ evictable_ s = true.

(** What the variables of [Evict] stand for once the loop has run over
    the entries [l]: nothing chosen yet, a slot with fewer than [k] records
    (the least one for [fewer_then_earlier]), or a slot with [k] records
    and the greatest span. *)
Definition scan_inv (k : Z) (l : list (Z * Slot)) (a : EvictVars) : Prop :=
  if flag a then
    exists f s, result a = Some f /\ (f, s) ∈ l /\ evictable_ s = true /\
      ((record_nums_ s < k /\ min_record_nums a = record_nums_ s
        /\ min_timestamp a = newest s
        /\ forall f' s', (f', s') ∈ l -> evictable_ s' = true ->
             record_nums_ s' < k -> fewer_then_earlier s s')
       \/ (k <= record_nums_ s /\ min_record_nums a = k
           /\ max_distance a = span s /\ 0 < span s
           /\ forall f' s', (f', s') ∈ l -> evictable_ s' = true ->
                k <= record_nums_ s' /\ span s' <= span s))
  else
    a = evict_init
    /\ forall f' s', (f', s') ∈ l -> evictable_ s' = true ->
         k <= record_nums_ s' /\ span s' <= 0.

(** *** Sequences of calls *)

Inductive call : Type :=
| CRecordAccess (f : Z)
| CSetEvictable (f : Z) (b : bool)
| CEvict
| CRemove (f : Z).

Definition do_call (d : bool) (r : Replacer) (c : call) : outcome Replacer :=
  match c with
  | CRecordAccess f => RecordAccess d r f
  | CSetEvictable f b => SetEvictable r f b
  | CEvict => res ← Evict r; Ok res.2
  | CRemove f => Remove r f
  end.

Definition do_calls (d : bool) (r : Replacer) (cs : list call) : outcome Replacer :=
  foldl (fun acc c => r' ← acc; do_call d r' c) (Ok r) cs.

(** The number of [RecordAccess] calls in a sequence of calls. *)
Definition count_accesses (cs : list call) : nat :=
  sum_list ((fun c => match c with CRecordAccess _ => 1%nat | _ => 0%nat end) <$> cs).

(** The timestamps kept for a slot lie below the clock and decrease
    strictly from the front of [records_] (the most recent access) on. *)
Definition stamps_ok (r : Replacer) : Prop :=
  forall f s, slots_ r !! f = Some s ->
    (forall x, x ∈ records_ s -> 0 <= x < current_timestamp_ r)
    /\ (forall (i j : nat) x y, (i < j)%nat ->
          records_ s !! i = Some x -> records_ s !! j = Some y -> y < x).

(** *** Replacers used in the examples below *)

(** [K = 3]; frame 1 accessed at times 0 and 2, frame 2 at time 1; both
    evictable. *)
Definition calls_young : list call :=
  [CRecordAccess 1; CRecordAccess 2; CRecordAccess 1;
   CSetEvictable 1 true; CSetEvictable 2 true].

Definition replacer_young : Replacer :=
  mkReplacer 7 3
    (<[1 := mkSlot [2; 0] 2 true]> (<[2 := mkSlot [1] 1 true]> ∅)) 3 2.

(** [K = 2]; frame 1 accessed at times 0 and 1, frame 2 at times 2 and 5,
    frame 3 (not evictable) at times 3 and 4. *)
Definition calls_mature : list call :=
  [CRecordAccess 1; CRecordAccess 1; CSetEvictable 1 true;
   CRecordAccess 2; CSetEvictable 2 false;
   CRecordAccess 3; CRecordAccess 3; CSetEvictable 3 false;
   CRecordAccess 2; CSetEvictable 2 true].

Definition replacer_mature : Replacer :=
  mkReplacer 7 2
    (<[1 := mkSlot [1; 0] 2 true]>
       (<[2 := mkSlot [5; 2] 2 true]> (<[3 := mkSlot [4; 3] 2 false]> ∅))) 6 2.

(** [K = 1]; frame 1 accessed once and evictable. *)
Definition calls_k1 : list call := [CRecordAccess 1; CSetEvictable 1 true].

Definition replacer_k1 : Replacer :=
  mkReplacer 7 1 (<[1 := mkSlot [0] 1 true]> ∅) 1 1.

(** [K = 2]; frame 1 accessed once and not evictable. *)
Definition replacer_pinned : Replacer :=
  mkReplacer 7 2 (<[1 := mkSlot [0] 1 false]> ∅) 1 0.

End LRUK.

(** ** Buffer pool manager *)

Module BPM.

(** Modelled from the spec: the "sentinel" page id of "an empty frame"
    (common/config.h is not among the sources). *)
Definition INVALID_PAGE_ID : Z := -1.

(** Arithmetic on [int] ([page_id_t], [frame_id_t], pin counts), wrapping
    around as two's complement. *)
Definition wrap32 (z : Z) : Z := (z + 2 ^ 31) mod 2 ^ 32 - 2 ^ 31.

Section Pool.
(** The payload of a page and the payload of zeroes. *)
Variable Data : Type.
Variable zero_data : Data.
(** The value [Slot()] gives the evictable flag (see [LRUK.RecordAccess]). *)
Variable slot_evictable : bool.
(** The recursion budget given to the page table's [Insert]. *)
Variable fuel : nat.

(** Modelled from the spec: a frame (storage/page/page.h is not among the
    sources): "a fixed-size byte buffer plus metadata: the logical page
    identifier currently resident, a pin count, a dirty flag".  A new frame
    is [mkPage zero_data INVALID_PAGE_ID 0 false]. *)
Record Page : Type := mkPage {
  data_ : Data;
  page_id_ : Z;
  pin_count_ : Z;
  is_dirty_ : bool
}.

(** Modelled from the spec: [Page::ResetMemory] (storage/page/page.h is not
    among the sources) zeroes the payload of the frame ("zero the frame's
    payload") and leaves its metadata alone. *)
Definition ResetMemory (p : Page) : Page :=
  mkPage zero_data (page_id_ p) (pin_count_ p) (is_dirty_ p).

(** Modelled from the spec: the [DiskManager], a store of page payloads.
    [WritePage] persists a payload, [ReadPage] yields the last payload
    written for the page (zeroes when there is none). *)
Definition WritePage (disk : list (Z * Data)) (pid : Z) (d : Data) : list (Z * Data) :=
  (pid, d) :: disk.

Fixpoint ReadPage (disk : list (Z * Data)) (pid : Z) : Data :=
  match disk with
  | [] => zero_data
  | (p, d) :: disk' => if decide (p = pid) then d else ReadPage disk' pid
  end.

Record Pool : Type := mkPool {
  pool_size_ : Z;
  pages_ : list Page;
  page_table_ : EHT.Table Z Z;
  replacer_ : LRUK.Replacer;
  free_list_ : list Z;
  next_page_id_ : Z;
  disk_ : list (Z * Data)
}.

(** The constructor.  [bucket_size] stands for the constant [bucket_size_]
    of the class declaration. *)
Definition init (pool_size : nat) (replacer_k : Z) (bucket_size : nat) : Pool :=
  mkPool (Z.of_nat pool_size)
         (replicate pool_size (mkPage zero_data INVALID_PAGE_ID 0 false))
         (EHT.init bucket_size)
         (LRUK.init (Z.of_nat pool_size) replacer_k)
         (Z.of_nat <$> seq 0 pool_size)
         0 [].

(** [GetNewFrame]: the front of the free list, else the replacer's victim. *)
Definition GetNewFrame (b : Pool) : outcome (option Z * Pool) :=
  match free_list_ b with
  | f :: rest =>
      Ok (Some f,
          mkPool (pool_size_ b) (pages_ b) (page_table_ b) (replacer_ b) rest
                 (next_page_id_ b) (disk_ b))
  | [] =>
      res ← LRUK.Evict (replacer_ b);
      Ok (res.1,
          mkPool (pool_size_ b) (pages_ b) (page_table_ b) res.2 (free_list_ b)
                 (next_page_id_ b) (disk_ b))
  end.

(** [if (pages_[f].IsDirty()) disk_manager_->WritePage(...)] *)
Definition write_back (disk : list (Z * Data)) (pg : Page) : list (Z * Data) :=
  if is_dirty_ pg then WritePage disk (page_id_ pg) (data_ pg) else disk.

(** [NewPgImp]; the result is the index of the frame handed out and the
    page id written to [*page_id], or [None] for [nullptr].  The frame is
    obtained as in [GetNewFrame] (the source repeats its two branches). *)
Definition NewPgImp (b : Pool) : outcome (option (Z * Z) * Pool) :=
  got ← GetNewFrame b;
  let b1 := got.2 in
  match got.1 with
  | None => Ok (None, b1)
  | Some f =>
      let pid := next_page_id_ b1 in
      pg ← vec_at (pages_ b1) f;
      let disk := write_back (disk_ b1) pg in
      rm ← EHT.Remove EHT.hash_int (page_table_ b1) (page_id_ pg);
      tbl ← EHT.Insert EHT.hash_int fuel rm.2 pid f;
      r1 ← LRUK.RecordAccess slot_evictable (replacer_ b1) f;
      r2 ← LRUK.SetEvictable r1 f false;
      let pg1 := ResetMemory pg in
      pages ← vec_set (pages_ b1) f (mkPage (data_ pg1) pid 1 (is_dirty_ pg1));
      Ok (Some (f, pid),
          mkPool (pool_size_ b1) pages tbl r2 (free_list_ b1)
                 (wrap32 (pid + 1)) disk)
  end.

(** [FetchPgImp]; the result is the index of the frame, or [None]. *)
Definition FetchPgImp (b : Pool) (page_id : Z) : outcome (option Z * Pool) :=
  found ← EHT.Find EHT.hash_int (page_table_ b) page_id;
  match found with
  | Some f =>
      pg ← vec_at (pages_ b) f;
      r1 ← (if bool_decide (pin_count_ pg = 0)
            then LRUK.SetEvictable (replacer_ b) f false
            else Ok (replacer_ b));
      r2 ← LRUK.RecordAccess slot_evictable r1 f;
      pages ← vec_set (pages_ b) f
                (mkPage (data_ pg) (page_id_ pg) (wrap32 (pin_count_ pg + 1))
                        (is_dirty_ pg));
      Ok (Some f,
          mkPool (pool_size_ b) pages (page_table_ b) r2 (free_list_ b)
                 (next_page_id_ b) (disk_ b))
  | None =>
      got ← GetNewFrame b;
      let b1 := got.2 in
      match got.1 with
      | None => Ok (None, b1)
      | Some f =>
          pg ← vec_at (pages_ b1) f;
          let disk := write_back (disk_ b1) pg in
          r1 ← (if bool_decide (pin_count_ pg = 0)
                then r ← LRUK.RecordAccess slot_evictable (replacer_ b1) f;
                     LRUK.SetEvictable r f false
                else Ok (replacer_ b1));
          r2 ← LRUK.RecordAccess slot_evictable r1 f;
          rm ← EHT.Remove EHT.hash_int (page_table_ b1) (page_id_ pg);
          tbl ← EHT.Insert EHT.hash_int fuel rm.2 page_id f;
          let pg1 := ResetMemory pg in
          pages ← vec_set (pages_ b1) f
                    (mkPage (ReadPage disk page_id) page_id
                            (wrap32 (pin_count_ pg1 + 1)) (is_dirty_ pg1));
          Ok (Some f,
              mkPool (pool_size_ b1) pages tbl r2 (free_list_ b1)
                     (next_page_id_ b1) disk)
      end
  end.

(** [UnpinPgImp] *)
Definition UnpinPgImp (b : Pool) (page_id : Z) (is_dirty : bool)
    : outcome (bool * Pool) :=
  found ← EHT.Find EHT.hash_int (page_table_ b) page_id;
  match found with
  | None => Ok (false, b)
  | Some f =>
      pg ← vec_at (pages_ b) f;
      if bool_decide (pin_count_ pg = 0) then Ok (false, b)
      else
        let pin := wrap32 (pin_count_ pg - 1) in
        r ← (if bool_decide (pin = 0)
             then LRUK.SetEvictable (replacer_ b) f true
             else Ok (replacer_ b));
        pages ← vec_set (pages_ b) f (mkPage (data_ pg) (page_id_ pg) pin is_dirty);
        Ok (true,
            mkPool (pool_size_ b) pages (page_table_ b) r (free_list_ b)
                   (next_page_id_ b) (disk_ b))
  end.

(** [FlushPgImp] *)
Definition FlushPgImp (b : Pool) (page_id : Z) : outcome (bool * Pool) :=
  found ← EHT.Find EHT.hash_int (page_table_ b) page_id;
  match found with
  | Some f =>
      pg ← vec_at (pages_ b) f;
      pages ← vec_set (pages_ b) f
                (mkPage (data_ pg) (page_id_ pg) (pin_count_ pg) false);
      Ok (true,
          mkPool (pool_size_ b) pages (page_table_ b) (replacer_ b) (free_list_ b)
                 (next_page_id_ b) (WritePage (disk_ b) page_id (data_ pg)))
  | None => Ok (false, b)
  end.

(** [FlushAllPgsImp]: [FlushPage(pages_[idx].page_id_)] for every frame. *)
Definition FlushAllPgsImp (b : Pool) : outcome Pool :=
  foldl (fun acc idx =>
           b' ← acc;
           pg ← vec_at (pages_ b') (Z.of_nat idx);
           res ← FlushPgImp b' (page_id_ pg);
           Ok res.2)
        (Ok b) (seq 0 (Z.to_nat (pool_size_ b))).

(** [DeletePgImp].  [DeallocatePage] is declared with the class and keeps
    no state of the pool; it is left out. *)
Definition DeletePgImp (b : Pool) (page_id : Z) : outcome (bool * Pool) :=
  found ← EHT.Find EHT.hash_int (page_table_ b) page_id;
  match found with
  | Some f =>
      pg ← vec_at (pages_ b) f;
      if bool_decide (pin_count_ pg <> 0) then Ok (false, b)
      else
        rm ← EHT.Remove EHT.hash_int (page_table_ b) page_id;
        r ← LRUK.Remove (replacer_ b) f;
        pages ← vec_set (pages_ b) f (ResetMemory pg);
        Ok (true,
            mkPool (pool_size_ b) pages rm.2 r (free_list_ b ++ [f])
                   (next_page_id_ b) (disk_ b))
  | None => Ok (true, b)
  end.

(** *** Sequences of calls *)

Inductive call : Type :=
| CNewPage
| CFetchPage (page_id : Z)
| CUnpinPage (page_id : Z) (is_dirty : bool)
| CFlushPage (page_id : Z)
| CFlushAllPages
| CDeletePage (page_id : Z).

Definition do_call (b : Pool) (c : call) : outcome Pool :=
  match c with
  | CNewPage => res ← NewPgImp b; Ok res.2
  | CFetchPage p => res ← FetchPgImp b p; Ok res.2
  | CUnpinPage p d => res ← UnpinPgImp b p d; Ok res.2
  | CFlushPage p => res ← FlushPgImp b p; Ok res.2
  | CFlushAllPages => FlushAllPgsImp b
  | CDeletePage p => res ← DeletePgImp b p; Ok res.2
  end.

Definition do_calls (b : Pool) (cs : list call) : outcome Pool :=
  foldl (fun acc c => b' ← acc; do_call b' c) (Ok b) cs.

(** The frame that holds [page_id] according to the page table. *)
Definition frame_of (b : Pool) (page_id : Z) : outcome (option Z) :=
  EHT.Find EHT.hash_int (page_table_ b) page_id.

(** The frame at index [f]. *)
Definition page_at (b : Pool) (f : Z) : option Page := pages_ b !! Z.to_nat f.

(** Every pin count lies between 0 and [n]. *)
Definition pins_within (n : Z) (pages : list Page) : Prop :=
  forall (i : nat) pg, pages !! i = Some pg -> 0 <= pin_count_ pg <= n.

(** [pg'] is [pg], but for a dirty flag that may have been cleared. *)
Definition flushed (pg pg' : Page) : Prop :=
  data_ pg' = data_ pg /\ page_id_ pg' = page_id_ pg
  /\ pin_count_ pg' = pin_count_ pg
  /\ (is_dirty_ pg' = true -> is_dirty_ pg = true).

(** The frame ids the pool keeps (in the free list, as slots of the
    replacer, as values of the page table) are indices of the frame
    array, and the page table is one its own operations have built. *)
Definition frames_ok (b : Pool) : Prop :=
  Z.of_nat (length (pages_ b)) = pool_size_ b
  /\ (forall f, f ∈ free_list_ b -> 0 <= f < pool_size_ b)
  /\ (forall f s, LRUK.slots_ (replacer_ b) !! f = Some s -> 0 <= f < pool_size_ b)
  /\ EHT.entries_in (fun kv : Z * Z => 0 <= kv.2 < pool_size_ b) (page_table_ b)
  /\ EHT.reachable EHT.hash_int (page_table_ b).

End Pool.

Arguments mkPage {Data}.
Arguments data_ {Data}.
Arguments page_id_ {Data}.
Arguments pin_count_ {Data}.
Arguments is_dirty_ {Data}.
Arguments mkPool {Data}.
Arguments pool_size_ {Data}.
Arguments pages_ {Data}.
Arguments page_table_ {Data}.
Arguments replacer_ {Data}.
Arguments free_list_ {Data}.
Arguments next_page_id_ {Data}.
Arguments disk_ {Data}.
Arguments frame_of {Data}.
Arguments page_at {Data}.
Arguments frames_ok {Data}.
Arguments flushed {Data}.
Arguments pins_within {Data}.

(** *** Pools of the examples below

    Payloads of four bytes, slots created evictable, [K = 2], and a
    recursion budget of 8 for the page table. *)
Definition zero4 : list Z := [0; 0; 0; 0].

Definition run (pool_size bucket_size : nat) (cs : list call)
    : outcome (Pool (list Z)) :=
  do_calls (list Z) zero4 true 8 (init (list Z) zero4 pool_size 2 bucket_size) cs.

(** One frame; page 0 created, unpinned dirty, fetched again. *)
Definition calls_dirty_pinned : list call :=
  [CNewPage; CUnpinPage 0 true; CFetchPage 0].

Definition pool_dirty_pinned : Pool (list Z) :=
  mkPool 1 [mkPage zero4 0 1 true]
    (EHT.mkTable 0 4 1 [Some 0%nat] [EHT.mkBucket 4 0 [(0, 0)]])
    (LRUK.mkReplacer 1 2 (<[0 := LRUK.mkSlot [1; 0] 2 false]> ∅) 2 0)
    [] 1 [].

(** One frame; page 0 created and unpinned dirty. *)
Definition calls_dirty_unpinned : list call := [CNewPage; CUnpinPage 0 true].

Definition pool_dirty_unpinned : Pool (list Z) :=
  mkPool 1 [mkPage zero4 0 0 true]
    (EHT.mkTable 0 4 1 [Some 0%nat] [EHT.mkBucket 4 0 [(0, 0)]])
    (LRUK.mkReplacer 1 2 (<[0 := LRUK.mkSlot [0] 1 true]> ∅) 1 1)
    [] 1 [].

(** One frame; page 0 created, unpinned clean and deleted. *)
Definition calls_deleted : list call :=
  [CNewPage; CUnpinPage 0 false; CDeletePage 0].

(** Eleven frames; ten pages fetched and kept pinned, then page 9. *)
Definition calls_fetch10 : list call :=
  CFetchPage <$> [0; 8; 16; 24; 4; 5; 3; 7; 11; 1].

Definition calls_fetch11 : list call := calls_fetch10 ++ [CFetchPage 9].

(** Seed scenario 1 of the specification: three frames, three new pages,
    all unpinned, a fourth new page. *)
Definition calls_scenario1 : list call :=
  [CNewPage; CNewPage; CNewPage;
   CUnpinPage 0 false; CUnpinPage 1 false; CUnpinPage 2 false; CNewPage].

End BPM.
(** * Properties *)

Lemma bind_Ok {A B} (m : outcome A) (f : A -> outcome B) b :
  m ≫= f = Ok b -> exists a, m = Ok a /\ f a = Ok b.
Proof. destruct m; simpl; intros H; try discriminate; eauto. Qed.

(** Splitting an equation [m ≫= f = Ok b] into its steps. *)
Tactic Notation "inv_bind" hyp(H) "as" ident(a) ident(Ha) :=
  apply bind_Ok in H as (a & Ha & H).

Lemma Ok_bind {A B} (a : A) (f : A -> outcome B) : Ok a ≫= f = f a.
Proof. reflexivity. Qed.

(** Running the steps of a computation whose first results are known. *)
Tactic Notation "ok_step" := rewrite ?Ok_bind; cbv beta.
Tactic Notation "ok_step" "in" hyp(H) := rewrite ?Ok_bind in H; cbv beta in H.

Lemma shl1_Ok n z : shl1 n = Ok z -> 0 <= n <= 30 /\ z = 2 ^ n.
Proof.
  unfold shl1. case_bool_decide; intros [= <-]; split; [done|].
  rewrite Z.shiftl_1_l. done.
Qed.

Lemma shl1_pow n : 0 <= n <= 30 -> shl1 n = Ok (2 ^ n).
Proof.
  intros H. unfold shl1. rewrite bool_decide_eq_true_2 by done.
  by rewrite Z.shiftl_1_l.
Qed.

Lemma vec_at_Ok {A} (v : list A) i a :
  vec_at v i = Ok a <-> 0 <= i /\ v !! Z.to_nat i = Some a.
Proof.
  unfold vec_at. case_bool_decide.
  - destruct (v !! Z.to_nat i) eqn:E; split.
    + by intros [= <-].
    + by intros [_ [= <-]].
    + done.
    + by intros [_ ?].
  - split; [done | intros [? _]; lia].
Qed.

Lemma vec_at_in_bounds {A} (v : list A) i :
  0 <= i < Z.of_nat (length v) -> returns (vec_at v i).
Proof.
  intros H. unfold vec_at. rewrite bool_decide_eq_true_2 by lia.
  destruct (lookup_lt_is_Some_2 v (Z.to_nat i)) as [a Ha]; [lia|].
  rewrite Ha. by exists a.
Qed.

Lemma vec_set_Ok {A} (v : list A) i a v' :
  vec_set v i a = Ok v' ->
  0 <= i < Z.of_nat (length v) /\ v' = <[Z.to_nat i := a]> v.
Proof. unfold vec_set. case_bool_decide; intros [= <-]; done. Qed.


Lemma foldl_Ok_inv {A B} (f : outcome A -> B -> outcome A) (P : A -> Prop) l :
  (forall acc x a', x ∈ l -> f acc x = Ok a' ->
     exists a0, acc = Ok a0 /\ (P a0 -> P a')) ->
  forall acc r, foldl f acc l = Ok r -> exists a, acc = Ok a /\ (P a -> P r).
Proof.
  induction l as [|x l IH]; simpl; intros Hstep acc r Hr.
  - exists r. done.
  - apply IH in Hr as (a' & Ha' & Himp).
    + apply Hstep in Ha' as (a0 & -> & Himp0); [|by left].
      exists a0. split; [done|]. auto.
    + intros acc0 x0 a0 Hin. apply Hstep. by right.
Qed.


(** ** Extendible hash table *)

Section EHT_facts.
Context {K V : Type} `{EqDecision K}.
Variable hash : K -> Z.

#[local] Abbreviation Table := (EHT.Table K V).
#[local] Abbreviation Bucket := (EHT.Bucket K V).

Lemma store_dir (t : Table) p b t' :
  EHT.store t p b = Ok t' ->
  EHT.dir_ t' = EHT.dir_ t /\ EHT.global_depth_ t' = EHT.global_depth_ t
  /\ EHT.num_buckets_ t' = EHT.num_buckets_ t /\ EHT.bucket_size_ t' = EHT.bucket_size_ t.
Proof.
  unfold EHT.store. destruct p as [a|]; [|done].
  case_bool_decide; [|done]. by intros [= <-].
Qed.

Lemma redistribute_step_dir bucket acc (it : K * V) (t' : Table) :
  EHT.redistribute_step hash bucket acc it = Ok t' ->
  exists t, acc = Ok t /\
    (EHT.dir_ t' = EHT.dir_ t /\ EHT.global_depth_ t' = EHT.global_depth_ t
     /\ EHT.num_buckets_ t' = EHT.num_buckets_ t).
Proof.
  unfold EHT.redistribute_step. intros H0.
  inv_bind H0 as t Ht. exists t. split; [done|].
  inv_bind H0 as idx Hidx. inv_bind H0 as p Hp. case_decide.
  - by injection H0 as <-.
  - inv_bind H0 as tgt Htgt. inv_bind H0 as t1 Ht1. inv_bind H0 as src Hsrc.
    apply store_dir in Ht1 as (? & ? & ? & ?). apply store_dir in H0 as (? & ? & ? & ?).
    repeat split; congruence.
Qed.

Lemma RedistributeBucket_dir (t : Table) bucket t' :
  EHT.RedistributeBucket hash t bucket = Ok t' ->
  EHT.dir_ t' = EHT.dir_ t /\ EHT.global_depth_ t' = EHT.global_depth_ t
  /\ EHT.num_buckets_ t' = EHT.num_buckets_ t.
Proof.
  unfold EHT.RedistributeBucket. intros H0. inv_bind H0 as b Hb.
  apply (foldl_Ok_inv _ (fun t1 : Table =>
           EHT.dir_ t1 = EHT.dir_ t /\ EHT.global_depth_ t1 = EHT.global_depth_ t
           /\ EHT.num_buckets_ t1 = EHT.num_buckets_ t)) in H0.
  - destruct H0 as (t0 & [= <-] & Himp). by apply Himp.
  - intros acc x a' _ Hs. apply redistribute_step_dir in Hs as (t1 & -> & E1 & E2 & E3).
    exists t1. split; [done|]. intros (? & ? & ?). repeat split; congruence.
Qed.

Lemma copy_step_length dir half acc i (tmp' : list (option nat)) :
  EHT.copy_step dir half acc i = Ok tmp' ->
  exists tmp, acc = Ok tmp /\ length tmp' = length tmp.
Proof.
  unfold EHT.copy_step. intros H0. inv_bind H0 as tmp Htmp. exists tmp. split; [done|].
  inv_bind H0 as p Hp. inv_bind H0 as tmp1 Htmp1.
  apply vec_set_Ok in Htmp1 as [_ ->]. apply vec_set_Ok in H0 as [_ ->].
  by rewrite !length_insert.
Qed.

Lemma copy_loop_length dir half l tmp0 (tmp : list (option nat)) :
  foldl (EHT.copy_step dir half) (Ok tmp0) l = Ok tmp -> length tmp = length tmp0.
Proof.
  intros H0.
  apply (foldl_Ok_inv _ (fun t1 => length t1 = length tmp0)) in H0.
  - destruct H0 as (a & [= <-] & Himp). by apply Himp.
  - intros acc x a' _ Hs. apply copy_step_length in Hs as (tmp1 & -> & E).
    exists tmp1. split; [done|]. congruence.
Qed.

Lemma DoubleDir_shape (t : Table) idx t' :
  EHT.DoubleDir t idx = Ok t' ->
  EHT.global_depth_ t' = EHT.global_depth_ t + 1 /\ EHT.dir_shape t'
  /\ EHT.num_buckets_ t' = EHT.num_buckets_ t + 1.
Proof.
  unfold EHT.DoubleDir. intros H0.
  inv_bind H0 as n Hn. inv_bind H0 as half Hhalf. inv_bind H0 as tmp Htmp.
  simpl in H0. inv_bind H0 as d Hd.
  injection H0 as <-. simpl.
  apply shl1_Ok in Hn as [Hg ->]. apply shl1_Ok in Hhalf as [Hg' ->].
  apply copy_loop_length in Htmp. rewrite length_replicate in Htmp.
  apply vec_set_Ok in Hd as [_ ->].
  split; [done|]. split; [|done].
  split; simpl; [lia|]. rewrite length_insert, Htmp. lia.
Qed.

Lemma bump_depth_dir (t : Table) idx t' :
  EHT.bump_depth t idx = Ok t' ->
  EHT.dir_ t' = EHT.dir_ t /\ EHT.global_depth_ t' = EHT.global_depth_ t
  /\ EHT.num_buckets_ t' = EHT.num_buckets_ t.
Proof.
  unfold EHT.bump_depth. intros H0. inv_bind H0 as p Hp. inv_bind H0 as b Hb.
  apply store_dir in H0 as (? & ? & ? & ?). done.
Qed.

Lemma split_shape (t : Table) idx t' :
  EHT.dir_shape t -> EHT.split hash t idx = Ok t' -> EHT.dir_shape t'.
Proof.
  intros [Hg Hlen]. unfold EHT.split. intros H0. inv_bind H0 as ld Hld.
  case_bool_decide.
  - inv_bind H0 as t1 Ht1. inv_bind H0 as t2 Ht2. inv_bind H0 as p Hp.
    apply DoubleDir_shape in Ht1 as (_ & [Hg1 Hl1] & _).
    apply bump_depth_dir in Ht2 as (E1 & E2 & _).
    apply RedistributeBucket_dir in H0 as (E3 & E4 & _).
    unfold EHT.dir_shape. rewrite E3, E4, E1, E2. done.
  - inv_bind H0 as t1 Ht1. simpl in H0. inv_bind H0 as tmp Htmp.
    apply bump_depth_dir in Ht1 as (E1 & E2 & _).
    case_bool_decide; inv_bind H0 as d Hd; inv_bind H0 as p Hp;
      apply vec_set_Ok in Hd as [_ ->];
      apply RedistributeBucket_dir in H0 as (E3 & E4 & _);
      simpl in *; unfold EHT.dir_shape; rewrite E3, E4, E2;
      rewrite length_insert, E1; done.
Qed.

Lemma Insert_shape fuel : forall (t : Table) key value t',
  EHT.dir_shape t -> EHT.Insert hash fuel t key value = Ok t' -> EHT.dir_shape t'.
Proof.
  induction fuel as [|fuel IH]; intros t key value t' Hs H0; [done|].
  simpl in H0. inv_bind H0 as idx Hidx. inv_bind H0 as p Hp. inv_bind H0 as b Hb.
  destruct (EHT.Bucket_Find key b) as [tmp|].
  - apply store_dir in H0 as (E1 & E2 & _). unfold EHT.dir_shape. by rewrite E1, E2.
  - destruct (EHT.IsFull b).
    + inv_bind H0 as t1 Ht1. apply split_shape in Ht1; [|done]. eauto.
    + apply store_dir in H0 as (E1 & E2 & _). unfold EHT.dir_shape. by rewrite E1, E2.
Qed.

Lemma Remove_shape (t : Table) key r t' :
  EHT.dir_shape t -> EHT.Remove hash t key = Ok (r, t') -> EHT.dir_shape t'.
Proof.
  intros Hs. unfold EHT.Remove. intros H0.
  inv_bind H0 as idx Hidx. inv_bind H0 as p Hp. inv_bind H0 as b Hb.
  destruct (EHT.Bucket_Remove key b) as [r0 b'].
  inv_bind H0 as t1 Ht1. injection H0 as _ <-.
  apply store_dir in Ht1 as (E1 & E2 & _). unfold EHT.dir_shape. by rewrite E1, E2.
Qed.

Lemma reachable_shape (t : Table) : EHT.reachable hash t -> EHT.dir_shape t.
Proof.
  induction 1 as [bs | fuel t key value t' _ IH Hi | t key r t' _ IH Hr
                 | t key idx p b t' _ IH _ _ _ _ _ Hs].
  - split; simpl; lia.
  - eapply Insert_shape; eauto.
  - eapply Remove_shape; eauto.
  - eapply split_shape; eauto.
Qed.

Lemma land_mask_bounds h g : 0 <= g -> 0 <= Z.land h (2 ^ g - 1) < 2 ^ g.
Proof.
  intros Hg. replace (2 ^ g - 1) with (Z.ones g) by (rewrite Z.ones_equiv; lia).
  rewrite Z.land_ones by done. apply Z.mod_pos_bound. lia.
Qed.

Lemma insert_all_reachable fuel kvs : forall (t t' : Table),
  EHT.reachable hash t -> EHT.insert_all hash fuel t kvs = Ok t' -> EHT.reachable hash t'.
Proof.
  unfold EHT.insert_all.
  induction kvs as [|kv kvs IH] using rev_ind; intros t t' Hr H0.
  - injection H0 as <-. done.
  - rewrite foldl_app in H0. simpl in H0. inv_bind H0 as t1 Ht1.
    eapply EHT.reach_Insert; [|exact H0]. by eapply IH.
Qed.

End EHT_facts.

Lemma table_034_reachable : EHT.reachable EHT.hash_int EHT.table_034.
Proof.
  apply (insert_all_reachable EHT.hash_int 5 [(0, 0); (4, 40); (3, 30)] (EHT.init 1)).
  - apply EHT.reach_init.
  - vm_compute. reflexivity.
Qed.

Lemma table_04853_reachable : EHT.reachable EHT.hash_int EHT.table_04853.
Proof.
  apply (insert_all_reachable EHT.hash_int 5
           [(0, 0); (4, 40); (8, 80); (5, 50); (3, 30)] (EHT.init 2)).
  - apply EHT.reach_init.
  - vm_compute. reflexivity.
Qed.


(** *** A divergent [Insert] *)

Lemma vec_at_lookup {A} (v : list A) (i : Z) a :
  0 <= i -> v !! Z.to_nat i = Some a -> vec_at v i = Ok a.
Proof. intros Hi E. by apply vec_at_Ok. Qed.

Lemma copy_loop_lookup dir half m : forall tmp0 (tmp : list (option nat)) (i : nat),
  foldl (EHT.copy_step dir half) (Ok tmp0) (seq 0 m) = Ok tmp ->
  (i < m)%nat -> Z.of_nat m <= half ->
  tmp !! i = dir !! i.
Proof.
  induction m as [|m IH]; intros tmp0 tmp i H0 Hi Hm; [lia|].
  rewrite seq_S, foldl_app in H0. simpl in H0.
  unfold EHT.copy_step in H0 at 1.
  inv_bind H0 as tmp1 Htmp1. inv_bind H0 as p Hp. inv_bind H0 as tmp2 Htmp2.
  apply vec_at_Ok in Hp as [_ Hp]. rewrite Nat2Z.id in Hp.
  apply vec_set_Ok in Htmp2 as [Hb2 ->]. apply vec_set_Ok in H0 as [Hb ->].
  rewrite Nat2Z.id in *.
  rewrite list_lookup_insert_ne by lia.
  destruct (decide (i = m)) as [->|Hne].
  - rewrite list_lookup_insert_eq by lia. done.
  - rewrite list_lookup_insert_ne by lia. eapply IH; eauto; lia.
Qed.

Lemma DoubleDir_Ok {K V} (t : EHT.Table K V) idx t' :
  EHT.DoubleDir t idx = Ok t' ->
  0 <= EHT.global_depth_ t /\ EHT.global_depth_ t + 1 <= 30
  /\ EHT.global_depth_ t' = EHT.global_depth_ t + 1
  /\ EHT.bucket_size_ t' = EHT.bucket_size_ t
  /\ EHT.heap_ t' =
       EHT.heap_ t ++ [EHT.mkBucket (EHT.bucket_size_ t) (EHT.global_depth_ t + 1) []]
  /\ exists tmp,
       (forall i : nat, Z.of_nat i < 2 ^ EHT.global_depth_ t -> tmp !! i = EHT.dir_ t !! i)
       /\ EHT.dir_ t' =
            <[Z.to_nat (idx + 2 ^ EHT.global_depth_ t) := Some (length (EHT.heap_ t))]> tmp.
Proof.
  unfold EHT.DoubleDir. intros H0.
  inv_bind H0 as n Hn. inv_bind H0 as half Hhalf. inv_bind H0 as tmp Htmp.
  simpl in H0. inv_bind H0 as d Hd. injection H0 as <-. simpl.
  apply shl1_Ok in Hn as [Hg ->]. apply shl1_Ok in Hhalf as [Hg' ->].
  apply vec_set_Ok in Hd as [_ ->].
  repeat (split; [done || lia|]).
  exists tmp. split; [|done].
  intros i Hi. eapply copy_loop_lookup; [exact Htmp| |]; lia.
Qed.

Lemma land_small x g : 0 <= g -> 0 <= x < 2 ^ g -> Z.land x (2 ^ g - 1) = x.
Proof.
  intros Hg Hx. replace (2 ^ g - 1) with (Z.ones g) by (rewrite Z.ones_equiv; lia).
  rewrite Z.land_ones by done. by apply Z.mod_small.
Qed.

Lemma pow2_ge_8 g : 3 <= g -> 8 <= 2 ^ g.
Proof. intros Hg. change 8 with (2 ^ 3). apply Z.pow_le_mono_r; lia. Qed.

Lemma IndexOf_small (t : EHT.Table Z Z) k :
  3 <= EHT.global_depth_ t <= 30 -> 0 <= k < 8 ->
  EHT.IndexOf EHT.hash_int t k = Ok k.
Proof.
  intros Hg Hk. unfold EHT.IndexOf. rewrite shl1_pow by lia. simpl.
  assert (H8 := pow2_ge_8 _ (proj1 Hg)).
  unfold EHT.hash_int. rewrite (Z.mod_small k) by lia.
  rewrite land_small; [done|lia|lia].
Qed.

Lemma deref_lookup {K V} (t : EHT.Table K V) a b :
  EHT.heap_ t !! a = Some b -> EHT.deref t (Some a) = Ok b.
Proof. intros E. unfold EHT.deref. by rewrite E. Qed.

Lemma store_Ok {K V} (t : EHT.Table K V) p b t' :
  EHT.store t p b = Ok t' ->
  exists a, p = Some a /\ (a < length (EHT.heap_ t))%nat
    /\ t' = EHT.set_heap t (<[a := b]> (EHT.heap_ t)).
Proof.
  unfold EHT.store. destruct p as [a|]; [|done].
  case_bool_decide; [|done]. intros [= <-]. eauto.
Qed.

(** Redistributing a bucket whose only entry still routes to it changes
    nothing. *)
Lemma Redistribute_stays (t : EHT.Table Z Z) a b v3 :
  3 <= EHT.global_depth_ t <= 30 ->
  EHT.dir_ t !! 3%nat = Some (Some a) ->
  EHT.heap_ t !! a = Some b -> EHT.list_ b = [(3, v3)] ->
  EHT.RedistributeBucket EHT.hash_int t (Some a) = Ok t.
Proof.
  intros Hg Hd Hh Hl. unfold EHT.RedistributeBucket.
  rewrite (deref_lookup _ _ _ Hh). ok_step. rewrite Hl. cbn [foldl].
  unfold EHT.redistribute_step. ok_step. cbn [fst snd].
  rewrite IndexOf_small by lia. ok_step.
  rewrite (vec_at_lookup _ 3 (Some a)) by (done || lia). ok_step.
  by rewrite decide_True.
Qed.

Lemma stuck_split (t t' : EHT.Table Z Z) :
  EHT.stuck t -> EHT.split EHT.hash_int t 1 = Ok t' -> EHT.stuck t'.
Proof.
  intros (a & b & v3 & Hg & Hd1 & Hd3 & Hh & Hl & Hsz & Hdep) H0.
  assert (H8 := pow2_ge_8 _ (proj1 Hg)).
  unfold EHT.split in H0. inv_bind H0 as ld Hld.
  unfold EHT.GetLocalDepth in Hld.
  rewrite (vec_at_lookup _ 1 (Some a)) in Hld by (done || lia). ok_step in Hld.
  rewrite (deref_lookup _ _ _ Hh) in Hld. ok_step in Hld. injection Hld as <-.
  unfold EHT.GetGlobalDepth in H0. case_bool_decide as Hcase.
  - (* the directory doubles *)
    inv_bind H0 as t1 Ht1. inv_bind H0 as t2 Ht2. inv_bind H0 as p Hp.
    apply DoubleDir_Ok in Ht1 as (_ & Hg1 & Eg1 & _ & Eh1 & tmp & Htmp & Ed1).
    assert (Hd1' : EHT.dir_ t1 !! 1%nat = Some (Some a)).
    { rewrite Ed1, list_lookup_insert_ne by lia. rewrite Htmp by lia. done. }
    assert (Hd3' : EHT.dir_ t1 !! 3%nat = Some (Some a)).
    { rewrite Ed1, list_lookup_insert_ne by lia. rewrite Htmp by lia. done. }
    assert (Hh1 : EHT.heap_ t1 !! a = Some b).
    { rewrite Eh1. apply lookup_app_l_Some. done. }
    unfold EHT.bump_depth in Ht2.
    rewrite (vec_at_lookup _ 1 (Some a)) in Ht2 by (done || lia). ok_step in Ht2.
    rewrite (deref_lookup _ _ _ Hh1) in Ht2. ok_step in Ht2.
    apply store_Ok in Ht2 as (a' & [= <-] & Ha & ->).
    simpl in Hp. rewrite (vec_at_lookup _ 1 (Some a)) in Hp by (done || lia). injection Hp as <-.
    rewrite (Redistribute_stays _ a (EHT.IncrementDepth b) v3) in H0; simpl;
      [ | lia | done | by apply list_lookup_insert_eq | done ].
    injection H0 as <-.
    exists a, (EHT.IncrementDepth b), v3. simpl.
    rewrite list_lookup_insert_eq by done.
    repeat split; try done; lia.
  - (* the bucket is split in place *)
    inv_bind H0 as t1 Ht1. simpl in H0. inv_bind H0 as tmp Htmp.
    unfold EHT.bump_depth in Ht1.
    rewrite (vec_at_lookup _ 1 (Some a)) in Ht1 by (done || lia). ok_step in Ht1.
    rewrite (deref_lookup _ _ _ Hh) in Ht1. ok_step in Ht1.
    apply store_Ok in Ht1 as (a' & [= <-] & Ha & ->). simpl in *.
    apply shl1_Ok in Htmp as [_ ->].
    assert (H4 : 4 <= 2 ^ (EHT.global_depth_ t - 1)).
    { change 4 with (2 ^ 2). apply Z.pow_le_mono_r; lia. }
    rewrite bool_decide_eq_true_2 in H0 by lia.
    inv_bind H0 as d Hd. inv_bind H0 as p Hp.
    apply vec_set_Ok in Hd as [_ ->].
    rewrite (vec_at_lookup _ 1 (Some a)) in Hp
      by (lia || (rewrite list_lookup_insert_ne by lia; done)).
    injection Hp as <-.
    rewrite (Redistribute_stays _ a (EHT.IncrementDepth b) v3) in H0; simpl;
      [ | lia | by rewrite list_lookup_insert_ne by lia
        | apply lookup_app_l_Some; by apply list_lookup_insert_eq | done ].
    injection H0 as <-.
    exists a, (EHT.IncrementDepth b), v3. simpl.
    rewrite !list_lookup_insert_ne by lia.
    rewrite (lookup_app_l_Some _ _ _ (EHT.IncrementDepth b))
      by (by apply list_lookup_insert_eq).
    repeat split; try done; lia.
Qed.

Lemma stuck_Insert fuel : forall (t : EHT.Table Z Z) value,
  EHT.stuck t ->
  forall t', EHT.Insert EHT.hash_int fuel t 1 value <> Ok t'.
Proof.
  induction fuel as [|fuel IH]; intros t value Hs t'; [done|].
  pose proof Hs as (a & b & v3 & Hg & Hd1 & Hd3 & Hh & Hl & Hsz & Hdep).
  cbn [EHT.Insert]. rewrite IndexOf_small by lia. ok_step.
  rewrite (vec_at_lookup _ 1 (Some a)) by (done || lia). ok_step.
  rewrite (deref_lookup _ _ _ Hh). ok_step.
  unfold EHT.Bucket_Find, EHT.IsFull. rewrite Hl, Hsz.
  cbn [EHT.list_find_key length]. rewrite decide_False by done.
  rewrite bool_decide_eq_true_2 by done.
  destruct (EHT.split EHT.hash_int t 1) as [t1| | |] eqn:E; [|done..].
  ok_step. apply IH. by eapply stuck_split.
Qed.

Lemma table_034_stuck : EHT.stuck EHT.table_034.
Proof.
  exists 1%nat, (EHT.mkBucket 1 1 [(3, 30)]), 30. simpl.
  repeat split; try done; lia.
Qed.

(** *** [Insert] of a key that is present *)

Lemma list_upsert_same {K V} `{EqDecision K} (key : K) (v : V) l :
  EHT.list_find_key key l = Some v -> EHT.list_upsert key v l = l.
Proof.
  induction l as [|[k w] l IH]; [done|]. simpl. case_decide.
  - by intros [= ->].
  - intros E. by rewrite IH.
Qed.

(** Whatever value is passed, [Insert] of a key that its bucket holds
    leaves the table as it is. *)
Lemma Insert_present_unchanged {K V} `{EqDecision K} (hash : K -> Z)
    (t : EHT.Table K V) key v0 fuel value :
  EHT.Find hash t key = Ok (Some v0) ->
  EHT.Insert hash (S fuel) t key value = Ok t.
Proof.
  unfold EHT.Find. intros H0.
  inv_bind H0 as idx Hidx. inv_bind H0 as p Hp. inv_bind H0 as b Hb.
  injection H0 as Hf. cbn [EHT.Insert]. rewrite Hidx. ok_step. rewrite Hp. ok_step.
  rewrite Hb. ok_step. rewrite Hf.
  unfold EHT.deref in Hb. destruct p as [a|]; [|done].
  destruct (EHT.heap_ t !! a) as [b'|] eqn:Ea; [|done]. injection Hb as ->.
  unfold EHT.store. rewrite bool_decide_eq_true_2 by (by eapply lookup_lt_Some).
  f_equal. unfold EHT.Bucket_Insert. destruct (EHT.IsFull b).
  - cbn [snd]. rewrite list_insert_id by done. by destruct t.
  - cbn [snd]. unfold EHT.Bucket_Find in Hf. rewrite (list_upsert_same _ _ _ Hf).
    replace (EHT.mkBucket _ _ _) with b by (by destruct b).
    rewrite list_insert_id by done. by destruct t.
Qed.

(** C2 (on the code).  After [Insert(1, 10)] on a new table, [Insert(1, 20)]
    returns and leaves the table as it was: [Find(1)] still yields 10. *)
Theorem Insert_existing_key_keeps_old_value :
  EHT.Insert EHT.hash_int 1 (EHT.init 2) 1 10 = Ok EHT.table_1
  /\ EHT.Find EHT.hash_int EHT.table_1 1 = Ok (Some 10)
  /\ EHT.Insert EHT.hash_int 1 EHT.table_1 1 20 = Ok EHT.table_1
  /\ EHT.Find EHT.hash_int EHT.table_1 1 <> Ok (Some 20).
Proof. repeat split; try (vm_compute; reflexivity). vm_compute. discriminate. Qed.

(** C7 (on the code).  On the table reached by inserting 0, 4, 8, 5, 3 with
    buckets of two entries, [Insert(1)] splits the full bucket of key 1
    without doubling the directory: a bucket is allocated and
    [GetNumBuckets] stays at 4.  The later [Insert(9)] splits that bucket
    again and rewires the slot of key 5 to an empty bucket: key 5, found
    before the call, is no longer found after it. *)
Theorem split_in_place_miscounts_and_loses_key :
  EHT.reachable EHT.hash_int EHT.table_04853
  /\ EHT.GetNumBuckets EHT.table_04853 = 4
  /\ length (EHT.heap_ EHT.table_04853) = 4%nat
  /\ EHT.Insert EHT.hash_int 2 EHT.table_04853 1 10 = Ok EHT.table_048531
  /\ EHT.global_depth_ EHT.table_048531 = EHT.global_depth_ EHT.table_04853
  /\ length (EHT.heap_ EHT.table_048531) = 5%nat
  /\ EHT.GetNumBuckets EHT.table_048531 = 4
  /\ EHT.Find EHT.hash_int EHT.table_048531 5 = Ok (Some 50)
  /\ EHT.Insert EHT.hash_int 3 EHT.table_048531 9 90 = Ok EHT.table_0485319
  /\ EHT.Find EHT.hash_int EHT.table_0485319 5 = Ok None.
Proof.
  split; [exact table_04853_reachable|].
  repeat split; vm_compute; reflexivity.
Qed.

(** *** Every split raises the local depth of the full bucket *)

Section EHT_depths.
Context {K V : Type} `{EqDecision K}.
Variable hash : K -> Z.

Lemma Bucket_Insert_depth (key : K) (value : V) b :
  EHT.depth_ (EHT.Bucket_Insert key value b).2 = EHT.depth_ b.
Proof. unfold EHT.Bucket_Insert. by destruct (EHT.IsFull b). Qed.

Lemma Bucket_Remove_depth (key : K) (b : EHT.Bucket K V) :
  EHT.depth_ (EHT.Bucket_Remove key b).2 = EHT.depth_ b.
Proof.
  unfold EHT.Bucket_Remove. by destruct (EHT.list_remove_key key (EHT.list_ b)).
Qed.

Lemma store_depths (t : EHT.Table K V) p b0 b t' :
  EHT.deref t p = Ok b0 -> EHT.depth_ b = EHT.depth_ b0 ->
  EHT.store t p b = Ok t' ->
  EHT.depth_ <$> EHT.heap_ t' = EHT.depth_ <$> EHT.heap_ t.
Proof.
  intros Hd Hdep Hs. apply store_Ok in Hs as (a & -> & Ha & ->).
  unfold EHT.deref in Hd. destruct (EHT.heap_ t !! a) as [b1|] eqn:E; [|done].
  injection Hd as ->. simpl. rewrite list_fmap_insert, Hdep.
  apply list_insert_id. by rewrite list_lookup_fmap, E.
Qed.

Lemma RedistributeBucket_depths (t : EHT.Table K V) bucket t' :
  EHT.RedistributeBucket hash t bucket = Ok t' ->
  EHT.depth_ <$> EHT.heap_ t' = EHT.depth_ <$> EHT.heap_ t.
Proof.
  unfold EHT.RedistributeBucket. intros H0. inv_bind H0 as b Hb.
  apply (foldl_Ok_inv _ (fun t1 : EHT.Table K V =>
           EHT.depth_ <$> EHT.heap_ t1 = EHT.depth_ <$> EHT.heap_ t)) in H0.
  - destruct H0 as (t0 & [= <-] & Himp). by apply Himp.
  - intros acc x a' _ Hs. unfold EHT.redistribute_step in Hs.
    inv_bind Hs as t1 Ht1. exists t1. split; [done|]. intros IH.
    inv_bind Hs as idx Hidx. inv_bind Hs as p Hp. case_decide.
    + by injection Hs as <-.
    + inv_bind Hs as tgt Htgt. inv_bind Hs as t2 Ht2. inv_bind Hs as src Hsrc.
      apply (store_depths _ _ _ _ _ Htgt (Bucket_Insert_depth _ _ _)) in Ht2.
      apply (store_depths _ _ _ _ _ Hsrc (Bucket_Remove_depth _ _)) in Hs.
      congruence.
Qed.

Lemma depths_lookup (h h' : list (EHT.Bucket K V)) a b :
  EHT.depth_ <$> h' = EHT.depth_ <$> h -> h !! a = Some b ->
  exists b', h' !! a = Some b' /\ EHT.depth_ b' = EHT.depth_ b.
Proof.
  intros E Hb. assert (Hl : (EHT.depth_ <$> h') !! a = Some (EHT.depth_ b))
    by (by rewrite E, list_lookup_fmap, Hb).
  rewrite list_lookup_fmap in Hl. destruct (h' !! a) as [b'|]; [|done].
  injection Hl as Hl. eauto.
Qed.

(** The first half of C8: a split raises the local depth of the bucket that
    was full by one (and the global depth as well when it doubles the
    directory). *)
Lemma split_raises_depth (t : EHT.Table K V) idx a b t' :
  EHT.dir_shape t ->
  vec_at (EHT.dir_ t) idx = Ok (Some a) -> EHT.heap_ t !! a = Some b ->
  EHT.split hash t idx = Ok t' ->
  (exists b', EHT.heap_ t' !! a = Some b' /\ EHT.depth_ b' = EHT.depth_ b + 1)
  /\ (EHT.global_depth_ t' = EHT.global_depth_ t + 1
      \/ (EHT.global_depth_ t' = EHT.global_depth_ t
          /\ EHT.depth_ b <> EHT.global_depth_ t)).
Proof.
  intros [Hg Hlen] Hp Hb H0. pose proof Hp as Hp'.
  apply vec_at_Ok in Hp' as [Hi0 Hl]. pose proof (lookup_lt_Some _ _ _ Hl) as Hi.
  unfold EHT.split in H0. inv_bind H0 as ld Hld.
  unfold EHT.GetLocalDepth in Hld. rewrite Hp in Hld. ok_step in Hld.
  rewrite (deref_lookup _ _ _ Hb) in Hld. ok_step in Hld. injection Hld as <-.
  unfold EHT.GetGlobalDepth in H0. case_bool_decide as Hcase.
  - inv_bind H0 as t1 Ht1. inv_bind H0 as t2 Ht2. inv_bind H0 as p Hp2.
    apply DoubleDir_Ok in Ht1 as (_ & Hg1 & Eg1 & _ & Eh1 & tmp & Htmp & Ed1).
    assert (Hd1 : vec_at (EHT.dir_ t1) idx = Ok (Some a)).
    { apply vec_at_Ok. split; [done|].
      rewrite Ed1, list_lookup_insert_ne by lia. rewrite Htmp by lia. done. }
    assert (Hh1 : EHT.heap_ t1 !! a = Some b) by (rewrite Eh1; by apply lookup_app_l_Some).
    unfold EHT.bump_depth in Ht2. rewrite Hd1 in Ht2. ok_step in Ht2.
    rewrite (deref_lookup _ _ _ Hh1) in Ht2. ok_step in Ht2.
    apply store_Ok in Ht2 as (a' & [= <-] & Ha & ->).
    pose proof H0 as Hx.
    apply RedistributeBucket_dir in H0 as (_ & Eg & _).
    split; [|left; simpl in Eg; lia].
    apply RedistributeBucket_depths in Hx.
    apply (depths_lookup _ _ a (EHT.IncrementDepth b)) in Hx; [done|].
    simpl. by apply list_lookup_insert_eq.
  - inv_bind H0 as t1 Ht1. cbn zeta in H0. unfold EHT.alloc in H0.
    cbn [fst snd] in H0. inv_bind H0 as tmp Htmp.
    unfold EHT.bump_depth in Ht1. rewrite Hp in Ht1. ok_step in Ht1.
    rewrite (deref_lookup _ _ _ Hb) in Ht1. ok_step in Ht1.
    apply store_Ok in Ht1 as (a' & [= <-] & Ha & ->).
    assert (Hfin : forall d p, EHT.RedistributeBucket hash
              (EHT.set_dir (EHT.set_heap
                 (EHT.set_heap t (<[a:=EHT.IncrementDepth b]> (EHT.heap_ t)))
                 (<[a:=EHT.IncrementDepth b]> (EHT.heap_ t)
                  ++ [EHT.mkBucket (EHT.bucket_size_ t) (EHT.global_depth_ t) []])) d) p
              = Ok t' ->
            (exists b', EHT.heap_ t' !! a = Some b'
               /\ EHT.depth_ b' = EHT.depth_ b + 1)
            /\ EHT.global_depth_ t' = EHT.global_depth_ t).
    { intros d p Hr. pose proof Hr as Hr'. split.
      - apply RedistributeBucket_depths in Hr'.
        apply (depths_lookup _ _ a (EHT.IncrementDepth b)) in Hr'; [done|].
        simpl. apply lookup_app_l_Some. by apply list_lookup_insert_eq.
      - by apply RedistributeBucket_dir in Hr as (_ & Eg & _). }
    case_bool_decide; inv_bind H0 as d Hd; inv_bind H0 as p Hp2;
      apply Hfin in H0 as [Hb' Eg]; (split; [done|right; split; [done|congruence]]).
Qed.

(** Only [DoubleDir] counts the bucket it allocates: a split that doubles
    the directory adds one to [num_buckets_], a split in place leaves it. *)
Lemma split_num_buckets (t : EHT.Table K V) idx ld t' :
  EHT.GetLocalDepth t idx = Ok ld ->
  EHT.split hash t idx = Ok t' ->
  EHT.num_buckets_ t' =
    if bool_decide (EHT.global_depth_ t = ld)
    then EHT.num_buckets_ t + 1 else EHT.num_buckets_ t.
Proof.
  intros Hld H0. unfold EHT.split in H0. rewrite Hld in H0. ok_step in H0.
  unfold EHT.GetGlobalDepth in H0. case_bool_decide.
  - inv_bind H0 as t1 Ht1. inv_bind H0 as t2 Ht2. inv_bind H0 as p Hp.
    apply DoubleDir_shape in Ht1 as (_ & _ & E1).
    apply bump_depth_dir in Ht2 as (_ & _ & E2).
    apply RedistributeBucket_dir in H0 as (_ & _ & E3). congruence.
  - inv_bind H0 as t1 Ht1. cbn zeta in H0. unfold EHT.alloc in H0.
    cbn [fst snd] in H0. inv_bind H0 as tmp Htmp.
    apply bump_depth_dir in Ht1 as (_ & _ & E1).
    case_bool_decide; inv_bind H0 as d Hd; inv_bind H0 as p Hp;
      apply RedistributeBucket_dir in H0 as (_ & _ & E3); simpl in E3; congruence.
Qed.

End EHT_depths.

(** *** [Insert] of a key that no bucket holds *)

Section EHT_insert_new.
Context {K V : Type} `{EqDecision K}.
Variable hash : K -> Z.

Lemma find_upsert (key : K) (value : V) l :
  EHT.list_find_key key (EHT.list_upsert key value l) = Some value.
Proof.
  induction l as [|[k w] l IH]; simpl.
  - by rewrite decide_True.
  - case_decide; simpl; [by rewrite decide_True|by rewrite decide_False].
Qed.

Lemma find_upsert_ne (key k' : K) (value : V) l :
  k' <> key ->
  EHT.list_find_key key (EHT.list_upsert k' value l) = EHT.list_find_key key l.
Proof.
  intros Hne. induction l as [|[k w] l IH]; simpl.
  - by rewrite decide_False.
  - destruct (decide (k = k')) as [->|Hk]; simpl.
    + by rewrite !decide_False.
    + case_decide; [done|exact IH].
Qed.

Lemma find_remove_None (key k' : K) (l : list (K * V)) :
  EHT.list_find_key key l = None ->
  EHT.list_find_key key (EHT.list_remove_key k' l).2 = None.
Proof.
  induction l as [|[k w] l IH]; [done|]. simpl.
  destruct (decide (k = key)) as [->|Hk]; [done|]. intros Hl.
  destruct (decide (k = k')) as [->|Hk']; [done|].
  specialize (IH Hl). destruct (EHT.list_remove_key k' l) as [r l'].
  simpl in *. by rewrite decide_False.
Qed.

Lemma find_None_not_in (key k' : K) (v' : V) l :
  EHT.list_find_key key l = None -> (k', v') ∈ l -> k' <> key.
Proof.
  induction l as [|[k w] l IH]; intros Hf Hin; [by apply elem_of_nil in Hin|].
  simpl in Hf. destruct (decide (k = key)) as [->|Hk]; [done|].
  apply elem_of_cons in Hin as [[= -> ->]|Hin]; [done|]. by apply IH.
Qed.

Lemma Bucket_Remove_absent (key k' : K) (b : EHT.Bucket K V) :
  EHT.Bucket_Find key b = None ->
  EHT.Bucket_Find key (EHT.Bucket_Remove k' b).2 = None.
Proof.
  unfold EHT.Bucket_Find, EHT.Bucket_Remove. intros Hf.
  pose proof (find_remove_None key k' _ Hf) as Hr.
  by destruct (EHT.list_remove_key k' (EHT.list_ b)).
Qed.

Lemma Bucket_Insert_absent (key k' : K) (v' : V) (b : EHT.Bucket K V) :
  k' <> key -> EHT.Bucket_Find key b = None ->
  EHT.Bucket_Find key (EHT.Bucket_Insert k' v' b).2 = None.
Proof.
  unfold EHT.Bucket_Find, EHT.Bucket_Insert. intros Hne Hf.
  destruct (EHT.IsFull b); [done|]. simpl. by rewrite find_upsert_ne.
Qed.

Lemma store_absent (key : K) (t : EHT.Table K V) p b t' :
  EHT.key_absent key t -> EHT.Bucket_Find key b = None ->
  EHT.store t p b = Ok t' -> EHT.key_absent key t'.
Proof.
  intros Habs Hb Hs. apply store_Ok in Hs as (a & -> & Ha & ->).
  intros a' b' Hl. simpl in Hl.
  apply list_lookup_insert_Some in Hl as [(-> & <- & _)|[_ Hl]]; [done|].
  by eapply Habs.
Qed.

Lemma deref_absent (key : K) (t : EHT.Table K V) p b :
  EHT.key_absent key t -> EHT.deref t p = Ok b -> EHT.Bucket_Find key b = None.
Proof.
  intros Habs Hd. unfold EHT.deref in Hd. destruct p as [a|]; [|done].
  destruct (EHT.heap_ t !! a) as [b'|] eqn:E; [|done]. injection Hd as <-.
  by eapply Habs.
Qed.

Lemma RedistributeBucket_absent (key : K) (t : EHT.Table K V) bucket t' :
  EHT.key_absent key t ->
  EHT.RedistributeBucket hash t bucket = Ok t' -> EHT.key_absent key t'.
Proof.
  intros Habs. unfold EHT.RedistributeBucket. intros H0. inv_bind H0 as b Hb.
  pose proof (deref_absent _ _ _ _ Habs Hb) as Hfb.
  apply (foldl_Ok_inv _ (EHT.key_absent key)) in H0.
  - destruct H0 as (t0 & [= <-] & Himp). by apply Himp.
  - intros acc [k' v'] a' Hin Hs. unfold EHT.redistribute_step in Hs.
    inv_bind Hs as t1 Ht1. exists t1. split; [done|]. intros IH.
    inv_bind Hs as idx Hidx. inv_bind Hs as p Hp. case_decide.
    + by injection Hs as <-.
    + inv_bind Hs as tgt Htgt. inv_bind Hs as t2 Ht2. inv_bind Hs as src Hsrc.
      pose proof (find_None_not_in _ _ _ _ Hfb Hin) as Hne.
      assert (Habs2 : EHT.key_absent key t2).
      { eapply store_absent; [exact IH| |exact Ht2].
        apply Bucket_Insert_absent; [done|]. by eapply deref_absent. }
      eapply store_absent; [exact Habs2| |exact Hs].
      apply Bucket_Remove_absent. by eapply deref_absent.
Qed.

Lemma append_absent (key : K) (t : EHT.Table K V) depth :
  EHT.key_absent key t ->
  EHT.key_absent key
    (EHT.set_heap t (EHT.heap_ t ++ [EHT.mkBucket (EHT.bucket_size_ t) depth []])).
Proof.
  intros Habs a b Hl. simpl in Hl. apply lookup_app_Some in Hl as [Hl|[_ Hl]].
  - by eapply Habs.
  - apply list_lookup_singleton_Some in Hl as [_ <-]. done.
Qed.

Lemma bump_depth_absent (key : K) (t : EHT.Table K V) idx t' :
  EHT.key_absent key t -> EHT.bump_depth t idx = Ok t' -> EHT.key_absent key t'.
Proof.
  intros Habs. unfold EHT.bump_depth. intros H0.
  inv_bind H0 as p Hp. inv_bind H0 as b Hb.
  eapply store_absent; [exact Habs| |exact H0].
  exact (deref_absent _ _ _ _ Habs Hb).
Qed.

Lemma split_absent (key : K) (t : EHT.Table K V) idx t' :
  EHT.key_absent key t -> EHT.split hash t idx = Ok t' -> EHT.key_absent key t'.
Proof.
  intros Habs. unfold EHT.split. intros H0. inv_bind H0 as ld Hld.
  case_bool_decide.
  - inv_bind H0 as t1 Ht1. inv_bind H0 as t2 Ht2. inv_bind H0 as p Hp.
    apply DoubleDir_Ok in Ht1 as (_ & _ & _ & _ & Eh1 & _).
    assert (Habs1 : EHT.key_absent key t1).
    { intros a b Hl. rewrite Eh1 in Hl.
      by apply (append_absent key t (EHT.global_depth_ t + 1) Habs a b). }
    eapply RedistributeBucket_absent; [|exact H0].
    by eapply bump_depth_absent.
  - inv_bind H0 as t1 Ht1. cbn zeta in H0. unfold EHT.alloc in H0.
    cbn [fst snd] in H0. inv_bind H0 as tmp Htmp.
    pose proof (bump_depth_absent _ _ _ _ Habs Ht1) as Habs1.
    pose proof (append_absent key t1 (EHT.global_depth_ t1) Habs1) as Habs2.
    case_bool_decide; inv_bind H0 as d Hd; inv_bind H0 as p Hp;
      (eapply RedistributeBucket_absent; [|exact H0]); exact Habs2.
Qed.

Lemma Remove_absent (key k' : K) (t : EHT.Table K V) r t' :
  EHT.key_absent key t -> EHT.Remove hash t k' = Ok (r, t') -> EHT.key_absent key t'.
Proof.
  intros Habs. unfold EHT.Remove. intros H0.
  inv_bind H0 as idx Hidx. inv_bind H0 as p Hp. inv_bind H0 as b Hb.
  pose proof (Bucket_Remove_absent key k' b (deref_absent _ _ _ _ Habs Hb)) as Hr.
  destruct (EHT.Bucket_Remove k' b) as [r0 b'].
  inv_bind H0 as t1 Ht1. injection H0 as _ <-.
  by eapply store_absent.
Qed.

(** A key that no bucket holds is found with the inserted value once
    [Insert] has returned. *)
Lemma Insert_absent_Find fuel : forall (t : EHT.Table K V) key value t',
  EHT.key_absent key t ->
  EHT.Insert hash fuel t key value = Ok t' ->
  EHT.Find hash t' key = Ok (Some value).
Proof.
  induction fuel as [|fuel IH]; intros t key value t' Habs H0; [done|].
  cbn [EHT.Insert] in H0.
  inv_bind H0 as idx Hidx. inv_bind H0 as p Hp. inv_bind H0 as b Hb.
  rewrite (deref_absent _ _ _ _ Habs Hb) in H0.
  destruct (EHT.IsFull b) eqn:Hfull.
  - inv_bind H0 as t1 Ht1. eapply IH; [|exact H0]. by eapply split_absent.
  - apply store_Ok in H0 as (a & -> & Ha & ->).
    unfold EHT.Find, EHT.IndexOf, EHT.deref, EHT.set_heap in *.
    cbn [EHT.global_depth_ EHT.dir_ EHT.heap_].
    rewrite Hidx. ok_step. rewrite Hp. ok_step.
    rewrite list_lookup_insert_eq by done.
    ok_step. unfold EHT.Bucket_Insert. rewrite Hfull. cbn [snd].
    unfold EHT.Bucket_Find. cbn [EHT.list_]. by rewrite find_upsert.
Qed.

End EHT_insert_new.

(** *** Directory slots always hold buckets *)

Section EHT_pointers.
Context {K V : Type} `{EqDecision K}.
Variable hash : K -> Z.

Lemma copy_loop_lookup_hi dir half m : forall tmp0 (tmp : list (option nat)) (i : nat),
  foldl (EHT.copy_step dir half) (Ok tmp0) (seq 0 m) = Ok tmp ->
  (i < m)%nat -> Z.of_nat m <= half ->
  tmp !! Z.to_nat (Z.of_nat i + half) = dir !! i.
Proof.
  induction m as [|m IH]; intros tmp0 tmp i H0 Hi Hm; [lia|].
  rewrite seq_S, foldl_app in H0. simpl in H0.
  unfold EHT.copy_step in H0 at 1.
  inv_bind H0 as tmp1 Htmp1. inv_bind H0 as p Hp. inv_bind H0 as tmp2 Htmp2.
  apply vec_at_Ok in Hp as [_ Hp]. rewrite Nat2Z.id in Hp.
  apply vec_set_Ok in Htmp2 as [Hb2 ->]. apply vec_set_Ok in H0 as [Hb ->].
  rewrite length_insert in Hb. rewrite Nat2Z.id in *.
  destruct (decide (i = m)) as [->|Hne].
  - rewrite list_lookup_insert_eq by (rewrite length_insert; lia). done.
  - rewrite !list_lookup_insert_ne by lia. eapply IH; eauto; lia.
Qed.

Lemma store_ptrs (t : EHT.Table K V) p b t' :
  EHT.ptrs_ok t -> EHT.store t p b = Ok t' -> EHT.ptrs_ok t'.
Proof.
  intros Hok Hs. apply store_Ok in Hs as (a & -> & Ha & ->).
  intros i p Hi. simpl in *. rewrite length_insert. by apply (Hok i).
Qed.

Lemma RedistributeBucket_ptrs (t : EHT.Table K V) bucket t' :
  EHT.ptrs_ok t -> EHT.RedistributeBucket hash t bucket = Ok t' -> EHT.ptrs_ok t'.
Proof.
  intros Hok. unfold EHT.RedistributeBucket. intros H0. inv_bind H0 as b Hb.
  apply (foldl_Ok_inv _ EHT.ptrs_ok) in H0.
  - destruct H0 as (t0 & [= <-] & Himp). by apply Himp.
  - intros acc x a' _ Hs. unfold EHT.redistribute_step in Hs.
    inv_bind Hs as t1 Ht1. exists t1. split; [done|]. intros IH.
    inv_bind Hs as idx Hidx. inv_bind Hs as p Hp. case_decide.
    + by injection Hs as <-.
    + inv_bind Hs as tgt Htgt. inv_bind Hs as t2 Ht2. inv_bind Hs as src Hsrc.
      eapply store_ptrs; [|exact Hs]. by eapply store_ptrs.
Qed.

Lemma DoubleDir_ptrs (t : EHT.Table K V) idx t' :
  EHT.ptrs_ok t -> EHT.DoubleDir t idx = Ok t' -> EHT.ptrs_ok t'.
Proof.
  intros Hok. unfold EHT.DoubleDir. intros H0.
  inv_bind H0 as n Hn. inv_bind H0 as half Hhalf. inv_bind H0 as tmp Htmp.
  simpl in H0. inv_bind H0 as d Hd. injection H0 as <-.
  apply shl1_Ok in Hn as [Hg ->]. apply shl1_Ok in Hhalf as [Hg' ->].
  apply vec_set_Ok in Hd as [Hb ->].
  pose proof (copy_loop_length _ _ _ _ _ Htmp) as Hlen.
  rewrite length_replicate in Hlen.
  assert (Hpow : 2 ^ (EHT.global_depth_ t + 1) = 2 * 2 ^ EHT.global_depth_ t)
    by (rewrite Z.pow_add_r by lia; lia).
  assert (Hpos : 0 < 2 ^ EHT.global_depth_ t) by (apply Z.pow_pos_nonneg; lia).
  intros j p Hj. simpl in *. rewrite length_app. simpl.
  apply list_lookup_insert_Some in Hj as [(_ & <- & _)|[_ Hj]].
  { eexists. split; [done|lia]. }
  pose proof (lookup_lt_Some _ _ _ Hj) as Hjlt.
  assert (Hold : exists i, EHT.dir_ t !! i = Some p).
  { destruct (decide (Z.of_nat j < 2 ^ EHT.global_depth_ t)) as [Hlo|Hhi].
    - exists j. rewrite <-Hj. symmetry.
      eapply copy_loop_lookup; [exact Htmp| |]; lia.
    - exists (j - Z.to_nat (2 ^ EHT.global_depth_ t))%nat.
      pose proof (copy_loop_lookup_hi _ _ _ _ _
                    (j - Z.to_nat (2 ^ EHT.global_depth_ t))%nat Htmp) as Hup.
      replace (Z.to_nat (Z.of_nat (j - Z.to_nat (2 ^ EHT.global_depth_ t))
                         + 2 ^ EHT.global_depth_ t)) with j in Hup by lia.
      rewrite <-Hup, Hj by lia. done. }
  destruct Hold as [i Hi]. destruct (Hok i p Hi) as (a & -> & Ha).
  exists a. split; [done|lia].
Qed.

Lemma bump_depth_ptrs (t : EHT.Table K V) idx t' :
  EHT.ptrs_ok t -> EHT.bump_depth t idx = Ok t' -> EHT.ptrs_ok t'.
Proof.
  intros Hok. unfold EHT.bump_depth. intros H0.
  inv_bind H0 as p Hp. inv_bind H0 as b Hb. by eapply store_ptrs.
Qed.

Lemma split_ptrs (t : EHT.Table K V) idx t' :
  EHT.ptrs_ok t -> EHT.split hash t idx = Ok t' -> EHT.ptrs_ok t'.
Proof.
  intros Hok. unfold EHT.split. intros H0. inv_bind H0 as ld Hld.
  case_bool_decide.
  - inv_bind H0 as t1 Ht1. inv_bind H0 as t2 Ht2. inv_bind H0 as p Hp.
    eapply RedistributeBucket_ptrs; [|exact H0].
    eapply bump_depth_ptrs; [|exact Ht2]. by eapply DoubleDir_ptrs.
  - inv_bind H0 as t1 Ht1. cbn zeta in H0. unfold EHT.alloc in H0.
    cbn [fst snd] in H0. inv_bind H0 as tmp Htmp.
    pose proof (bump_depth_ptrs _ _ _ Hok Ht1) as Hok1.
    assert (Hnew : forall d i,
              vec_set (EHT.dir_ t1) i (Some (length (EHT.heap_ t1))) = Ok d ->
              EHT.ptrs_ok (EHT.set_dir (EHT.set_heap t1
                (EHT.heap_ t1 ++ [EHT.mkBucket (EHT.bucket_size_ t1)
                                    (EHT.global_depth_ t1) []])) d)).
    { intros d i Hd. apply vec_set_Ok in Hd as [_ ->].
      intros j p Hj. simpl in *. rewrite length_app. simpl.
      apply list_lookup_insert_Some in Hj as [(_ & <- & _)|[_ Hj]].
      - eexists. split; [done|lia].
      - destruct (Hok1 j p Hj) as (a & -> & Ha). exists a. split; [done|lia]. }
    case_bool_decide; inv_bind H0 as d Hd; inv_bind H0 as p Hp;
      (eapply RedistributeBucket_ptrs; [|exact H0]); by eapply Hnew.
Qed.

Lemma Insert_ptrs fuel : forall (t : EHT.Table K V) key value t',
  EHT.ptrs_ok t -> EHT.Insert hash fuel t key value = Ok t' -> EHT.ptrs_ok t'.
Proof.
  induction fuel as [|fuel IH]; intros t key value t' Hok H0; [done|].
  cbn [EHT.Insert] in H0.
  inv_bind H0 as idx Hidx. inv_bind H0 as p Hp. inv_bind H0 as b Hb.
  destruct (EHT.Bucket_Find key b) as [tmp|].
  - by eapply store_ptrs.
  - destruct (EHT.IsFull b).
    + inv_bind H0 as t1 Ht1. eapply IH; [|exact H0]. by eapply split_ptrs.
    + by eapply store_ptrs.
Qed.

Lemma Remove_ptrs (t : EHT.Table K V) key r t' :
  EHT.ptrs_ok t -> EHT.Remove hash t key = Ok (r, t') -> EHT.ptrs_ok t'.
Proof.
  intros Hok. unfold EHT.Remove. intros H0.
  inv_bind H0 as idx Hidx. inv_bind H0 as p Hp. inv_bind H0 as b Hb.
  destruct (EHT.Bucket_Remove key b) as [r0 b'].
  inv_bind H0 as t1 Ht1. injection H0 as _ <-. by eapply store_ptrs.
Qed.

Lemma reachable_ptrs (t : EHT.Table K V) : EHT.reachable hash t -> EHT.ptrs_ok t.
Proof.
  induction 1 as [bs | fuel t key value t' _ IH Hi | t key r t' _ IH Hr
                 | t key idx p b t' _ IH _ _ _ _ _ Hs].
  - intros i p Hi. apply list_lookup_singleton_Some in Hi as [_ <-].
    exists 0%nat. split; [done|]. simpl. lia.
  - by eapply Insert_ptrs.
  - by eapply Remove_ptrs.
  - by eapply split_ptrs.
Qed.

End EHT_pointers.

(** *** No access outside the directory or the store *)

Section EHT_safety.
Context {K V : Type} `{EqDecision K}.
Variable hash : K -> Z.

Lemma vec_set_returns {A} (v : list A) i a :
  0 <= i < Z.of_nat (length v) -> vec_set v i a = Ok (<[Z.to_nat i := a]> v).
Proof. intros Hi. unfold vec_set. by rewrite bool_decide_eq_true_2. Qed.

Lemma store_returns (t : EHT.Table K V) a b :
  (a < length (EHT.heap_ t))%nat ->
  EHT.store t (Some a) b = Ok (EHT.set_heap t (<[a := b]> (EHT.heap_ t))).
Proof. intros Ha. unfold EHT.store. by rewrite bool_decide_eq_true_2. Qed.

Lemma deref_returns (t : EHT.Table K V) a :
  (a < length (EHT.heap_ t))%nat -> exists b, EHT.deref t (Some a) = Ok b
    /\ EHT.heap_ t !! a = Some b.
Proof.
  intros Ha. destruct (lookup_lt_is_Some_2 _ _ Ha) as [b Hb].
  exists b. split; [by apply deref_lookup|done].
Qed.

(** Reading [dir_[idx]] for an index within a well-shaped directory. *)
Lemma dir_at_returns (t : EHT.Table K V) idx :
  EHT.dir_shape t -> EHT.ptrs_ok t -> 0 <= idx < 2 ^ EHT.global_depth_ t ->
  exists a, vec_at (EHT.dir_ t) idx = Ok (Some a)
    /\ EHT.dir_ t !! Z.to_nat idx = Some (Some a)
    /\ (a < length (EHT.heap_ t))%nat.
Proof.
  intros [Hg Hlen] Hptr Hi.
  destruct (vec_at_in_bounds (EHT.dir_ t) idx) as [p Hp]; [lia|].
  pose proof Hp as Hp'. apply vec_at_Ok in Hp' as [_ Hl].
  destruct (Hptr _ _ Hl) as (a & -> & Ha). eauto.
Qed.

Lemma IndexOf_returns (t : EHT.Table K V) key :
  EHT.dir_shape t ->
  exists idx, EHT.IndexOf hash t key = Ok idx /\ 0 <= idx < 2 ^ EHT.global_depth_ t.
Proof.
  intros [Hg Hlen]. eexists. split.
  - unfold EHT.IndexOf. rewrite shl1_pow by done. reflexivity.
  - apply land_mask_bounds. lia.
Qed.

Lemma shape_ptrs_ext (t t1 : EHT.Table K V) :
  EHT.dir_ t1 = EHT.dir_ t -> EHT.global_depth_ t1 = EHT.global_depth_ t ->
  length (EHT.heap_ t1) = length (EHT.heap_ t) ->
  EHT.dir_shape t -> EHT.ptrs_ok t -> EHT.dir_shape t1 /\ EHT.ptrs_ok t1.
Proof.
  intros Ed Eg El Hs Hp. split.
  - unfold EHT.dir_shape. by rewrite Ed, Eg.
  - intros i p Hi. rewrite Ed in Hi. rewrite El. by apply (Hp i).
Qed.

Lemma redistribute_step_returns (t : EHT.Table K V) bucket (it : K * V) :
  EHT.dir_shape t -> EHT.ptrs_ok t -> (bucket < length (EHT.heap_ t))%nat ->
  exists t1, EHT.redistribute_step hash (Some bucket) (Ok t) it = Ok t1
    /\ EHT.dir_ t1 = EHT.dir_ t /\ EHT.global_depth_ t1 = EHT.global_depth_ t
    /\ length (EHT.heap_ t1) = length (EHT.heap_ t).
Proof.
  intros Hs Hp Hb. unfold EHT.redistribute_step. ok_step.
  destruct (IndexOf_returns t it.1 Hs) as (idx & -> & Hidx). ok_step.
  destruct (dir_at_returns t idx Hs Hp Hidx) as (a & -> & _ & Ha). ok_step.
  case_decide; [by exists t|].
  destruct (deref_returns t a Ha) as (tgt & -> & _). ok_step.
  rewrite store_returns by done. ok_step.
  destruct (deref_returns (EHT.set_heap t
              (<[a:=(EHT.Bucket_Insert it.1 it.2 tgt).2]> (EHT.heap_ t))) bucket)
    as (src & -> & _); [simpl; by rewrite length_insert|].
  ok_step. rewrite store_returns by (simpl; by rewrite length_insert).
  eexists. split; [done|]. simpl. by rewrite !length_insert.
Qed.

Lemma redistribute_fold_returns bucket l : forall t : EHT.Table K V,
  EHT.dir_shape t -> EHT.ptrs_ok t -> (bucket < length (EHT.heap_ t))%nat ->
  exists t', foldl (EHT.redistribute_step hash (Some bucket)) (Ok t) l = Ok t'.
Proof.
  induction l as [|it l IH]; intros t Hs Hp Hb; [by exists t|].
  cbn [foldl].
  destruct (redistribute_step_returns t bucket it Hs Hp Hb)
    as (t1 & -> & Ed & Eg & El).
  destruct (shape_ptrs_ext t t1 Ed Eg El Hs Hp) as [Hs1 Hp1].
  apply IH; [done|done|lia].
Qed.

Lemma RedistributeBucket_returns (t : EHT.Table K V) bucket :
  EHT.dir_shape t -> EHT.ptrs_ok t -> (bucket < length (EHT.heap_ t))%nat ->
  returns (EHT.RedistributeBucket hash t (Some bucket)).
Proof.
  intros Hs Hp Hb. unfold EHT.RedistributeBucket.
  destruct (deref_returns t bucket Hb) as (b & -> & _). ok_step.
  by apply redistribute_fold_returns.
Qed.

Lemma copy_loop_returns (dir : list (option nat)) half m : forall tmp0,
  (m <= length dir)%nat -> 0 <= half ->
  Z.of_nat m + half <= Z.of_nat (length tmp0) ->
  returns (foldl (EHT.copy_step dir half) (Ok tmp0) (seq 0 m)).
Proof.
  induction m as [|m IH]; intros tmp0 Hm Hh Hl; [by exists tmp0|].
  rewrite seq_S, foldl_app, Nat.add_0_l. cbn [foldl].
  destruct (IH tmp0) as [tmp1 Htmp1]; [lia..|].
  pose proof (copy_loop_length _ _ _ _ _ Htmp1) as Hlen.
  rewrite Htmp1. unfold EHT.copy_step. ok_step.
  destruct (vec_at_in_bounds dir (Z.of_nat m)) as [p ->]; [lia|]. ok_step.
  rewrite vec_set_returns by lia. ok_step.
  rewrite vec_set_returns by (rewrite length_insert; lia). by eexists.
Qed.

Lemma DoubleDir_no_fault (t : EHT.Table K V) idx :
  EHT.dir_shape t -> 0 <= idx < 2 ^ EHT.global_depth_ t ->
  returns (EHT.DoubleDir t idx) \/ EHT.DoubleDir t idx = Overflow.
Proof.
  intros [Hg Hlen] Hidx. unfold EHT.DoubleDir.
  destruct (decide (EHT.global_depth_ t + 1 <= 30)) as [Hle|Hgt].
  - left. rewrite !shl1_pow by lia. ok_step.
    assert (Hpow : 2 ^ (EHT.global_depth_ t + 1) = 2 * 2 ^ EHT.global_depth_ t)
      by (rewrite Z.pow_add_r by lia; lia).
    assert (Hpos : 0 < 2 ^ EHT.global_depth_ t) by (apply Z.pow_pos_nonneg; lia).
    destruct (copy_loop_returns (EHT.dir_ t) (2 ^ EHT.global_depth_ t)
                (Z.to_nat (2 ^ EHT.global_depth_ t))
                (replicate (Z.to_nat (2 ^ (EHT.global_depth_ t + 1))) None))
      as [tmp Htmp]; [lia|lia|rewrite length_replicate; lia|].
    rewrite Htmp. ok_step. cbn [EHT.alloc EHT.set_dir EHT.set_heap EHT.dir_
      EHT.heap_ EHT.global_depth_ EHT.bucket_size_ EHT.num_buckets_].
    apply copy_loop_length in Htmp. rewrite length_replicate in Htmp.
    rewrite vec_set_returns by lia. by eexists.
  - right. unfold shl1.
    by rewrite (bool_decide_eq_false_2 (0 <= EHT.global_depth_ t + 1 <= 30)) by lia.
Qed.

(** Local depths stay between 0 and the global depth. *)
Lemma depths_ok_ext (t t1 : EHT.Table K V) :
  EHT.depth_ <$> EHT.heap_ t1 = EHT.depth_ <$> EHT.heap_ t ->
  EHT.global_depth_ t1 = EHT.global_depth_ t ->
  EHT.depths_ok t -> EHT.depths_ok t1.
Proof. unfold EHT.depths_ok. by intros -> ->. Qed.

Lemma store_depths_ok (t : EHT.Table K V) p b0 b t' :
  EHT.deref t p = Ok b0 -> EHT.depth_ b = EHT.depth_ b0 ->
  EHT.store t p b = Ok t' -> EHT.depths_ok t -> EHT.depths_ok t'.
Proof.
  intros Hd Hdep Hs. apply depths_ok_ext.
  - by eapply store_depths.
  - by apply store_dir in Hs as (_ & ? & _).
Qed.

Lemma depths_ok_lookup (t : EHT.Table K V) a b :
  EHT.depths_ok t -> EHT.heap_ t !! a = Some b ->
  0 <= EHT.depth_ b <= EHT.global_depth_ t.
Proof.
  intros Hok Hb. unfold EHT.depths_ok in Hok. rewrite Forall_lookup in Hok.
  apply (Hok a). by rewrite list_lookup_fmap, Hb.
Qed.

Lemma split_depths_ok (t : EHT.Table K V) idx t' :
  EHT.dir_shape t -> 0 <= idx < 2 ^ EHT.global_depth_ t ->
  EHT.depths_ok t -> EHT.split hash t idx = Ok t' -> EHT.depths_ok t'.
Proof.
  intros [Hg Hlen] Hidx Hok H0. unfold EHT.split in H0. inv_bind H0 as ld Hld.
  unfold EHT.GetLocalDepth in Hld. inv_bind Hld as p Hp. inv_bind Hld as b Hb.
  injection Hld as <-. unfold EHT.deref in Hb. destruct p as [a|]; [|done].
  destruct (EHT.heap_ t !! a) as [b'|] eqn:Ea; [|done]. injection Hb as ->.
  pose proof (depths_ok_lookup _ _ _ Hok Ea) as Hld.
  unfold EHT.GetGlobalDepth in H0. case_bool_decide as Hcase.
  - inv_bind H0 as t1 Ht1. inv_bind H0 as t2 Ht2. inv_bind H0 as p2 Hp2.
    apply DoubleDir_Ok in Ht1 as (_ & Hg1 & Eg1 & _ & Eh1 & tmp & Htmp & Ed1).
    assert (Hd1 : vec_at (EHT.dir_ t1) idx = Ok (Some a)).
    { apply vec_at_Ok. apply vec_at_Ok in Hp as [? Hl]. split; [done|].
      rewrite Ed1, list_lookup_insert_ne by lia. rewrite Htmp by lia. done. }
    assert (Hh1 : EHT.heap_ t1 !! a = Some b) by (rewrite Eh1; by apply lookup_app_l_Some).
    unfold EHT.bump_depth in Ht2. rewrite Hd1 in Ht2. ok_step in Ht2.
    rewrite (deref_lookup _ _ _ Hh1) in Ht2. ok_step in Ht2.
    apply store_Ok in Ht2 as (a' & [= <-] & Ha & ->).
    pose proof (RedistributeBucket_depths _ _ _ _ H0) as Edep.
    apply RedistributeBucket_dir in H0 as (_ & Eg & _).
    apply (depths_ok_ext _ _ Edep Eg). unfold EHT.depths_ok. simpl.
    rewrite list_fmap_insert, Eh1, fmap_app, Eg1. simpl.
    apply Forall_insert; [|lia]. apply Forall_app. split.
    + eapply Forall_impl; [exact Hok|]. simpl. intros; lia.
    + apply Forall_singleton. lia.
  - inv_bind H0 as t1 Ht1. cbn zeta in H0. unfold EHT.alloc in H0.
    cbn [fst snd] in H0. inv_bind H0 as tmp Htmp.
    unfold EHT.bump_depth in Ht1. rewrite Hp in Ht1. ok_step in Ht1.
    rewrite (deref_lookup _ _ _ Ea) in Ht1. ok_step in Ht1.
    apply store_Ok in Ht1 as (a' & [= <-] & Ha & ->).
    assert (Hfin : forall d p',
              EHT.RedistributeBucket hash
                (EHT.set_dir (EHT.set_heap
                   (EHT.set_heap t (<[a:=EHT.IncrementDepth b]> (EHT.heap_ t)))
                   (<[a:=EHT.IncrementDepth b]> (EHT.heap_ t)
                    ++ [EHT.mkBucket (EHT.bucket_size_ t) (EHT.global_depth_ t) []])) d) p'
              = Ok t' -> EHT.depths_ok t').
    { intros d p' Hr. pose proof (RedistributeBucket_depths _ _ _ _ Hr) as Edep.
      apply RedistributeBucket_dir in Hr as (_ & Eg & _).
      apply (depths_ok_ext _ _ Edep Eg). unfold EHT.depths_ok. simpl.
      rewrite fmap_app, list_fmap_insert. simpl.
      apply Forall_app. split.
      - apply Forall_insert; [exact Hok|lia].
      - apply Forall_singleton. lia. }
    case_bool_decide; inv_bind H0 as d Hd; inv_bind H0 as p' Hp'; by eapply Hfin.
Qed.

(** A split does not touch memory it does not own: it returns or stops at
    the overflow of [1 << (global_depth_ + 1)]. *)
Lemma split_no_fault (t : EHT.Table K V) idx :
  EHT.dir_shape t -> EHT.ptrs_ok t -> EHT.depths_ok t ->
  0 <= idx < 2 ^ EHT.global_depth_ t ->
  returns (EHT.split hash t idx) \/ EHT.split hash t idx = Overflow.
Proof.
  intros Hs Hp Hd Hidx. pose proof Hs as [Hg Hlen].
  destruct (dir_at_returns t idx Hs Hp Hidx) as (a & Hat & Hl & Ha).
  destruct (deref_returns t a Ha) as (b & Hb & Hhb).
  pose proof (depths_ok_lookup _ _ _ Hd Hhb) as Hld.
  unfold EHT.split, EHT.GetLocalDepth. rewrite Hat. ok_step. rewrite Hb. ok_step.
  unfold EHT.GetGlobalDepth. case_bool_decide as Hcase.
  - destruct (DoubleDir_no_fault t idx Hs Hidx) as [[t1 Ht1]|Hov];
      [|right; by rewrite Hov].
    left. rewrite Ht1. ok_step.
    pose proof (DoubleDir_ptrs _ _ _ Hp Ht1) as Hp1.
    pose proof (DoubleDir_shape _ _ _ Ht1) as (Eg1 & Hs1 & _).
    assert (Hidx1 : 0 <= idx < 2 ^ EHT.global_depth_ t1).
    { rewrite Eg1, Z.pow_add_r by lia. lia. }
    destruct (dir_at_returns t1 idx Hs1 Hp1 Hidx1) as (a1 & Hat1 & Hl1 & Ha1).
    destruct (deref_returns t1 a1 Ha1) as (b1 & Hb1 & _).
    unfold EHT.bump_depth. rewrite Hat1. ok_step. rewrite Hb1. ok_step.
    rewrite store_returns by done. ok_step. cbn [EHT.dir_ EHT.set_heap].
    rewrite Hat1. ok_step.
    apply RedistributeBucket_returns.
    + exact Hs1.
    + intros i p Hi. simpl in *. rewrite length_insert. by apply (Hp1 i).
    + simpl. by rewrite length_insert.
  - left. unfold EHT.bump_depth. rewrite Hat. ok_step. rewrite Hb. ok_step.
    rewrite store_returns by done. ok_step.
    cbn [EHT.alloc EHT.set_heap EHT.heap_ EHT.dir_ EHT.global_depth_
         EHT.bucket_size_ EHT.num_buckets_ fst snd].
    rewrite shl1_pow by lia. ok_step.
    assert (Hpow : 2 ^ EHT.global_depth_ t = 2 * 2 ^ (EHT.global_depth_ t - 1)).
    { rewrite <-Z.pow_succ_r by lia. f_equal. lia. }
    assert (Hpos : 0 < 2 ^ (EHT.global_depth_ t - 1)) by (apply Z.pow_pos_nonneg; lia).
    assert (Hnew : forall i,
              0 <= i < Z.of_nat (length (EHT.dir_ t)) ->
              EHT.dir_shape (EHT.mkTable (EHT.global_depth_ t) (EHT.bucket_size_ t)
                 (EHT.num_buckets_ t)
                 (<[Z.to_nat i := Some (length (<[a:=EHT.IncrementDepth b]> (EHT.heap_ t)))]>
                    (EHT.dir_ t))
                 (<[a:=EHT.IncrementDepth b]> (EHT.heap_ t)
                  ++ [EHT.mkBucket (EHT.bucket_size_ t) (EHT.global_depth_ t) []]))
              /\ EHT.ptrs_ok (EHT.mkTable (EHT.global_depth_ t) (EHT.bucket_size_ t)
                 (EHT.num_buckets_ t)
                 (<[Z.to_nat i := Some (length (<[a:=EHT.IncrementDepth b]> (EHT.heap_ t)))]>
                    (EHT.dir_ t))
                 (<[a:=EHT.IncrementDepth b]> (EHT.heap_ t)
                  ++ [EHT.mkBucket (EHT.bucket_size_ t) (EHT.global_depth_ t) []]))).
    { intros i Hi. split.
      - split; simpl; [done|]. by rewrite length_insert.
      - intros j p Hj. simpl in *. rewrite length_app, !length_insert. simpl.
        apply list_lookup_insert_Some in Hj as [(_ & <- & _)|[_ Hj]].
        + eexists. split; [done|]. rewrite length_insert. lia.
        + destruct (Hp j p Hj) as (a0 & -> & Ha0). exists a0. split; [done|lia]. }
    case_bool_decide as Hlt.
    + rewrite vec_set_returns by lia. ok_step.
      rewrite (vec_at_lookup _ idx (Some a))
        by (lia || (rewrite list_lookup_insert_ne by lia; done)).
      ok_step. unfold EHT.set_dir. cbn [EHT.global_depth_ EHT.bucket_size_
        EHT.num_buckets_ EHT.heap_].
      destruct (Hnew (idx + 2 ^ (EHT.global_depth_ t - 1))) as [Hs2 Hp2]; [lia|].
      apply RedistributeBucket_returns; [done|done|].
      simpl. rewrite length_app, length_insert. lia.
    + rewrite vec_set_returns by lia. ok_step.
      destruct (dir_at_returns t (idx - 2 ^ (EHT.global_depth_ t - 1)) Hs Hp)
        as (a' & _ & Hl' & Ha'); [lia|].
      rewrite (vec_at_lookup _ (idx - 2 ^ (EHT.global_depth_ t - 1)) (Some a'))
        by (lia || (rewrite list_lookup_insert_ne by lia; done)).
      ok_step. unfold EHT.set_dir. cbn [EHT.global_depth_ EHT.bucket_size_
        EHT.num_buckets_ EHT.heap_].
      destruct (Hnew idx) as [Hs2 Hp2]; [lia|].
      apply RedistributeBucket_returns; [done|done|].
      simpl. rewrite length_app, length_insert. lia.
Qed.

Lemma Insert_depths_ok fuel : forall (t : EHT.Table K V) key value t',
  EHT.dir_shape t -> EHT.depths_ok t ->
  EHT.Insert hash fuel t key value = Ok t' -> EHT.depths_ok t'.
Proof.
  induction fuel as [|fuel IH]; intros t key value t' Hs Hd H0; [done|].
  cbn [EHT.Insert] in H0.
  destruct (IndexOf_returns t key Hs) as (idx & Hidx & Hrange).
  rewrite Hidx in H0. ok_step in H0. inv_bind H0 as p Hp. inv_bind H0 as b Hb.
  destruct (EHT.Bucket_Find key b) as [tmp|].
  - eapply store_depths_ok; [exact Hb|apply Bucket_Insert_depth|exact H0|exact Hd].
  - destruct (EHT.IsFull b).
    + inv_bind H0 as t1 Ht1. eapply IH; [| |exact H0].
      * by eapply split_shape.
      * by eapply split_depths_ok.
    + eapply store_depths_ok; [exact Hb|apply Bucket_Insert_depth|exact H0|exact Hd].
Qed.

Lemma Remove_depths_ok (t : EHT.Table K V) key r t' :
  EHT.depths_ok t -> EHT.Remove hash t key = Ok (r, t') -> EHT.depths_ok t'.
Proof.
  intros Hd. unfold EHT.Remove. intros H0.
  inv_bind H0 as idx Hidx. inv_bind H0 as p Hp. inv_bind H0 as b Hb.
  pose proof (Bucket_Remove_depth key b) as Hdep.
  destruct (EHT.Bucket_Remove key b) as [r0 b'].
  inv_bind H0 as t1 Ht1. injection H0 as _ <-.
  eapply store_depths_ok; [exact Hb|exact Hdep|exact Ht1|exact Hd].
Qed.

Lemma reachable_depths_ok (t : EHT.Table K V) :
  EHT.reachable hash t -> EHT.depths_ok t.
Proof.
  induction 1 as [bs | fuel t key value t' Hr IH Hi | t key r t' _ IH Hr
                 | t key idx p b t' Hr IH Hidx _ _ _ _ Hs].
  - unfold EHT.depths_ok. simpl. apply Forall_singleton. lia.
  - eapply Insert_depths_ok; [|exact IH|exact Hi]. by apply reachable_shape in Hr.
  - by eapply Remove_depths_ok.
  - pose proof (reachable_shape _ _ Hr) as Hshape.
    destruct (IndexOf_returns t key Hshape) as (idx' & Hidx' & Hrange).
    rewrite Hidx in Hidx'. injection Hidx' as <-.
    by eapply split_depths_ok.
Qed.

(** [Insert] never reads or writes outside the directory or the store of
    buckets: a call returns, stops at the overflow of a shift, or is still
    recursing when the budget ends. *)
Lemma Insert_no_fault fuel : forall (t : EHT.Table K V) key value,
  EHT.dir_shape t -> EHT.ptrs_ok t -> EHT.depths_ok t ->
  EHT.Insert hash fuel t key value <> Fault.
Proof.
  induction fuel as [|fuel IH]; intros t key value Hs Hp Hd; [done|].
  cbn [EHT.Insert].
  destruct (IndexOf_returns t key Hs) as (idx & -> & Hrange). ok_step.
  destruct (dir_at_returns t idx Hs Hp Hrange) as (a & -> & _ & Ha). ok_step.
  destruct (deref_returns t a Ha) as (b & -> & _). ok_step.
  destruct (EHT.Bucket_Find key b) as [tmp|].
  - by rewrite store_returns.
  - destruct (EHT.IsFull b).
    + destruct (split_no_fault t idx Hs Hp Hd Hrange) as [[t1 Ht1]| ->]; [|done].
      rewrite Ht1. ok_step. apply IH.
      * by eapply split_shape.
      * by eapply split_ptrs.
      * by eapply split_depths_ok.
    + by rewrite store_returns.
Qed.

End EHT_safety.
(** *** Every access of the directory is in bounds *)

Section EHT_bounds.
Context {K V : Type} `{EqDecision K}.
Variable hash : K -> Z.

(** C9. In every table that [Find], [Insert] (its recursive calls
    included) or [Remove] can start on, and for every key, [IndexOf] is
    defined and yields an index below the directory length, which is
    [2^global_depth_]; so the access [dir_[idx]] of these functions is
    within the vector.  The slot holds a bucket, [Find] and [Remove]
    return, and no call of [Insert] reads or writes outside the directory
    or the buckets. *)
Theorem IndexOf_in_bounds (t : EHT.Table K V) (key : K) :
  EHT.reachable hash t ->
  exists idx, EHT.IndexOf hash t key = Ok idx
    /\ idx = Z.land (hash key) (2 ^ EHT.global_depth_ t - 1)
    /\ Z.of_nat (length (EHT.dir_ t)) = 2 ^ EHT.global_depth_ t
    /\ 0 <= idx < Z.of_nat (length (EHT.dir_ t))
    /\ (exists a b, vec_at (EHT.dir_ t) idx = Ok (Some a)
          /\ EHT.heap_ t !! a = Some b)
    /\ returns (EHT.Find hash t key)
    /\ returns (EHT.Remove hash t key)
    /\ (forall fuel value, EHT.Insert hash fuel t key value <> Fault).
Proof.
  intros Hr. pose proof (reachable_ptrs _ _ Hr) as Hptr.
  pose proof (reachable_depths_ok _ _ Hr) as Hdep.
  pose proof (reachable_shape _ _ Hr) as Hshape.
  apply reachable_shape in Hr as [Hg Hlen].
  exists (Z.land (hash key) (2 ^ EHT.global_depth_ t - 1)).
  assert (Hb := land_mask_bounds (hash key) (EHT.global_depth_ t) (proj1 Hg)).
  assert (Hidx : EHT.IndexOf hash t key
                 = Ok (Z.land (hash key) (2 ^ EHT.global_depth_ t - 1))).
  { unfold EHT.IndexOf. by rewrite shl1_pow. }
  destruct (vec_at_in_bounds (EHT.dir_ t)
              (Z.land (hash key) (2 ^ EHT.global_depth_ t - 1))) as [p Hp]; [lia|].
  pose proof Hp as Hp'. apply vec_at_Ok in Hp' as [_ Hl].
  destruct (Hptr _ _ Hl) as (a & -> & Ha).
  destruct (lookup_lt_is_Some_2 (EHT.heap_ t) a Ha) as [b Hb'].
  split; [done|]. split; [done|]. split; [done|]. split; [lia|].
  split; [by exists a, b|]. split; [|split].
  - unfold EHT.Find. rewrite Hidx. ok_step. rewrite Hp. ok_step.
    rewrite (deref_lookup _ _ _ Hb'). ok_step. by eexists.
  - unfold EHT.Remove. rewrite Hidx. ok_step. rewrite Hp. ok_step.
    rewrite (deref_lookup _ _ _ Hb'). ok_step.
    destruct (EHT.Bucket_Remove key b) as [r b'].
    unfold EHT.store. rewrite bool_decide_eq_true_2 by done. ok_step. by eexists.
  - intros fuel value. by apply Insert_no_fault.
Qed.

End EHT_bounds.

(** Witness of C9: the table after three inserts (directory of 8 slots),
    key 13. *)
Lemma IndexOf_in_bounds_witness :
  EHT.reachable EHT.hash_int EHT.table_034 /\
  exists idx, EHT.IndexOf EHT.hash_int EHT.table_034 13 = Ok idx
    /\ idx = Z.land (EHT.hash_int 13) (2 ^ EHT.global_depth_ EHT.table_034 - 1)
    /\ Z.of_nat (length (EHT.dir_ EHT.table_034)) = 2 ^ EHT.global_depth_ EHT.table_034
    /\ 0 <= idx < Z.of_nat (length (EHT.dir_ EHT.table_034))
    /\ (exists a b, vec_at (EHT.dir_ EHT.table_034) idx = Ok (Some a)
          /\ EHT.heap_ EHT.table_034 !! a = Some b)
    /\ returns (EHT.Find EHT.hash_int EHT.table_034 13)
    /\ returns (EHT.Remove EHT.hash_int EHT.table_034 13)
    /\ (forall fuel value,
          EHT.Insert EHT.hash_int fuel EHT.table_034 13 value <> Fault).
Proof.
  split.
  - exact table_034_reachable.
  - apply (IndexOf_in_bounds EHT.hash_int EHT.table_034 13). exact table_034_reachable.
Defined.

(** *** The retry after a split *)

(** C8 (on the code).  On the table reached by [Insert(0)], [Insert(4)],
    [Insert(3)] with buckets of one entry, [Insert(1, value)] does not
    return, whatever the recursion budget: every retry finds the same full
    bucket and splits again, so the call is still recursing when the budget
    ends, or it has doubled the directory up to the overflow of
    [1 << (global_depth_ + 1)]. *)
Theorem Insert_retry_never_returns (fuel : nat) (value : Z) :
  EHT.reachable EHT.hash_int EHT.table_034
  /\ (EHT.Insert EHT.hash_int fuel EHT.table_034 1 value = NoFuel
      \/ EHT.Insert EHT.hash_int fuel EHT.table_034 1 value = Overflow).
Proof.
  pose proof table_034_reachable as Hr. split; [exact Hr|].
  pose proof (stuck_Insert fuel _ value table_034_stuck) as Hstuck.
  pose proof (Insert_no_fault EHT.hash_int fuel EHT.table_034 1 value
                (reachable_shape _ _ Hr) (reachable_ptrs _ _ Hr)
                (reachable_depths_ok _ _ Hr)) as Hsafe.
  destruct (EHT.Insert EHT.hash_int fuel EHT.table_034 1 value) as [t'| | |].
  - by destruct (Hstuck t').
  - done.
  - by right.
  - by left.
Qed.

(** *** Buckets: insert, find, remove *)

Section EHT_bucket.
Context {K V : Type} `{EqDecision K}.

Lemma upsert_keys (key : K) (value : V) l :
  (EHT.list_upsert key value l).*1
  = match EHT.list_find_key key l with
    | Some _ => l.*1
    | None => l.*1 ++ [key]
    end.
Proof.
  induction l as [|[k v] l IH]; [done|].
  cbn [EHT.list_upsert EHT.list_find_key]. case_decide as Hk.
  - by subst.
  - rewrite !fmap_cons, IH. by destruct (EHT.list_find_key key l).
Qed.

Lemma find_None_keys (key : K) (l : list (K * V)) :
  EHT.list_find_key key l = None <-> key ∉ l.*1.
Proof.
  induction l as [|[k v] l IH]; simpl.
  - split; [intros _; apply not_elem_of_nil|done].
  - case_decide as Hk.
    + subst. split; [done|]. intros Hn. destruct Hn. by left.
    + rewrite IH, not_elem_of_cons. split; [|by intros []].
      intros Hl. split; [congruence|done].
Qed.

Lemma upsert_nodup (key : K) (value : V) l :
  NoDup l.*1 -> NoDup (EHT.list_upsert key value l).*1.
Proof.
  intros Hnd. rewrite upsert_keys.
  destruct (EHT.list_find_key key l) eqn:E; [done|].
  apply NoDup_app. split; [done|]. split; [|apply NoDup_singleton].
  intros x Hx Hx'. apply list_elem_of_singleton in Hx'. subst.
  by apply find_None_keys in E.
Qed.

Lemma remove_keys_sub (key k : K) (l : list (K * V)) :
  k ∈ (EHT.list_remove_key key l).2.*1 -> k ∈ l.*1.
Proof.
  induction l as [|[k0 v] l IH]; simpl; [done|]. case_decide.
  - simpl. intros Hin. by right.
  - destruct (EHT.list_remove_key key l) as [r l']. simpl in *.
    rewrite !elem_of_cons. intros [->|Hin]; [by left|right; by apply IH].
Qed.

Lemma remove_nodup (key : K) (l : list (K * V)) :
  NoDup l.*1 -> NoDup (EHT.list_remove_key key l).2.*1.
Proof.
  induction l as [|[k v] l IH]; simpl; [done|]. intros Hnd.
  apply NoDup_cons in Hnd as [Hk Hnd]. case_decide; [done|].
  pose proof (remove_keys_sub key k l) as Hsub.
  destruct (EHT.list_remove_key key l) as [r l']. simpl in *.
  apply NoDup_cons. split; [|by apply IH]. intros Hin. by apply Hk, Hsub.
Qed.

Lemma find_remove_same (key : K) (l : list (K * V)) :
  NoDup l.*1 -> EHT.list_find_key key (EHT.list_remove_key key l).2 = None.
Proof.
  induction l as [|[k v] l IH]; simpl; [done|]. intros Hnd.
  apply NoDup_cons in Hnd as [Hk Hnd]. case_decide as Hkk.
  - subst. simpl. by apply find_None_keys.
  - specialize (IH Hnd). destruct (EHT.list_remove_key key l) as [r l']. simpl in *.
    by rewrite decide_False.
Qed.

Lemma find_remove_ne (key k' : K) (l : list (K * V)) :
  k' <> key ->
  EHT.list_find_key key (EHT.list_remove_key k' l).2 = EHT.list_find_key key l.
Proof.
  intros Hne. induction l as [|[k v] l IH]; simpl; [done|]. case_decide as Hk.
  - subst. simpl. by rewrite decide_False.
  - destruct (EHT.list_remove_key k' l) as [r l']. simpl in *.
    case_decide; [done|]. exact IH.
Qed.

Lemma remove_flag (key : K) (l : list (K * V)) :
  (EHT.list_remove_key key l).1 = bool_decide (is_Some (EHT.list_find_key key l)).
Proof.
  induction l as [|[k v] l IH]; simpl; [done|]. case_decide; [done|].
  by destruct (EHT.list_remove_key key l) as [r l'].
Qed.

Lemma Bucket_Insert_nodup (key : K) (value : V) (b : EHT.Bucket K V) :
  NoDup (EHT.list_ b).*1 -> NoDup (EHT.list_ (EHT.Bucket_Insert key value b).2).*1.
Proof.
  intros Hnd. unfold EHT.Bucket_Insert. destruct (EHT.IsFull b); [done|].
  simpl. by apply upsert_nodup.
Qed.

Lemma Bucket_Remove_list (key : K) (b : EHT.Bucket K V) :
  EHT.list_ (EHT.Bucket_Remove key b).2 = (EHT.list_remove_key key (EHT.list_ b)).2
  /\ (EHT.Bucket_Remove key b).1 = (EHT.list_remove_key key (EHT.list_ b)).1.
Proof.
  unfold EHT.Bucket_Remove. by destruct (EHT.list_remove_key key (EHT.list_ b)).
Qed.

Lemma Bucket_Remove_nodup (key : K) (b : EHT.Bucket K V) :
  NoDup (EHT.list_ b).*1 -> NoDup (EHT.list_ (EHT.Bucket_Remove key b).2).*1.
Proof.
  intros Hnd. rewrite (proj1 (Bucket_Remove_list key b)). by apply remove_nodup.
Qed.

End EHT_bucket.

(** *** The three ways of a split *)

Section EHT_split.
Context {K V : Type} `{EqDecision K}.
Variable hash : K -> Z.

Lemma pow2_double g : 0 <= g -> 2 ^ (g + 1) = 2 * 2 ^ g /\ 0 < 2 ^ g.
Proof.
  intros Hg. split.
  - rewrite Z.pow_add_r by lia. lia.
  - apply Z.pow_pos_nonneg; lia.
Qed.

Lemma pow2_half g : 1 <= g -> 2 ^ g = 2 * 2 ^ (g - 1) /\ 0 < 2 ^ (g - 1).
Proof.
  intros Hg. destruct (pow2_double (g - 1)) as [H1 H2]; [lia|].
  by replace (g - 1 + 1) with g in H1 by lia.
Qed.

(** The doubled directory: both halves hold the old directory, but for the
    slot given to the new bucket. *)
Lemma DoubleDir_dir (t : EHT.Table K V) idx t' :
  EHT.dir_shape t -> EHT.DoubleDir t idx = Ok t' ->
  0 <= idx + 2 ^ EHT.global_depth_ t < 2 ^ (EHT.global_depth_ t + 1)
  /\ EHT.global_depth_ t + 1 <= 30 /\
  exists tmp,
    Z.of_nat (length tmp) = 2 ^ (EHT.global_depth_ t + 1)
    /\ (forall i : nat, Z.of_nat i < 2 ^ EHT.global_depth_ t ->
          tmp !! i = EHT.dir_ t !! i
          /\ tmp !! Z.to_nat (Z.of_nat i + 2 ^ EHT.global_depth_ t) = EHT.dir_ t !! i)
    /\ t' = EHT.mkTable (EHT.global_depth_ t + 1) (EHT.bucket_size_ t)
              (EHT.num_buckets_ t + 1)
              (<[Z.to_nat (idx + 2 ^ EHT.global_depth_ t) := Some (length (EHT.heap_ t))]> tmp)
              (EHT.heap_ t ++ [EHT.mkBucket (EHT.bucket_size_ t)
                                 (EHT.global_depth_ t + 1) []]).
Proof.
  intros [Hg Hlen]. unfold EHT.DoubleDir. intros H0.
  inv_bind H0 as n Hn. inv_bind H0 as half Hhalf. inv_bind H0 as tmp Htmp.
  simpl in H0. inv_bind H0 as d Hd. injection H0 as <-.
  apply shl1_Ok in Hn as [Hg1 ->]. apply shl1_Ok in Hhalf as [_ ->].
  apply vec_set_Ok in Hd as [Hb ->].
  pose proof (copy_loop_length _ _ _ _ _ Htmp) as Hl.
  rewrite length_replicate in Hl.
  destruct (pow2_double (EHT.global_depth_ t)) as [Hpow Hpos]; [lia|].
  simpl in Hb. split; [lia|]. split; [lia|]. exists tmp. split; [lia|]. split; [|done].
  intros i Hi. split.
  - eapply copy_loop_lookup; [exact Htmp| |]; lia.
  - eapply copy_loop_lookup_hi; [exact Htmp| |]; lia.
Qed.

(** What a split that returns has done: the slot holds a bucket, and the
    table is the result of [RedistributeBucket] on one of three tables. *)
Lemma split_Ok (t : EHT.Table K V) idx t' :
  EHT.dir_shape t -> EHT.split hash t idx = Ok t' ->
  0 <= idx < 2 ^ EHT.global_depth_ t /\
  exists a b, EHT.dir_ t !! Z.to_nat idx = Some (Some a) /\ EHT.heap_ t !! a = Some b /\
    ((EHT.depth_ b = EHT.global_depth_ t /\ EHT.global_depth_ t + 1 <= 30
      /\ exists tmp,
           Z.of_nat (length tmp) = 2 ^ (EHT.global_depth_ t + 1)
           /\ (forall i : nat, Z.of_nat i < 2 ^ EHT.global_depth_ t ->
                 tmp !! i = EHT.dir_ t !! i
                 /\ tmp !! Z.to_nat (Z.of_nat i + 2 ^ EHT.global_depth_ t)
                    = EHT.dir_ t !! i)
           /\ EHT.RedistributeBucket hash (EHT.split_doubled t idx a b tmp) (Some a)
              = Ok t')
     \/ (EHT.depth_ b <> EHT.global_depth_ t /\ 1 <= EHT.global_depth_ t
         /\ idx < 2 ^ (EHT.global_depth_ t - 1)
         /\ EHT.RedistributeBucket hash
              (EHT.split_placed t (idx + 2 ^ (EHT.global_depth_ t - 1)) a b) (Some a)
            = Ok t')
     \/ (EHT.depth_ b <> EHT.global_depth_ t /\ 1 <= EHT.global_depth_ t
         /\ 2 ^ (EHT.global_depth_ t - 1) <= idx
         /\ exists q,
              EHT.dir_ t !! Z.to_nat (idx - 2 ^ (EHT.global_depth_ t - 1)) = Some q
              /\ EHT.RedistributeBucket hash (EHT.split_placed t idx a b) q = Ok t')).
Proof.
  intros Hs H0. pose proof Hs as [Hg Hlen].
  unfold EHT.split in H0. inv_bind H0 as ld Hld.
  unfold EHT.GetLocalDepth in Hld. inv_bind Hld as p Hp. inv_bind Hld as b Hb.
  injection Hld as <-. unfold EHT.deref in Hb. destruct p as [a|]; [|done].
  destruct (EHT.heap_ t !! a) as [b'|] eqn:Ea; [|done]. injection Hb as ->.
  pose proof Hp as Hp'. apply vec_at_Ok in Hp' as [Hi0 Hl].
  pose proof (lookup_lt_Some _ _ _ Hl) as Hilt.
  split; [lia|]. exists a, b. split; [done|]. split; [done|].
  unfold EHT.GetGlobalDepth in H0. case_bool_decide as Hcase.
  - left. inv_bind H0 as t1 Ht1. inv_bind H0 as t2 Ht2. inv_bind H0 as p2 Hp2.
    apply (DoubleDir_dir _ _ _ Hs) in Ht1 as (Hb & Hg1 & tmp & Hlt & Htmp & ->).
    destruct (pow2_double (EHT.global_depth_ t)) as [Hpow Hpos]; [lia|].
    assert (Hd1 : (<[Z.to_nat (idx + 2 ^ EHT.global_depth_ t)
                     := Some (length (EHT.heap_ t))]> tmp) !! Z.to_nat idx
                  = Some (Some a)).
    { rewrite list_lookup_insert_ne by lia.
      destruct (Htmp (Z.to_nat idx)) as [-> _]; [lia|done]. }
    unfold EHT.bump_depth in Ht2. cbn [EHT.dir_] in Ht2.
    rewrite (vec_at_lookup _ idx (Some a)) in Ht2 by done. ok_step in Ht2.
    rewrite (deref_lookup _ a b) in Ht2 by (by apply lookup_app_l_Some).
    ok_step in Ht2. apply store_Ok in Ht2 as (a' & [= <-] & Ha & ->).
    cbn [EHT.dir_ EHT.set_heap] in Hp2.
    rewrite (vec_at_lookup _ idx (Some a)) in Hp2 by done. injection Hp2 as <-.
    split; [done|]. split; [done|]. exists tmp. split; [done|]. split; [done|].
    exact H0.
  - right. inv_bind H0 as t1 Ht1. cbn zeta in H0. unfold EHT.alloc in H0.
    cbn [fst snd] in H0. inv_bind H0 as tmp Htmp.
    unfold EHT.bump_depth in Ht1. rewrite Hp in Ht1. ok_step in Ht1.
    rewrite (deref_lookup _ _ _ Ea) in Ht1. ok_step in Ht1.
    apply store_Ok in Ht1 as (a' & [= <-] & Ha & ->).
    cbn [EHT.global_depth_ EHT.set_heap] in Htmp.
    apply shl1_Ok in Htmp as [Hg1 ->].
    destruct (pow2_half (EHT.global_depth_ t)) as [Hpow Hpos]; [lia|].
    case_bool_decide as Hlt; inv_bind H0 as d Hd; inv_bind H0 as p' Hp';
      apply vec_set_Ok in Hd as [Hb ->].
    + left. cbn [EHT.dir_ EHT.set_heap EHT.heap_] in Hp'.
      apply vec_at_Ok in Hp' as [_ Hp'].
      rewrite list_lookup_insert_ne in Hp' by lia. rewrite Hl in Hp'.
      injection Hp' as <-.
      split; [congruence|]. split; [lia|]. split; [done|].
      unfold EHT.split_placed. simpl in H0. rewrite length_insert in H0. exact H0.
    + right. cbn [EHT.dir_ EHT.set_heap EHT.heap_] in Hp'.
      apply vec_at_Ok in Hp' as [_ Hp'].
      rewrite list_lookup_insert_ne in Hp' by lia.
      split; [congruence|]. split; [lia|]. split; [lia|]. exists p'.
      split; [done|].
      unfold EHT.split_placed. simpl in H0. rewrite length_insert in H0. exact H0.
Qed.

(** Properties of the table that the loop of [RedistributeBucket] keeps,
    when each of its two writes does; [Q] holds of the keys that are moved. *)
Lemma RedistributeBucket_inv (P : EHT.Table K V -> Prop) (Q : K -> Prop)
    (t : EHT.Table K V) bucket b t' :
  (forall t0 p tgt k v t1, P t0 -> Q k -> EHT.deref t0 p = Ok tgt -> p <> bucket ->
     EHT.store t0 p (EHT.Bucket_Insert k v tgt).2 = Ok t1 -> P t1) ->
  (forall t0 src k t1, P t0 -> EHT.deref t0 bucket = Ok src ->
     EHT.store t0 bucket (EHT.Bucket_Remove k src).2 = Ok t1 -> P t1) ->
  EHT.deref t bucket = Ok b -> (forall kv, kv ∈ EHT.list_ b -> Q kv.1) ->
  P t -> EHT.RedistributeBucket hash t bucket = Ok t' -> P t'.
Proof.
  intros Hins Hrem Hb HQ HP. unfold EHT.RedistributeBucket. rewrite Hb. ok_step.
  intros H0. apply (foldl_Ok_inv _ P) in H0.
  - destruct H0 as (t0 & [= <-] & Himp). by apply Himp.
  - intros acc x a' Hx Hs. unfold EHT.redistribute_step in Hs.
    inv_bind Hs as t1 Ht1. exists t1. split; [done|]. intros IH.
    inv_bind Hs as idx Hidx. inv_bind Hs as p Hp. case_decide as Hpb.
    + by injection Hs as <-.
    + inv_bind Hs as tgt Htgt. inv_bind Hs as t2 Ht2. inv_bind Hs as src Hsrc.
      eapply Hrem; [|exact Hsrc|exact Hs].
      eapply Hins; [exact IH|by apply HQ|exact Htgt|exact Hpb|exact Ht2].
Qed.

(** **** Distinct keys in every bucket *)

Lemma store_nodup (t : EHT.Table K V) p b t' :
  EHT.keys_nodup t -> NoDup (EHT.list_ b).*1 ->
  EHT.store t p b = Ok t' -> EHT.keys_nodup t'.
Proof.
  intros Hok Hb Hs. apply store_Ok in Hs as (a & -> & Ha & ->).
  unfold EHT.keys_nodup. simpl. by apply Forall_insert.
Qed.

Lemma deref_nodup (t : EHT.Table K V) p b :
  EHT.keys_nodup t -> EHT.deref t p = Ok b -> NoDup (EHT.list_ b).*1.
Proof.
  intros Hok Hb. unfold EHT.deref in Hb. destruct p as [a|]; [|done].
  destruct (EHT.heap_ t !! a) as [b'|] eqn:Ea; [|done]. injection Hb as ->.
  unfold EHT.keys_nodup in Hok. rewrite Forall_lookup in Hok. by apply (Hok a).
Qed.

Lemma RedistributeBucket_nodup (t : EHT.Table K V) bucket t' :
  EHT.keys_nodup t -> EHT.RedistributeBucket hash t bucket = Ok t' ->
  EHT.keys_nodup t'.
Proof.
  intros Hok H0. pose proof H0 as H1. unfold EHT.RedistributeBucket in H1.
  inv_bind H1 as b Hb.
  eapply (RedistributeBucket_inv EHT.keys_nodup (fun _ => True));
    [| |exact Hb|done|exact Hok|exact H0].
  - intros t0 p tgt k v t1 Hn _ Hd _ Hs. eapply store_nodup; [exact Hn| |exact Hs].
    apply Bucket_Insert_nodup. by eapply deref_nodup.
  - intros t0 src k t1 Hn Hd Hs. eapply store_nodup; [exact Hn| |exact Hs].
    apply Bucket_Remove_nodup. by eapply deref_nodup.
Qed.

Lemma split_nodup (t : EHT.Table K V) idx t' :
  EHT.dir_shape t -> EHT.keys_nodup t -> EHT.split hash t idx = Ok t' ->
  EHT.keys_nodup t'.
Proof.
  intros Hs Hok H0.
  apply (split_Ok _ _ _ Hs) in H0 as (_ & a & b & _ & Hb & Hcases).
  assert (Hnb : NoDup (EHT.list_ (EHT.IncrementDepth b)).*1).
  { unfold EHT.keys_nodup in Hok. rewrite Forall_lookup in Hok.
    exact (Hok a b Hb). }
  assert (Hplaced : forall slot, EHT.keys_nodup (EHT.split_placed t slot a b)).
  { intros slot. unfold EHT.keys_nodup, EHT.split_placed. simpl.
    apply Forall_app. split; [by apply Forall_insert|].
    apply Forall_singleton. simpl. apply NoDup_nil_2. }
  destruct Hcases as [(_ & _ & tmp & _ & _ & H0)|[(_ & _ & _ & H0)|(_ & _ & _ & q & _ & H0)]];
    (eapply RedistributeBucket_nodup; [|exact H0]); [|done..].
  unfold EHT.keys_nodup, EHT.split_doubled. simpl.
  apply Forall_insert; [|done]. apply Forall_app. split; [done|].
  apply Forall_singleton. simpl. apply NoDup_nil_2.
Qed.

Lemma Insert_nodup fuel : forall (t : EHT.Table K V) key value t',
  EHT.dir_shape t -> EHT.keys_nodup t ->
  EHT.Insert hash fuel t key value = Ok t' -> EHT.keys_nodup t'.
Proof.
  induction fuel as [|fuel IH]; intros t key value t' Hs Hok H0; [done|].
  cbn [EHT.Insert] in H0.
  inv_bind H0 as idx Hidx. inv_bind H0 as p Hp. inv_bind H0 as b Hb.
  pose proof (deref_nodup _ _ _ Hok Hb) as Hnb.
  destruct (EHT.Bucket_Find key b) as [tmp|].
  - eapply store_nodup; [exact Hok| |exact H0]. by apply Bucket_Insert_nodup.
  - destruct (EHT.IsFull b).
    + inv_bind H0 as t1 Ht1. eapply IH; [| |exact H0].
      * by eapply split_shape.
      * by eapply split_nodup.
    + eapply store_nodup; [exact Hok| |exact H0]. by apply Bucket_Insert_nodup.
Qed.

Lemma Remove_nodup (t : EHT.Table K V) key r t' :
  EHT.keys_nodup t -> EHT.Remove hash t key = Ok (r, t') -> EHT.keys_nodup t'.
Proof.
  intros Hok. unfold EHT.Remove. intros H0.
  inv_bind H0 as idx Hidx. inv_bind H0 as p Hp. inv_bind H0 as b Hb.
  pose proof (Bucket_Remove_nodup key b (deref_nodup _ _ _ Hok Hb)) as Hnb.
  destruct (EHT.Bucket_Remove key b) as [r0 b'].
  inv_bind H0 as t1 Ht1. injection H0 as _ <-. by eapply store_nodup.
Qed.

Lemma reachable_nodup (t : EHT.Table K V) :
  EHT.reachable hash t -> EHT.keys_nodup t.
Proof.
  induction 1 as [bs | fuel t key value t' Hr IH Hi | t key r t' _ IH Hr
                 | t key idx p b t' Hr IH _ _ _ _ _ Hs].
  - unfold EHT.keys_nodup. simpl. apply Forall_singleton. simpl. apply NoDup_nil_2.
  - eapply Insert_nodup; [|exact IH|exact Hi]. by apply reachable_shape in Hr.
  - by eapply Remove_nodup.
  - eapply split_nodup; [|exact IH|exact Hs]. by apply reachable_shape in Hr.
Qed.

End EHT_split.

(** *** Lookups after a change of one bucket *)

Section EHT_props.
Context {K V : Type} `{EqDecision K}.
Variable hash : K -> Z.

Lemma Find_set_bucket (t : EHT.Table K V) a b b' k :
  EHT.heap_ t !! a = Some b -> EHT.Bucket_Find k b' = EHT.Bucket_Find k b ->
  EHT.Find hash (EHT.set_heap t (<[a := b']> (EHT.heap_ t))) k = EHT.Find hash t k.
Proof.
  intros Hb Hfind. unfold EHT.Find, EHT.IndexOf, EHT.deref, EHT.set_heap.
  cbn [EHT.global_depth_ EHT.dir_ EHT.heap_].
  destruct (shl1 (EHT.global_depth_ t)) as [m| | |]; [|done..]. ok_step.
  destruct (vec_at (EHT.dir_ t) (Z.land (hash k) (m - 1))) as [p| | |]; [|done..].
  ok_step. destruct p as [x|]; [|done].
  destruct (decide (x = a)) as [->|Hne].
  - rewrite list_lookup_insert_eq by (by eapply lookup_lt_Some).
    rewrite Hb. ok_step. by rewrite Hfind.
  - by rewrite list_lookup_insert_ne.
Qed.

Lemma Bucket_Find_Insert_ne (key k : K) (value : V) (b : EHT.Bucket K V) :
  k <> key ->
  EHT.Bucket_Find k (EHT.Bucket_Insert key value b).2 = EHT.Bucket_Find k b.
Proof.
  intros Hne. unfold EHT.Bucket_Insert. destruct (EHT.IsFull b); [done|].
  unfold EHT.Bucket_Find. simpl. by apply find_upsert_ne.
Qed.

Lemma Bucket_Find_Remove_ne (key k : K) (b : EHT.Bucket K V) :
  k <> key ->
  EHT.Bucket_Find k (EHT.Bucket_Remove key b).2 = EHT.Bucket_Find k b.
Proof.
  intros Hne. unfold EHT.Bucket_Find.
  rewrite (proj1 (Bucket_Remove_list key b)). by apply find_remove_ne.
Qed.

(** X1.  [Bucket::Insert] refuses when the list is at capacity, also for a
    key that is present; otherwise it returns true, [Bucket::Find] then
    yields the value given, the other keys keep their values, a key that
    was present keeps its place (the length is unchanged), a new key adds
    one entry, and a bucket within its capacity stays within it. *)
Theorem Bucket_Insert_round_trip (key : K) (value : V) (b : EHT.Bucket K V) :
  if EHT.IsFull b then EHT.Bucket_Insert key value b = (false, b)
  else exists b',
    EHT.Bucket_Insert key value b = (true, b')
    /\ EHT.Bucket_Find key b' = Some value
    /\ (forall k, k <> key -> EHT.Bucket_Find k b' = EHT.Bucket_Find k b)
    /\ length (EHT.list_ b')
       = match EHT.Bucket_Find key b with
         | Some _ => length (EHT.list_ b)
         | None => S (length (EHT.list_ b))
         end
    /\ EHT.size_ b' = EHT.size_ b /\ EHT.depth_ b' = EHT.depth_ b
    /\ ((length (EHT.list_ b) <= EHT.size_ b)%nat ->
        (length (EHT.list_ b') <= EHT.size_ b')%nat).
Proof.
  destruct (EHT.IsFull b) eqn:Efull.
  - unfold EHT.Bucket_Insert. by rewrite Efull.
  - pose proof (fun k => Bucket_Find_Insert_ne key k value b) as Hne.
    unfold EHT.Bucket_Insert in *. rewrite Efull in Hne. rewrite Efull.
    eexists. split; [done|].
    assert (Hlen : length (EHT.list_upsert key value (EHT.list_ b))
                   = match EHT.Bucket_Find key b with
                     | Some _ => length (EHT.list_ b)
                     | None => S (length (EHT.list_ b))
                     end).
    { rewrite <-(length_fmap fst), upsert_keys. unfold EHT.Bucket_Find.
      destruct (EHT.list_find_key key (EHT.list_ b));
        rewrite ?length_app, length_fmap; simpl; lia. }
    split; [apply find_upsert|]. split; [exact Hne|].
    split; [exact Hlen|]. split; [done|]. split; [done|].
    cbn [EHT.list_ EHT.size_]. rewrite Hlen. intros Hcap.
    unfold EHT.IsFull in Efull. apply bool_decide_eq_false in Efull.
    destruct (EHT.Bucket_Find key b); lia.
Qed.

(** What [Remove] does, on a table whose directory is well formed and
    whose buckets hold distinct keys. *)
Lemma Remove_effect (t : EHT.Table K V) (key : K) :
  EHT.dir_shape t -> EHT.ptrs_ok t -> EHT.keys_nodup t ->
  exists r t',
    EHT.Remove hash t key = Ok (r, t')
    /\ EHT.Find hash t' key = Ok None
    /\ (exists o, EHT.Find hash t key = Ok o /\ r = bool_decide (is_Some o))
    /\ (forall k, k <> key -> EHT.Find hash t' k = EHT.Find hash t k)
    /\ EHT.dir_ t' = EHT.dir_ t
    /\ EHT.GetGlobalDepth t' = EHT.GetGlobalDepth t
    /\ EHT.GetNumBuckets t' = EHT.GetNumBuckets t
    /\ EHT.depth_ <$> EHT.heap_ t' = EHT.depth_ <$> EHT.heap_ t.
Proof.
  intros Hs Hp Hn.
  destruct (IndexOf_returns hash t key Hs) as (idx & Hidx & Hrange).
  destruct (dir_at_returns t idx Hs Hp Hrange) as (a & Hat & _ & Ha).
  destruct (deref_returns t a Ha) as (b & Hd & Hb).
  pose proof (deref_nodup _ _ _ Hn Hd) as Hnb.
  destruct (Bucket_Remove_list key b) as [Hl Hf].
  exists (EHT.Bucket_Remove key b).1,
         (EHT.set_heap t (<[a := (EHT.Bucket_Remove key b).2]> (EHT.heap_ t))).
  assert (Hrun : EHT.Remove hash t key
                 = Ok ((EHT.Bucket_Remove key b).1,
                       EHT.set_heap t (<[a := (EHT.Bucket_Remove key b).2]> (EHT.heap_ t)))).
  { unfold EHT.Remove. rewrite Hidx. ok_step. rewrite Hat. ok_step.
    rewrite Hd. ok_step. destruct (EHT.Bucket_Remove key b) as [r b'].
    rewrite store_returns by done. by ok_step. }
  assert (Hfind : EHT.Find hash t key = Ok (EHT.Bucket_Find key b)).
  { unfold EHT.Find. rewrite Hidx. ok_step. rewrite Hat. ok_step. by rewrite Hd. }
  split; [exact Hrun|]. split; [|split; [|split; [|split; [|split; [|split]]]]].
  - unfold EHT.Find, EHT.IndexOf in *. cbn [EHT.set_heap EHT.global_depth_ EHT.dir_].
    rewrite Hidx. ok_step. rewrite Hat. ok_step.
    unfold EHT.deref, EHT.set_heap. cbn [EHT.heap_].
    rewrite list_lookup_insert_eq by done.
    ok_step. unfold EHT.Bucket_Find. rewrite Hl. by rewrite find_remove_same.
  - exists (EHT.Bucket_Find key b). split; [done|]. rewrite Hf. apply remove_flag.
  - intros k Hk. eapply Find_set_bucket; [exact Hb|]. by apply Bucket_Find_Remove_ne.
  - done.
  - done.
  - done.
  - cbn [EHT.set_heap EHT.heap_]. rewrite list_fmap_insert, Bucket_Remove_depth.
    apply list_insert_id. by rewrite list_lookup_fmap, Hb.
Qed.

(** X2.  On every reachable table [Remove(key)] returns; afterwards
    [Find(key)] fails, the result tells whether [Find(key)] succeeded
    before, every other key is found as before, and the directory, the
    depths and the bucket count are unchanged. *)
Theorem Remove_then_Find (t : EHT.Table K V) (key : K) :
  EHT.reachable hash t ->
  exists r t',
    EHT.Remove hash t key = Ok (r, t')
    /\ EHT.Find hash t' key = Ok None
    /\ (exists o, EHT.Find hash t key = Ok o /\ r = bool_decide (is_Some o))
    /\ (forall k, k <> key -> EHT.Find hash t' k = EHT.Find hash t k)
    /\ EHT.dir_ t' = EHT.dir_ t
    /\ EHT.GetGlobalDepth t' = EHT.GetGlobalDepth t
    /\ EHT.GetNumBuckets t' = EHT.GetNumBuckets t
    /\ EHT.depth_ <$> EHT.heap_ t' = EHT.depth_ <$> EHT.heap_ t.
Proof.
  intros Hr. apply Remove_effect.
  - by apply reachable_shape in Hr.
  - by apply reachable_ptrs in Hr.
  - by apply reachable_nodup in Hr.
Qed.

(** An [Insert] that fits: the entry goes to the bucket of the key. *)
Lemma Insert_fits (t : EHT.Table K V) (key : K) (value : V)
    (idx : Z) (a : nat) (b : EHT.Bucket K V) (fuel : nat) :
  EHT.IndexOf hash t key = Ok idx ->
  vec_at (EHT.dir_ t) idx = Ok (Some a) ->
  EHT.heap_ t !! a = Some b ->
  EHT.Bucket_Find key b = None -> EHT.IsFull b = false ->
  EHT.Insert hash (S fuel) t key value
    = Ok (EHT.set_heap t (<[a := (EHT.Bucket_Insert key value b).2]> (EHT.heap_ t)))
  /\ EHT.Find hash
       (EHT.set_heap t (<[a := (EHT.Bucket_Insert key value b).2]> (EHT.heap_ t))) key
     = Ok (Some value).
Proof.
  intros Hidx Hat Hb Hfind Hfull.
  pose proof (lookup_lt_Some _ _ _ Hb) as Ha. split.
  - cbn [EHT.Insert]. rewrite Hidx. ok_step. rewrite Hat. ok_step.
    rewrite (deref_lookup _ _ _ Hb). ok_step. rewrite Hfind, Hfull.
    by apply store_returns.
  - unfold EHT.Find, EHT.IndexOf in *. cbn [EHT.set_heap EHT.global_depth_ EHT.dir_].
    rewrite Hidx. ok_step. rewrite Hat. ok_step.
    unfold EHT.deref, EHT.set_heap. cbn [EHT.heap_].
    rewrite list_lookup_insert_eq by done.
    ok_step. unfold EHT.Bucket_Insert. rewrite Hfull. unfold EHT.Bucket_Find.
    simpl. by rewrite find_upsert.
Qed.

(** X3.  When the bucket of [key] does not hold [key] and is not full,
    [Insert(key, value)] returns without a split: [Find(key)] then yields
    [value], every other key is found as before, and the directory, the
    depths and the bucket count are unchanged. *)
Theorem Insert_without_split (t : EHT.Table K V) (key : K) (value : V)
    (idx : Z) (a : nat) (b : EHT.Bucket K V) (fuel : nat) :
  EHT.IndexOf hash t key = Ok idx ->
  vec_at (EHT.dir_ t) idx = Ok (Some a) ->
  EHT.heap_ t !! a = Some b ->
  EHT.Bucket_Find key b = None -> EHT.IsFull b = false ->
  exists t',
    EHT.Insert hash (S fuel) t key value = Ok t'
    /\ EHT.Find hash t' key = Ok (Some value)
    /\ (forall k, k <> key -> EHT.Find hash t' k = EHT.Find hash t k)
    /\ EHT.dir_ t' = EHT.dir_ t
    /\ EHT.GetGlobalDepth t' = EHT.GetGlobalDepth t
    /\ EHT.GetNumBuckets t' = EHT.GetNumBuckets t
    /\ EHT.depth_ <$> EHT.heap_ t' = EHT.depth_ <$> EHT.heap_ t.
Proof.
  intros Hidx Hat Hb Hfind Hfull.
  destruct (Insert_fits t key value idx a b fuel Hidx Hat Hb Hfind Hfull) as [Hrun Hnew].
  eexists. split; [exact Hrun|]. split; [exact Hnew|].
  split; [|split; [done|split; [done|split; [done|]]]].
  - intros k Hk. eapply Find_set_bucket; [exact Hb|]. by apply Bucket_Find_Insert_ne.
  - cbn [EHT.set_heap EHT.heap_]. rewrite list_fmap_insert, Bucket_Insert_depth.
    apply list_insert_id. by rewrite list_lookup_fmap, Hb.
Qed.

End EHT_props.

(** Witness of X2: the table after three inserts, key 3. *)
Lemma Remove_then_Find_witness :
  EHT.reachable EHT.hash_int EHT.table_034 /\
  exists r t',
    EHT.Remove EHT.hash_int EHT.table_034 3 = Ok (r, t')
    /\ EHT.Find EHT.hash_int t' 3 = Ok None
    /\ (exists o, EHT.Find EHT.hash_int EHT.table_034 3 = Ok o
          /\ r = bool_decide (is_Some o))
    /\ (forall k, k <> 3 -> EHT.Find EHT.hash_int t' k
                           = EHT.Find EHT.hash_int EHT.table_034 k)
    /\ EHT.dir_ t' = EHT.dir_ EHT.table_034
    /\ EHT.GetGlobalDepth t' = EHT.GetGlobalDepth EHT.table_034
    /\ EHT.GetNumBuckets t' = EHT.GetNumBuckets EHT.table_034
    /\ EHT.depth_ <$> EHT.heap_ t' = EHT.depth_ <$> EHT.heap_ EHT.table_034.
Proof.
  split.
  - exact table_034_reachable.
  - apply (Remove_then_Find EHT.hash_int EHT.table_034 3). exact table_034_reachable.
Defined.

(** Witness of X3: a new table with buckets of two entries, key 1. *)
Lemma Insert_without_split_witness :
  exists t',
    EHT.Insert EHT.hash_int 1 (EHT.init 2) 1 10 = Ok t'
    /\ EHT.Find EHT.hash_int t' 1 = Ok (Some 10)
    /\ (forall k, k <> 1 -> EHT.Find EHT.hash_int t' k
                           = EHT.Find EHT.hash_int (EHT.init 2) k)
    /\ EHT.dir_ t' = EHT.dir_ (EHT.init 2 : EHT.Table Z Z)
    /\ EHT.GetGlobalDepth t' = EHT.GetGlobalDepth (EHT.init 2 : EHT.Table Z Z)
    /\ EHT.GetNumBuckets t' = EHT.GetNumBuckets (EHT.init 2 : EHT.Table Z Z)
    /\ EHT.depth_ <$> EHT.heap_ t' = EHT.depth_ <$> EHT.heap_ (EHT.init 2 : EHT.Table Z Z).
Proof.
  apply (Insert_without_split EHT.hash_int (EHT.init 2) 1 10 0 0%nat
           (EHT.mkBucket 2 0 []) 0); reflexivity.
Defined.

(** *** Depths, directory and bucket count *)

Section EHT_counts.
Context {K V : Type} `{EqDecision K}.
Variable hash : K -> Z.

Lemma RedistributeBucket_heap_length (t : EHT.Table K V) bucket t' :
  EHT.RedistributeBucket hash t bucket = Ok t' ->
  length (EHT.heap_ t') = length (EHT.heap_ t).
Proof.
  intros H0. apply RedistributeBucket_depths in H0.
  by rewrite <-(length_fmap EHT.depth_), H0, length_fmap.
Qed.

Lemma RedistributeBucket_bucket_size (t : EHT.Table K V) bucket t' :
  EHT.RedistributeBucket hash t bucket = Ok t' ->
  EHT.bucket_size_ t' = EHT.bucket_size_ t.
Proof.
  intros H0. pose proof H0 as H1. unfold EHT.RedistributeBucket in H1.
  inv_bind H1 as b Hb.
  eapply (RedistributeBucket_inv hash
            (fun t0 => EHT.bucket_size_ t0 = EHT.bucket_size_ t) (fun _ => True));
    [| |exact Hb|done|done|exact H0].
  - intros t0 p tgt k v t1 Hn _ _ _ Hst.
    apply store_dir in Hst as (_ & _ & _ & ->). exact Hn.
  - intros t0 src k t1 Hn _ Hst.
    apply store_dir in Hst as (_ & _ & _ & ->). exact Hn.
Qed.

(** A split that doubles the directory raises the global depth and the
    bucket count by one; a split in place leaves both.  Either way one
    bucket is allocated. *)
Lemma split_counts (t : EHT.Table K V) idx t' :
  EHT.dir_shape t -> EHT.split hash t idx = Ok t' ->
  EHT.num_buckets_ t' - EHT.global_depth_ t'
    = EHT.num_buckets_ t - EHT.global_depth_ t
  /\ EHT.global_depth_ t <= EHT.global_depth_ t' <= EHT.global_depth_ t + 1
  /\ EHT.bucket_size_ t' = EHT.bucket_size_ t
  /\ length (EHT.heap_ t') = S (length (EHT.heap_ t)).
Proof.
  intros Hs H0.
  apply (split_Ok _ _ _ _ Hs) in H0 as (_ & a & b & _ & Hb & Hcases).
  destruct Hcases as [(_ & _ & tmp & _ & _ & H0)|[(_ & _ & _ & H0)|(_ & _ & _ & q & _ & H0)]];
    pose proof (RedistributeBucket_heap_length _ _ _ H0) as Hlen;
    pose proof (RedistributeBucket_bucket_size _ _ _ H0) as Hbs;
    apply RedistributeBucket_dir in H0 as (_ & Eg & En);
    rewrite Hlen, Eg, En, Hbs; simpl;
    rewrite ?length_insert, length_app, ?length_insert; simpl;
    repeat split; lia.
Qed.

Lemma Insert_counts fuel : forall (t : EHT.Table K V) key value t',
  EHT.dir_shape t -> EHT.Insert hash fuel t key value = Ok t' ->
  EHT.num_buckets_ t' - EHT.global_depth_ t'
    = EHT.num_buckets_ t - EHT.global_depth_ t
  /\ EHT.global_depth_ t <= EHT.global_depth_ t'
  /\ EHT.bucket_size_ t' = EHT.bucket_size_ t
  /\ (length (EHT.heap_ t) <= length (EHT.heap_ t'))%nat
  /\ Z.of_nat (length (EHT.heap_ t')) - EHT.num_buckets_ t'
     >= Z.of_nat (length (EHT.heap_ t)) - EHT.num_buckets_ t.
Proof.
  induction fuel as [|fuel IH]; intros t key value t' Hs H0; [done|].
  cbn [EHT.Insert] in H0.
  inv_bind H0 as idx Hidx. inv_bind H0 as p Hp. inv_bind H0 as b Hb.
  assert (Hstore : forall b1, EHT.store t p b1 = Ok t' ->
            EHT.num_buckets_ t' - EHT.global_depth_ t'
              = EHT.num_buckets_ t - EHT.global_depth_ t
            /\ EHT.global_depth_ t <= EHT.global_depth_ t'
            /\ EHT.bucket_size_ t' = EHT.bucket_size_ t
            /\ (length (EHT.heap_ t) <= length (EHT.heap_ t'))%nat
            /\ Z.of_nat (length (EHT.heap_ t')) - EHT.num_buckets_ t'
               >= Z.of_nat (length (EHT.heap_ t)) - EHT.num_buckets_ t).
  { intros b1 Hst. apply store_Ok in Hst as (a & -> & Ha & ->). simpl.
    rewrite length_insert. repeat split; lia. }
  destruct (EHT.Bucket_Find key b) as [tmp|]; [by eapply Hstore|].
  destruct (EHT.IsFull b); [|by eapply Hstore].
  inv_bind H0 as t1 Ht1. pose proof (split_shape _ _ _ _ Hs Ht1) as Hs1.
  apply (split_counts _ _ _ Hs) in Ht1 as (E1 & E2 & E3 & E4).
  apply (IH _ _ _ _ Hs1) in H0 as (F1 & F2 & F3 & F4 & F5).
  repeat split; lia || congruence.
Qed.

Lemma reachable_counts (t : EHT.Table K V) :
  EHT.reachable hash t ->
  EHT.num_buckets_ t = EHT.global_depth_ t + 1
  /\ EHT.num_buckets_ t <= Z.of_nat (length (EHT.heap_ t)).
Proof.
  induction 1 as [bs | fuel t key value t' Hr IH Hi | t key r t' Hr IH Hrm
                 | t key idx p b t' Hr IH _ _ _ _ _ Hsp].
  - simpl. lia.
  - apply reachable_shape in Hr. apply (Insert_counts _ _ _ _ _ Hr) in Hi. lia.
  - unfold EHT.Remove in Hrm.
    inv_bind Hrm as idx Hidx. inv_bind Hrm as p Hp. inv_bind Hrm as b Hb.
    destruct (EHT.Bucket_Remove key b) as [r0 b'].
    inv_bind Hrm as t1 Ht1. injection Hrm as _ <-.
    apply store_Ok in Ht1 as (a & -> & Ha & ->). simpl. rewrite length_insert. lia.
  - apply reachable_shape in Hr. apply (split_counts _ _ _ Hr) in Hsp. lia.
Qed.

(** X4.  In every reachable table [GetNumBuckets] is [GetGlobalDepth + 1]:
    the counter is raised when the directory doubles and at no other
    time, so it never exceeds the number of buckets allocated, and a call
    of [Insert] that returns raises it by as much as the global depth. *)
Theorem num_buckets_counts_doublings (t : EHT.Table K V) :
  EHT.reachable hash t ->
  EHT.GetNumBuckets t = EHT.GetGlobalDepth t + 1
  /\ EHT.GetNumBuckets t <= Z.of_nat (length (EHT.heap_ t))
  /\ (forall fuel key value t',
        EHT.Insert hash fuel t key value = Ok t' ->
        EHT.GetNumBuckets t' - EHT.GetNumBuckets t
          = EHT.GetGlobalDepth t' - EHT.GetGlobalDepth t
        /\ EHT.GetGlobalDepth t <= EHT.GetGlobalDepth t'
        /\ (length (EHT.heap_ t) <= length (EHT.heap_ t'))%nat).
Proof.
  intros Hr. destruct (reachable_counts t Hr) as [H1 H2].
  split; [exact H1|]. split; [exact H2|].
  intros fuel key value t' Hi. apply reachable_shape in Hr.
  apply (Insert_counts _ _ _ _ _ Hr) in Hi. unfold EHT.GetNumBuckets, EHT.GetGlobalDepth.
  repeat split; lia.
Qed.

(** X5.  In every reachable table [GetLocalDepth(i)] returns for every
    index [i] of the directory, with a depth between 0 and the global
    depth; for an index outside the directory the access is out of
    bounds. *)
Theorem GetLocalDepth_in_range (t : EHT.Table K V) (i : Z) :
  EHT.reachable hash t ->
  if bool_decide (0 <= i < Z.of_nat (length (EHT.dir_ t)))
  then exists d, EHT.GetLocalDepth t i = Ok d /\ 0 <= d <= EHT.GetGlobalDepth t
  else EHT.GetLocalDepth t i = Fault.
Proof.
  intros Hr. pose proof (reachable_shape _ _ Hr) as Hs.
  pose proof (reachable_ptrs _ _ Hr) as Hp.
  pose proof (reachable_depths_ok _ _ Hr) as Hd. pose proof Hs as [Hg Hlen].
  case_bool_decide as Hi.
  - destruct (dir_at_returns t i Hs Hp) as (a & Hat & _ & Ha); [lia|].
    destruct (deref_returns t a Ha) as (b & Hb & Hhb).
    exists (EHT.depth_ b). split.
    + unfold EHT.GetLocalDepth. rewrite Hat. ok_step. by rewrite Hb.
    + by apply (depths_ok_lookup t a b).
  - unfold EHT.GetLocalDepth, vec_at. case_bool_decide as Hi0; [|done].
    rewrite lookup_ge_None_2 by lia. done.
Qed.

Lemma DoubleDir_returns (t : EHT.Table K V) idx :
  EHT.dir_shape t -> 0 <= idx < 2 ^ EHT.global_depth_ t ->
  EHT.global_depth_ t < 30 -> returns (EHT.DoubleDir t idx).
Proof.
  intros [Hg Hlen] Hidx Hlt. unfold EHT.DoubleDir.
  rewrite !shl1_pow by lia. ok_step.
  destruct (pow2_double (EHT.global_depth_ t)) as [Hpow Hpos]; [lia|].
  destruct (copy_loop_returns (EHT.dir_ t) (2 ^ EHT.global_depth_ t)
              (Z.to_nat (2 ^ EHT.global_depth_ t))
              (replicate (Z.to_nat (2 ^ (EHT.global_depth_ t + 1))) None))
    as [tmp Htmp]; [lia|lia|rewrite length_replicate; lia|].
  rewrite Htmp. ok_step. cbn [EHT.alloc EHT.set_dir EHT.set_heap EHT.dir_
    EHT.heap_ EHT.global_depth_ EHT.bucket_size_ EHT.num_buckets_].
  apply copy_loop_length in Htmp. rewrite length_replicate in Htmp.
  rewrite vec_set_returns by lia. by eexists.
Qed.

(** X6.  [DoubleDir(idx)] on a directory of [2^global_depth_] slots, for a
    slot [idx] of it: below depth 30 it returns; the directory has twice
    the length, each half holds the old directory, but for slot
    [idx + 2^global_depth_], which holds a new empty bucket of the new
    depth; the global depth and the bucket count go up by one.  At depth
    30 the shift [1 << 31] overflows. *)
Theorem DoubleDir_mirrors (t : EHT.Table K V) (idx : Z) :
  EHT.dir_shape t -> 0 <= idx < 2 ^ EHT.global_depth_ t ->
  if bool_decide (EHT.global_depth_ t < 30) then
    exists t',
      EHT.DoubleDir t idx = Ok t'
      /\ EHT.GetGlobalDepth t' = EHT.GetGlobalDepth t + 1
      /\ EHT.GetNumBuckets t' = EHT.GetNumBuckets t + 1
      /\ length (EHT.dir_ t') = (2 * length (EHT.dir_ t))%nat
      /\ EHT.heap_ t'
         = EHT.heap_ t ++ [EHT.mkBucket (EHT.bucket_size_ t)
                             (EHT.global_depth_ t + 1) []]
      /\ (forall i : nat, (i < length (EHT.dir_ t))%nat ->
            EHT.dir_ t' !! i = EHT.dir_ t !! i
            /\ EHT.dir_ t' !! (i + length (EHT.dir_ t))%nat
               = if decide (Z.of_nat i = idx)
                 then Some (Some (length (EHT.heap_ t)))
                 else EHT.dir_ t !! i)
  else EHT.DoubleDir t idx = Overflow.
Proof.
  intros Hs Hidx. pose proof Hs as [Hg Hlen].
  destruct (pow2_double (EHT.global_depth_ t)) as [Hpow Hpos]; [lia|].
  case_bool_decide as Hlt.
  - destruct (DoubleDir_returns t idx Hs Hidx Hlt) as [t' Ht'].
    + exists t'. split; [exact Ht'|].
      apply (DoubleDir_dir _ _ _ Hs) in Ht' as (_ & _ & tmp & Hlt' & Htmp & ->).
      simpl. split; [done|]. split; [done|].
      split; [rewrite length_insert; lia|]. split; [done|].
      intros i Hi. destruct (Htmp i) as [E1 E2]; [lia|]. split.
      * rewrite list_lookup_insert_ne by lia. exact E1.
      * replace (i + length (EHT.dir_ t))%nat
          with (Z.to_nat (Z.of_nat i + 2 ^ EHT.global_depth_ t)) by lia.
        case_decide as Hii.
        -- subst idx. apply list_lookup_insert_eq. lia.
        -- rewrite list_lookup_insert_ne by lia. exact E2.
  - unfold EHT.DoubleDir, shl1.
    by rewrite (bool_decide_eq_false_2 (0 <= EHT.global_depth_ t + 1 <= 30)) by lia.
Qed.

End EHT_counts.

(** Witness of X4: the table after three inserts. *)
Lemma num_buckets_counts_doublings_witness :
  EHT.reachable EHT.hash_int EHT.table_034 /\
  (EHT.GetNumBuckets EHT.table_034 = EHT.GetGlobalDepth EHT.table_034 + 1
   /\ EHT.GetNumBuckets EHT.table_034 <= Z.of_nat (length (EHT.heap_ EHT.table_034))
   /\ (forall fuel key value t',
         EHT.Insert EHT.hash_int fuel EHT.table_034 key value = Ok t' ->
         EHT.GetNumBuckets t' - EHT.GetNumBuckets EHT.table_034
           = EHT.GetGlobalDepth t' - EHT.GetGlobalDepth EHT.table_034
         /\ EHT.GetGlobalDepth EHT.table_034 <= EHT.GetGlobalDepth t'
         /\ (length (EHT.heap_ EHT.table_034) <= length (EHT.heap_ t'))%nat)).
Proof.
  split.
  - exact table_034_reachable.
  - apply (num_buckets_counts_doublings EHT.hash_int EHT.table_034).
    exact table_034_reachable.
Defined.

(** Witness of X5: slot 5 of the table after three inserts. *)
Lemma GetLocalDepth_in_range_witness :
  EHT.reachable EHT.hash_int EHT.table_034 /\
  (if bool_decide (0 <= 5 < Z.of_nat (length (EHT.dir_ EHT.table_034)))
   then exists d, EHT.GetLocalDepth EHT.table_034 5 = Ok d
          /\ 0 <= d <= EHT.GetGlobalDepth EHT.table_034
   else EHT.GetLocalDepth EHT.table_034 5 = Fault).
Proof.
  split.
  - exact table_034_reachable.
  - apply (GetLocalDepth_in_range EHT.hash_int EHT.table_034 5).
    exact table_034_reachable.
Defined.

(** Witness of X6: slot 3 of the table after three inserts. *)
Lemma DoubleDir_mirrors_witness :
  if bool_decide (EHT.global_depth_ EHT.table_034 < 30) then
    exists t',
      EHT.DoubleDir EHT.table_034 3 = Ok t'
      /\ EHT.GetGlobalDepth t' = EHT.GetGlobalDepth EHT.table_034 + 1
      /\ EHT.GetNumBuckets t' = EHT.GetNumBuckets EHT.table_034 + 1
      /\ length (EHT.dir_ t') = (2 * length (EHT.dir_ EHT.table_034))%nat
      /\ EHT.heap_ t'
         = EHT.heap_ EHT.table_034
           ++ [EHT.mkBucket (EHT.bucket_size_ EHT.table_034)
                 (EHT.global_depth_ EHT.table_034 + 1) []]
      /\ (forall i : nat, (i < length (EHT.dir_ EHT.table_034))%nat ->
            EHT.dir_ t' !! i = EHT.dir_ EHT.table_034 !! i
            /\ EHT.dir_ t' !! (i + length (EHT.dir_ EHT.table_034))%nat
               = if decide (Z.of_nat i = 3)
                 then Some (Some (length (EHT.heap_ EHT.table_034)))
                 else EHT.dir_ EHT.table_034 !! i)
  else EHT.DoubleDir EHT.table_034 3 = Overflow.
Proof.
  apply (DoubleDir_mirrors EHT.table_034 3).
  - split; simpl; lia.
  - simpl. lia.
Defined.

(** *** The upper half of the directory *)

Section EHT_mirror.
Context {K V : Type} `{EqDecision K}.
Variable hash : K -> Z.

Lemma mirror_ok_ext (t t1 : EHT.Table K V) :
  EHT.dir_ t1 = EHT.dir_ t -> EHT.global_depth_ t1 = EHT.global_depth_ t ->
  EHT.depth_ <$> EHT.heap_ t1 = EHT.depth_ <$> EHT.heap_ t ->
  EHT.mirror_ok t -> EHT.mirror_ok t1.
Proof. unfold EHT.mirror_ok. by intros -> -> ->. Qed.

Lemma store_mirror (t : EHT.Table K V) p b0 b t' :
  EHT.deref t p = Ok b0 -> EHT.depth_ b = EHT.depth_ b0 ->
  EHT.store t p b = Ok t' -> EHT.mirror_ok t -> EHT.mirror_ok t'.
Proof.
  intros Hd Hdep Hs. pose proof (store_depths _ _ _ _ _ Hd Hdep Hs) as Hdepths.
  apply store_dir in Hs as (E1 & E2 & _). by apply mirror_ok_ext.
Qed.

Lemma RedistributeBucket_mirror (t : EHT.Table K V) bucket t' :
  EHT.RedistributeBucket hash t bucket = Ok t' ->
  EHT.mirror_ok t -> EHT.mirror_ok t'.
Proof.
  intros H0. pose proof (RedistributeBucket_depths _ _ _ _ H0) as Hdepths.
  apply RedistributeBucket_dir in H0 as (E1 & E2 & _). by apply mirror_ok_ext.
Qed.

(** The depths of the buckets of the tables handed to
    [RedistributeBucket]. *)
Lemma split_doubled_depths (t : EHT.Table K V) idx a b tmp :
  EHT.heap_ t !! a = Some b ->
  (EHT.depth_ <$> EHT.heap_ (EHT.split_doubled t idx a b tmp)) !! a
    = Some (EHT.depth_ b + 1)
  /\ (EHT.depth_ <$> EHT.heap_ (EHT.split_doubled t idx a b tmp))
       !! length (EHT.heap_ t) = Some (EHT.global_depth_ t + 1).
Proof.
  intros Hb. pose proof (lookup_lt_Some _ _ _ Hb) as Ha.
  unfold EHT.split_doubled. simpl. rewrite !list_lookup_fmap. split.
  - rewrite list_lookup_insert_eq by (rewrite length_app; lia). done.
  - rewrite list_lookup_insert_ne by lia.
    rewrite lookup_app_r by lia. by rewrite Nat.sub_diag.
Qed.

Lemma split_placed_depths (t : EHT.Table K V) slot a b :
  EHT.heap_ t !! a = Some b ->
  (EHT.depth_ <$> EHT.heap_ (EHT.split_placed t slot a b)) !! a
    = Some (EHT.depth_ b + 1)
  /\ (EHT.depth_ <$> EHT.heap_ (EHT.split_placed t slot a b))
       !! length (EHT.heap_ t) = Some (EHT.global_depth_ t)
  /\ (forall x, x <> a -> (x < length (EHT.heap_ t))%nat ->
        (EHT.depth_ <$> EHT.heap_ (EHT.split_placed t slot a b)) !! x
        = (EHT.depth_ <$> EHT.heap_ t) !! x).
Proof.
  intros Hb. pose proof (lookup_lt_Some _ _ _ Hb) as Ha.
  unfold EHT.split_placed. simpl. split; [|split].
  - rewrite list_lookup_fmap, lookup_app_l by (rewrite length_insert; lia).
    rewrite list_lookup_insert_eq by done. done.
  - rewrite list_lookup_fmap, lookup_app_r by (rewrite length_insert; lia).
    rewrite length_insert, Nat.sub_diag. done.
  - intros x Hx Hlt.
    rewrite !list_lookup_fmap, lookup_app_l by (rewrite length_insert; lia).
    by rewrite list_lookup_insert_ne.
Qed.

Lemma split_doubled_mirror (t : EHT.Table K V) idx a b tmp :
  0 <= EHT.global_depth_ t -> 0 <= idx < 2 ^ EHT.global_depth_ t ->
  EHT.heap_ t !! a = Some b ->
  Z.of_nat (length tmp) = 2 ^ (EHT.global_depth_ t + 1) ->
  (forall i : nat, Z.of_nat i < 2 ^ EHT.global_depth_ t ->
     tmp !! i = EHT.dir_ t !! i
     /\ tmp !! Z.to_nat (Z.of_nat i + 2 ^ EHT.global_depth_ t) = EHT.dir_ t !! i) ->
  EHT.mirror_ok (EHT.split_doubled t idx a b tmp).
Proof.
  intros Hg Hidx Hb Hlen Htmp i Hi.
  destruct (split_doubled_depths t idx a b tmp Hb) as [_ Hnew].
  destruct (pow2_double (EHT.global_depth_ t) Hg) as [Hpow Hpos].
  cbn [EHT.split_doubled EHT.global_depth_ EHT.dir_] in *.
  replace (EHT.global_depth_ t + 1 - 1) with (EHT.global_depth_ t) in * by lia.
  destruct (decide (i = Z.to_nat (idx + 2 ^ EHT.global_depth_ t))) as [->|Hne].
  - right. exists (length (EHT.heap_ t)). split; [|exact Hnew].
    apply list_lookup_insert_eq. lia.
  - left. rewrite !list_lookup_insert_ne by lia.
    destruct (Htmp (i - Z.to_nat (2 ^ EHT.global_depth_ t))%nat) as [E1 E2]; [lia|].
    rewrite E1, <-E2. f_equal. lia.
Qed.

Lemma split_placed_mirror (t : EHT.Table K V) slot a b :
  EHT.dir_shape t -> EHT.mirror_ok t -> 1 <= EHT.global_depth_ t ->
  EHT.heap_ t !! a = Some b -> EHT.depth_ b <> EHT.global_depth_ t ->
  (forall i p, EHT.dir_ t !! i = Some (Some p) -> (p < length (EHT.heap_ t))%nat) ->
  2 ^ (EHT.global_depth_ t - 1) <= slot < 2 ^ EHT.global_depth_ t ->
  EHT.mirror_ok (EHT.split_placed t slot a b).
Proof.
  intros [Hg Hlen] Hm Hg1 Hb Hdep Hptr Hslot i Hi.
  destruct (split_placed_depths t slot a b Hb) as (_ & Hnew & Hother).
  destruct (pow2_half (EHT.global_depth_ t) Hg1) as [Hpow Hpos].
  cbn [EHT.split_placed EHT.global_depth_ EHT.dir_] in *.
  destruct (decide (i = Z.to_nat slot)) as [->|Hne].
  - right. exists (length (EHT.heap_ t)). split; [|exact Hnew].
    apply list_lookup_insert_eq. lia.
  - rewrite !list_lookup_insert_ne by lia.
    destruct (Hm i Hi) as [Hl|(x & Hx & Hdx)]; [by left|].
    right. exists x. split; [exact Hx|].
    rewrite Hother; [exact Hdx| |by eapply Hptr].
    intros ->. rewrite list_lookup_fmap, Hb in Hdx. simpl in Hdx. congruence.
Qed.

Lemma ptrs_ok_lt (t : EHT.Table K V) :
  EHT.ptrs_ok t ->
  forall i p, EHT.dir_ t !! i = Some (Some p) -> (p < length (EHT.heap_ t))%nat.
Proof. intros Hp i p Hi. destruct (Hp i _ Hi) as (a & [= <-] & Ha). exact Ha. Qed.

Lemma split_mirror (t : EHT.Table K V) idx t' :
  EHT.dir_shape t -> EHT.ptrs_ok t -> EHT.mirror_ok t ->
  EHT.split hash t idx = Ok t' -> EHT.mirror_ok t'.
Proof.
  intros Hs Hp Hm H0. pose proof Hs as [Hg Hlen].
  apply (split_Ok _ _ _ _ Hs) in H0 as (Hidx & a & b & Hl & Hb & Hcases).
  destruct Hcases as [(Hd & Hg1 & tmp & Hlt & Htmp & H0)
                     |[(Hd & Hg1 & Hlo & H0)|(Hd & Hg1 & Hhi & q & Hq & H0)]];
    (eapply RedistributeBucket_mirror; [exact H0|]).
  - apply split_doubled_mirror; [lia|done..].
  - destruct (pow2_half _ Hg1) as [Hpow Hpos].
    apply split_placed_mirror; [done..|by apply ptrs_ok_lt|lia].
  - apply split_placed_mirror; [done..|by apply ptrs_ok_lt|lia].
Qed.

Lemma Insert_mirror fuel : forall (t : EHT.Table K V) key value t',
  EHT.dir_shape t -> EHT.ptrs_ok t -> EHT.mirror_ok t ->
  EHT.Insert hash fuel t key value = Ok t' -> EHT.mirror_ok t'.
Proof.
  induction fuel as [|fuel IH]; intros t key value t' Hs Hp Hm H0; [done|].
  cbn [EHT.Insert] in H0.
  inv_bind H0 as idx Hidx. inv_bind H0 as p Hpp. inv_bind H0 as b Hb.
  destruct (EHT.Bucket_Find key b) as [tmp|].
  - eapply store_mirror; [exact Hb|apply Bucket_Insert_depth|exact H0|exact Hm].
  - destruct (EHT.IsFull b).
    + inv_bind H0 as t1 Ht1. eapply IH; [| | |exact H0].
      * by eapply split_shape.
      * by eapply split_ptrs.
      * by eapply split_mirror.
    + eapply store_mirror; [exact Hb|apply Bucket_Insert_depth|exact H0|exact Hm].
Qed.

Lemma Remove_mirror (t : EHT.Table K V) key r t' :
  EHT.mirror_ok t -> EHT.Remove hash t key = Ok (r, t') -> EHT.mirror_ok t'.
Proof.
  intros Hm. unfold EHT.Remove. intros H0.
  inv_bind H0 as idx Hidx. inv_bind H0 as p Hp. inv_bind H0 as b Hb.
  pose proof (Bucket_Remove_depth key b) as Hdep.
  destruct (EHT.Bucket_Remove key b) as [r0 b'].
  inv_bind H0 as t1 Ht1. injection H0 as _ <-.
  eapply store_mirror; [exact Hb|exact Hdep|exact Ht1|exact Hm].
Qed.

Lemma reachable_mirror (t : EHT.Table K V) :
  EHT.reachable hash t -> EHT.mirror_ok t.
Proof.
  induction 1 as [bs | fuel t key value t' Hr IH Hi | t key r t' _ IH Hr
                 | t key idx p b t' Hr IH _ _ _ _ _ Hs].
  - intros i Hi. left. simpl in *. f_equal.
    change (2 ^ (0 - 1)) with 0. lia.
  - eapply Insert_mirror; [| |exact IH|exact Hi].
    + by apply reachable_shape in Hr.
    + by apply reachable_ptrs in Hr.
  - by eapply Remove_mirror.
  - eapply split_mirror; [| |exact IH|exact Hs].
    + by apply reachable_shape in Hr.
    + by apply reachable_ptrs in Hr.
Qed.

End EHT_mirror.

(** *** Where a key is looked up after a split *)

Section EHT_routes.
Context {K V : Type} `{EqDecision K}.
Variable hash : K -> Z.

Lemma land_mask_mod h g : 0 <= g -> Z.land h (2 ^ g - 1) = h mod 2 ^ g.
Proof.
  intros Hg. replace (2 ^ g - 1) with (Z.ones g) by (rewrite Z.ones_equiv; lia).
  by apply Z.land_ones.
Qed.

(** One more bit of the hash either leaves the index or adds [2^g]. *)
Lemma land_mask_succ h g :
  0 <= g ->
  Z.land h (2 ^ (g + 1) - 1) = Z.land h (2 ^ g - 1)
  \/ Z.land h (2 ^ (g + 1) - 1) = Z.land h (2 ^ g - 1) + 2 ^ g.
Proof.
  intros Hg. rewrite !land_mask_mod by lia.
  destruct (pow2_double g Hg) as [Hpow Hpos].
  rewrite Hpow, (Z.mul_comm 2), Z.rem_mul_r by lia.
  pose proof (Z.mod_pos_bound (h / 2 ^ g) 2) as Hy.
  assert (Hcase : (h / 2 ^ g) mod 2 = 0 \/ (h / 2 ^ g) mod 2 = 1) by lia.
  destruct Hcase as [-> | ->]; [left|right]; lia.
Qed.

Lemma IndexOf_Ok (t : EHT.Table K V) key idx :
  EHT.IndexOf hash t key = Ok idx ->
  0 <= EHT.global_depth_ t <= 30
  /\ idx = Z.land (hash key) (2 ^ EHT.global_depth_ t - 1).
Proof.
  unfold EHT.IndexOf. intros H0. inv_bind H0 as m Hm.
  apply shl1_Ok in Hm as [Hg ->]. by injection H0 as <-.
Qed.

(** After [RedistributeBucket] the key is looked up where the directory
    sent it before, in a bucket of the same depth; a key that neither that
    bucket nor the redistributed one held is still not there. *)
Lemma Redistribute_routes (t2 : EHT.Table K V) a2 key idx' x d t' :
  EHT.RedistributeBucket hash t2 (Some a2) = Ok t' ->
  0 <= EHT.global_depth_ t2 <= 30 ->
  Z.land (hash key) (2 ^ EHT.global_depth_ t2 - 1) = idx' ->
  EHT.dir_ t2 !! Z.to_nat idx' = Some (Some x) ->
  (EHT.depth_ <$> EHT.heap_ t2) !! x = Some d ->
  exists bx,
    EHT.IndexOf hash t' key = Ok idx'
    /\ vec_at (EHT.dir_ t') idx' = Ok (Some x)
    /\ EHT.heap_ t' !! x = Some bx /\ EHT.depth_ bx = d
    /\ ((forall b2, EHT.heap_ t2 !! a2 = Some b2 -> EHT.Bucket_Find key b2 = None) ->
        (forall b0, EHT.heap_ t2 !! x = Some b0 -> EHT.Bucket_Find key b0 = None) ->
        EHT.Bucket_Find key bx = None).
Proof.
  intros H0 Hg <- Hx Hd.
  pose proof (RedistributeBucket_depths _ _ _ _ H0) as Hdepths.
  pose proof (RedistributeBucket_dir _ _ _ _ H0) as (Edir & Eg & _).
  rewrite <-Hdepths in Hd. apply list_lookup_fmap_Some_1 in Hd as (bx & -> & Hbx).
  exists bx. split; [|split; [|split; [done|split; [done|]]]].
  - unfold EHT.IndexOf. rewrite Eg, shl1_pow by done. done.
  - rewrite Edir. apply vec_at_lookup; [|done].
    apply land_mask_bounds. lia.
  - intros Ha2 Hx0. pose proof H0 as H1. unfold EHT.RedistributeBucket in H1.
    inv_bind H1 as b2 Hb2. clear H1.
    assert (Hb2' : EHT.heap_ t2 !! a2 = Some b2).
    { unfold EHT.deref in Hb2. by destruct (EHT.heap_ t2 !! a2) as [?|]; simplify_eq. }
    refine (RedistributeBucket_inv hash
              (fun t0 => forall b0, EHT.heap_ t0 !! x = Some b0 ->
                                    EHT.Bucket_Find key b0 = None)
              (fun k => k <> key) t2 (Some a2) b2 t' _ _ Hb2 _ Hx0 H0 bx Hbx).
    + intros t0 p tgt k v t1 HP Hk Htgt _ Hst b0 Hb0.
      apply store_Ok in Hst as (a' & -> & Ha' & ->). cbn [EHT.set_heap EHT.heap_] in Hb0.
      destruct (decide (a' = x)) as [->|Hne].
      * rewrite list_lookup_insert_eq in Hb0 by done. injection Hb0 as <-.
        apply Bucket_Insert_absent; [done|]. apply HP.
        unfold EHT.deref in Htgt. by destruct (EHT.heap_ t0 !! x) as [?|]; simplify_eq.
      * rewrite list_lookup_insert_ne in Hb0 by done. by apply HP.
    + intros t0 src k t1 HP Hsrc Hst b0 Hb0.
      apply store_Ok in Hst as (a' & [= <-] & Ha' & ->).
      cbn [EHT.set_heap EHT.heap_] in Hb0.
      destruct (decide (a2 = x)) as [->|Hne].
      * rewrite list_lookup_insert_eq in Hb0 by done. injection Hb0 as <-.
        apply Bucket_Remove_absent. apply HP.
        unfold EHT.deref in Hsrc. by destruct (EHT.heap_ t0 !! x) as [?|]; simplify_eq.
      * rewrite list_lookup_insert_ne in Hb0 by done. by apply HP.
    + intros [k v] Hkv. simpl. eapply find_None_not_in; [|exact Hkv].
      by apply Ha2.
Qed.

Lemma split_doubled_heap (t : EHT.Table K V) idx a b tmp :
  EHT.heap_ t !! a = Some b ->
  EHT.heap_ (EHT.split_doubled t idx a b tmp) !! a = Some (EHT.IncrementDepth b)
  /\ EHT.heap_ (EHT.split_doubled t idx a b tmp) !! length (EHT.heap_ t)
     = Some (EHT.mkBucket (EHT.bucket_size_ t) (EHT.global_depth_ t + 1) []).
Proof.
  intros Hb. pose proof (lookup_lt_Some _ _ _ Hb) as Ha.
  unfold EHT.split_doubled. simpl. split.
  - rewrite list_lookup_insert_eq by (rewrite length_app; lia). done.
  - rewrite list_lookup_insert_ne by lia.
    rewrite lookup_app_r by lia. by rewrite Nat.sub_diag.
Qed.

Lemma split_placed_heap (t : EHT.Table K V) slot a b :
  EHT.heap_ t !! a = Some b ->
  EHT.heap_ (EHT.split_placed t slot a b) !! a = Some (EHT.IncrementDepth b)
  /\ EHT.heap_ (EHT.split_placed t slot a b) !! length (EHT.heap_ t)
     = Some (EHT.mkBucket (EHT.bucket_size_ t) (EHT.global_depth_ t) []).
Proof.
  intros Hb. pose proof (lookup_lt_Some _ _ _ Hb) as Ha.
  unfold EHT.split_placed. simpl. split.
  - rewrite lookup_app_l by (rewrite length_insert; lia).
    rewrite list_lookup_insert_eq by done. done.
  - rewrite lookup_app_r by (rewrite length_insert; lia).
    rewrite length_insert, Nat.sub_diag. done.
Qed.

(** After a split of the bucket [b] that [key] was looked up in, [key] is
    looked up in a bucket of greater depth: [b] itself, one level deeper,
    or the new bucket.  If [b] did not hold [key], that bucket does not
    hold it either. *)
Lemma split_routes (t : EHT.Table K V) key idx t' :
  EHT.dir_shape t -> EHT.depths_ok t -> EHT.mirror_ok t ->
  EHT.IndexOf hash t key = Ok idx -> EHT.split hash t idx = Ok t' ->
  exists a b x bx idx',
    EHT.dir_ t !! Z.to_nat idx = Some (Some a) /\ EHT.heap_ t !! a = Some b
    /\ EHT.IndexOf hash t' key = Ok idx'
    /\ vec_at (EHT.dir_ t') idx' = Ok (Some x)
    /\ EHT.heap_ t' !! x = Some bx
    /\ EHT.depth_ b + 1 <= EHT.depth_ bx
    /\ (EHT.Bucket_Find key b = None -> EHT.Bucket_Find key bx = None).
Proof.
  intros Hs Hd Hm Hidx H0. pose proof Hs as [Hg Hlen].
  apply IndexOf_Ok in Hidx as [_ Hidx].
  apply (split_Ok _ _ _ _ Hs) in H0 as (Hrange & a & b & Hl & Hb & Hcases).
  pose proof (depths_ok_lookup _ _ _ Hd Hb) as Hdb.
  exists a, b.
  assert (Hfin : forall t2 a2 idx' x d,
            EHT.RedistributeBucket hash t2 (Some a2) = Ok t' ->
            0 <= EHT.global_depth_ t2 <= 30 ->
            Z.land (hash key) (2 ^ EHT.global_depth_ t2 - 1) = idx' ->
            EHT.dir_ t2 !! Z.to_nat idx' = Some (Some x) ->
            (EHT.depth_ <$> EHT.heap_ t2) !! x = Some d ->
            EHT.depth_ b + 1 <= d ->
            (EHT.Bucket_Find key b = None ->
             (forall b2, EHT.heap_ t2 !! a2 = Some b2 -> EHT.Bucket_Find key b2 = None)
             /\ (forall b0, EHT.heap_ t2 !! x = Some b0 -> EHT.Bucket_Find key b0 = None)) ->
            exists x bx idx',
              EHT.dir_ t !! Z.to_nat idx = Some (Some a) /\ EHT.heap_ t !! a = Some b
              /\ EHT.IndexOf hash t' key = Ok idx'
              /\ vec_at (EHT.dir_ t') idx' = Ok (Some x)
              /\ EHT.heap_ t' !! x = Some bx
              /\ EHT.depth_ b + 1 <= EHT.depth_ bx
              /\ (EHT.Bucket_Find key b = None -> EHT.Bucket_Find key bx = None)).
  { intros t2 a2 idx' x d Hred Hg2 Hi' Hx Hdx Hle Habs.
    destruct (Redistribute_routes t2 a2 key idx' x d t' Hred Hg2 Hi' Hx Hdx)
      as (bx & E1 & E2 & E3 & E4 & E5).
    exists x, bx, idx'. repeat (split; [done|]). split; [lia|].
    intros Hnone. destruct (Habs Hnone) as [H1 H2]. by apply E5. }
  destruct Hcases as [(Hdg & Hg1 & tmp & Hlt & Htmp & H0)
                     |[(Hdg & Hg1 & Hlo & H0)|(Hdg & Hg1 & Hhi & q & Hq & H0)]].
  - destruct (pow2_double (EHT.global_depth_ t)) as [Hpow Hpos]; [lia|].
    destruct (split_doubled_depths t idx a b tmp Hb) as [Hda HdL].
    destruct (split_doubled_heap t idx a b tmp Hb) as [Hha HhL].
    destruct (land_mask_succ (hash key) (EHT.global_depth_ t)) as [Hsame|Hup]; [lia| |].
    + apply (Hfin _ a idx a (EHT.depth_ b + 1) H0); [simpl; lia|simpl; lia| |done|lia|].
      * simpl. rewrite list_lookup_insert_ne by lia.
        destruct (Htmp (Z.to_nat idx)) as [-> _]; [lia|done].
      * intros Hnone. split; intros b2 Hb2; rewrite Hha in Hb2; by injection Hb2 as <-.
    + apply (Hfin _ a (idx + 2 ^ EHT.global_depth_ t) (length (EHT.heap_ t))
               (EHT.global_depth_ t + 1) H0);
        [simpl; lia|simpl; lia| |done|lia|].
      * simpl. apply list_lookup_insert_eq. lia.
      * intros Hnone. split; intros b2 Hb2.
        -- rewrite Hha in Hb2. by injection Hb2 as <-.
        -- rewrite HhL in Hb2. by injection Hb2 as <-.
  - destruct (pow2_half _ Hg1) as [Hpow Hpos].
    destruct (split_placed_depths t (idx + 2 ^ (EHT.global_depth_ t - 1)) a b Hb)
      as (Hda & HdL & _).
    destruct (split_placed_heap t (idx + 2 ^ (EHT.global_depth_ t - 1)) a b Hb)
      as [Hha HhL].
    apply (Hfin _ a idx a (EHT.depth_ b + 1) H0); [simpl; lia|simpl; lia| |done|lia|].
    + simpl. by rewrite list_lookup_insert_ne by lia.
    + intros Hnone. split; intros b2 Hb2; rewrite Hha in Hb2; by injection Hb2 as <-.
  - destruct (pow2_half _ Hg1) as [Hpow Hpos].
    destruct (split_placed_depths t idx a b Hb) as (Hda & HdL & _).
    destruct (split_placed_heap t idx a b Hb) as [Hha HhL].
    assert (Hqa : q = Some a).
    { destruct (Hm (Z.to_nat idx)) as [Hmir|(x0 & Hx0 & Hdx0)]; [lia| |].
      - replace (Z.to_nat idx - Z.to_nat (2 ^ (EHT.global_depth_ t - 1)))%nat
          with (Z.to_nat (idx - 2 ^ (EHT.global_depth_ t - 1))) in Hmir by lia.
        rewrite Hl, Hq in Hmir. by injection Hmir as <-.
      - rewrite Hl in Hx0. injection Hx0 as <-.
        rewrite list_lookup_fmap, Hb in Hdx0. simpl in Hdx0. congruence. }
    subst q.
    apply (Hfin _ a idx (length (EHT.heap_ t)) (EHT.global_depth_ t) H0);
      [simpl; lia|simpl; lia| |done|lia|].
    + simpl. apply list_lookup_insert_eq. lia.
    + intros Hnone. split; intros b2 Hb2.
      * rewrite Hha in Hb2. by injection Hb2 as <-.
      * rewrite HhL in Hb2. by injection Hb2 as <-.
Qed.

End EHT_routes.

(** *** [Insert]: how it ends, and what [Find] yields afterwards *)

Section EHT_insert.
Context {K V : Type} `{EqDecision K}.
Variable hash : K -> Z.

(** The retries of [Insert] are bounded by the depth left for the bucket
    of the key: each split sends the key to a deeper bucket. *)
Lemma Insert_ends_gen fuel : forall (t : EHT.Table K V) key value,
  EHT.dir_shape t -> EHT.ptrs_ok t -> EHT.depths_ok t -> EHT.mirror_ok t ->
  (forall idx a b,
     EHT.IndexOf hash t key = Ok idx ->
     EHT.dir_ t !! Z.to_nat idx = Some (Some a) -> EHT.heap_ t !! a = Some b ->
     31 - EHT.depth_ b < Z.of_nat fuel) ->
  EHT.Insert hash fuel t key value <> NoFuel.
Proof.
  induction fuel as [|fuel IH]; intros t key value Hs Hp Hd Hm Hbound;
    pose proof Hs as [Hg Hlen];
    destruct (IndexOf_returns hash t key Hs) as (idx & Hidx & Hrange);
    destruct (dir_at_returns t idx Hs Hp Hrange) as (a & Hat & Hl & Ha);
    destruct (deref_returns t a Ha) as (b & Hb & Hhb);
    pose proof (depths_ok_lookup _ _ _ Hd Hhb) as Hdb;
    specialize (Hbound idx a b Hidx Hl Hhb).
  - lia.
  - cbn [EHT.Insert]. rewrite Hidx. ok_step. rewrite Hat. ok_step.
    rewrite Hb. ok_step.
    destruct (EHT.Bucket_Find key b) as [tmp|]; [by rewrite store_returns|].
    destruct (EHT.IsFull b); [|by rewrite store_returns].
    destruct (split_no_fault hash t idx Hs Hp Hd Hrange) as [[t1 Ht1]| ->]; [|done].
    rewrite Ht1. ok_step.
    destruct (split_routes hash t key idx t1 Hs Hd Hm Hidx Ht1)
      as (a0 & b0 & x & bx & idx' & Hl0 & Hb0 & Hidx' & Hat' & Hbx & Hle & _).
    rewrite Hl in Hl0. injection Hl0 as <-. rewrite Hhb in Hb0. injection Hb0 as <-.
    apply IH.
    + by eapply split_shape.
    + by eapply split_ptrs.
    + by eapply split_depths_ok.
    + by eapply split_mirror.
    + intros idx1 a1 b1 Hidx1 Hl1 Hb1. rewrite Hidx' in Hidx1. injection Hidx1 as <-.
      apply vec_at_Ok in Hat' as [_ Hat']. rewrite Hat' in Hl1. injection Hl1 as <-.
      rewrite Hbx in Hb1. injection Hb1 as <-. lia.
Qed.

(** X7.  On every reachable table a call of [Insert] ends after at most 31
    splits: with a recursion budget of 32 the model's [Insert] returns a
    table or stops at the overflow of [1 << (global_depth_ + 1)] in
    [DoubleDir]; it neither runs out of budget nor accesses the directory
    or a bucket out of bounds. *)
Theorem Insert_ends (t : EHT.Table K V) (key : K) (value : V) (fuel : nat) :
  EHT.reachable hash t -> (32 <= fuel)%nat ->
  returns (EHT.Insert hash fuel t key value)
  \/ EHT.Insert hash fuel t key value = Overflow.
Proof.
  intros Hr Hfuel.
  pose proof (reachable_shape _ _ Hr) as Hs. pose proof (reachable_ptrs _ _ Hr) as Hp.
  pose proof (reachable_depths_ok _ _ Hr) as Hd.
  pose proof (reachable_mirror _ _ Hr) as Hm.
  pose proof (Insert_no_fault hash fuel t key value Hs Hp Hd) as Hnf.
  assert (Hne : EHT.Insert hash fuel t key value <> NoFuel).
  { apply Insert_ends_gen; [done..|]. intros idx a b _ _ Hb.
    pose proof (depths_ok_lookup _ _ _ Hd Hb). lia. }
  destruct (EHT.Insert hash fuel t key value) as [t'| | |]; [left; by eexists|done|by right|done].
Qed.

Lemma Insert_Find_gen fuel : forall (t : EHT.Table K V) key value t',
  EHT.dir_shape t -> EHT.ptrs_ok t -> EHT.depths_ok t -> EHT.mirror_ok t ->
  EHT.Insert hash fuel t key value = Ok t' ->
  exists o, EHT.Find hash t key = Ok o
    /\ EHT.Find hash t' key = Ok (Some (default value o))
    /\ (is_Some o -> t' = t).
Proof.
  induction fuel as [|fuel IH]; intros t key value t' Hs Hp Hd Hm H0; [done|].
  pose proof H0 as Hrun. cbn [EHT.Insert] in H0.
  inv_bind H0 as idx Hidx. inv_bind H0 as p Hat. inv_bind H0 as b Hb.
  destruct (IndexOf_returns hash t key Hs) as (idx0 & Hidx0 & Hrange).
  rewrite Hidx in Hidx0. injection Hidx0 as <-.
  assert (Hfind : EHT.Find hash t key = Ok (EHT.Bucket_Find key b)).
  { unfold EHT.Find. rewrite Hidx. ok_step. rewrite Hat. ok_step. by rewrite Hb. }
  exists (EHT.Bucket_Find key b). split; [exact Hfind|].
  destruct p as [a|]; [|done].
  assert (Hhb : EHT.heap_ t !! a = Some b).
  { unfold EHT.deref in Hb. by destruct (EHT.heap_ t !! a) as [?|]; simplify_eq. }
  destruct (EHT.Bucket_Find key b) as [v0|] eqn:Ekey.
  - rewrite (Insert_present_unchanged hash t key v0 fuel value Hfind) in Hrun.
    injection Hrun as <-. done.
  - split; [|by intros [? ?]]. destruct (EHT.IsFull b) eqn:Efull.
    + inv_bind H0 as t1 Ht1.
      destruct (split_routes hash t key idx t1 Hs Hd Hm Hidx Ht1)
        as (a0 & b0 & x & bx & idx' & Hl0 & Hb0 & Hidx' & Hat' & Hbx & _ & Habs).
      apply vec_at_Ok in Hat as [_ Hat]. rewrite Hat in Hl0. injection Hl0 as <-.
      rewrite Hhb in Hb0. injection Hb0 as <-. specialize (Habs Ekey).
      destruct (IH t1 key value t') as (o1 & Ho1 & Hres & _);
        [by eapply split_shape|by eapply split_ptrs|by eapply split_depths_ok
        |by eapply split_mirror|exact H0|].
      unfold EHT.Find in Ho1. rewrite Hidx' in Ho1. ok_step in Ho1.
      rewrite Hat' in Ho1. ok_step in Ho1.
      rewrite (deref_lookup _ _ _ Hbx) in Ho1. ok_step in Ho1.
      rewrite Habs in Ho1. injection Ho1 as <-. exact Hres.
    + destruct (Insert_fits hash t key value idx a b fuel Hidx Hat Hhb Ekey Efull)
        as [Hrun2 Hres].
      rewrite Hrun in Hrun2. injection Hrun2 as ->. exact Hres.
Qed.

(** X8.  On every reachable table, when [Insert(key, value)] returns,
    [Find(key)] succeeds: it yields [value] if [Find(key)] failed before
    the call, and the value stored before the call otherwise (the table is
    then unchanged). *)
Theorem Insert_then_Find (t : EHT.Table K V) (key : K) (value : V)
    (fuel : nat) (t' : EHT.Table K V) :
  EHT.reachable hash t -> EHT.Insert hash fuel t key value = Ok t' ->
  exists o, EHT.Find hash t key = Ok o
    /\ EHT.Find hash t' key = Ok (Some (default value o))
    /\ (is_Some o -> t' = t).
Proof.
  intros Hr. apply Insert_Find_gen.
  - by apply reachable_shape in Hr.
  - by apply reachable_ptrs in Hr.
  - by apply reachable_depths_ok in Hr.
  - by apply reachable_mirror in Hr.
Qed.

End EHT_insert.

(** Witness of X7: key 1 on the table after three inserts, where the call
    does not return. *)
Lemma Insert_ends_witness :
  EHT.reachable EHT.hash_int EHT.table_034 /\
  (returns (EHT.Insert EHT.hash_int 32 EHT.table_034 1 10)
   \/ EHT.Insert EHT.hash_int 32 EHT.table_034 1 10 = Overflow).
Proof.
  split.
  - exact table_034_reachable.
  - apply (Insert_ends EHT.hash_int EHT.table_034 1 10 32); [|lia].
    exact table_034_reachable.
Defined.

(** Witness of X8: key 9 on the table after six inserts. *)
Lemma Insert_then_Find_witness :
  EHT.reachable EHT.hash_int EHT.table_048531 /\
  exists o, EHT.Find EHT.hash_int EHT.table_048531 9 = Ok o
    /\ EHT.Find EHT.hash_int EHT.table_0485319 9 = Ok (Some (default 90 o))
    /\ (is_Some o -> EHT.table_0485319 = EHT.table_048531).
Proof.
  assert (Hr : EHT.reachable EHT.hash_int EHT.table_048531).
  { eapply (EHT.reach_Insert _ 2 EHT.table_04853 1 10);
      [exact table_04853_reachable|reflexivity]. }
  split; [exact Hr|].
  apply (Insert_then_Find EHT.hash_int EHT.table_048531 9 90 3 EHT.table_0485319 Hr).
  reflexivity.
Defined.

(** *** Buckets stay within their capacity *)

Section EHT_capacity.
Context {K V : Type} `{EqDecision K}.
Variable hash : K -> Z.

Lemma upsert_length (key : K) (value : V) l :
  (length (EHT.list_upsert key value l) <= S (length l))%nat.
Proof.
  rewrite <-(length_fmap fst), upsert_keys.
  destruct (EHT.list_find_key key l); rewrite ?length_app, length_fmap; simpl; lia.
Qed.

Lemma remove_length (key : K) (l : list (K * V)) :
  (length (EHT.list_remove_key key l).2 <= length l)%nat.
Proof.
  induction l as [|[k v] l IH]; simpl; [done|]. case_decide; simpl; [lia|].
  destruct (EHT.list_remove_key key l) as [r l']. simpl in *. lia.
Qed.

Lemma Bucket_Insert_capacity (key : K) (value : V) (b : EHT.Bucket K V) c :
  EHT.size_ b = c /\ (length (EHT.list_ b) <= EHT.size_ b)%nat ->
  EHT.size_ (EHT.Bucket_Insert key value b).2 = c
  /\ (length (EHT.list_ (EHT.Bucket_Insert key value b).2)
      <= EHT.size_ (EHT.Bucket_Insert key value b).2)%nat.
Proof.
  intros [Hc Hle]. unfold EHT.Bucket_Insert. destruct (EHT.IsFull b) eqn:Efull; [done|].
  simpl. split; [done|]. unfold EHT.IsFull in Efull.
  apply bool_decide_eq_false in Efull.
  pose proof (upsert_length key value (EHT.list_ b)). lia.
Qed.

Lemma Bucket_Remove_capacity (key : K) (b : EHT.Bucket K V) c :
  EHT.size_ b = c /\ (length (EHT.list_ b) <= EHT.size_ b)%nat ->
  EHT.size_ (EHT.Bucket_Remove key b).2 = c
  /\ (length (EHT.list_ (EHT.Bucket_Remove key b).2)
      <= EHT.size_ (EHT.Bucket_Remove key b).2)%nat.
Proof.
  intros [Hc Hle]. pose proof (remove_length key (EHT.list_ b)) as Hr.
  unfold EHT.Bucket_Remove. destruct (EHT.list_remove_key key (EHT.list_ b)) as [r l].
  simpl in *. split; [done|lia].
Qed.

Lemma store_capacity (t : EHT.Table K V) p b t' :
  EHT.capacity_ok t ->
  EHT.size_ b = EHT.bucket_size_ t /\ (length (EHT.list_ b) <= EHT.size_ b)%nat ->
  EHT.store t p b = Ok t' -> EHT.capacity_ok t'.
Proof.
  intros Hok Hb Hs. apply store_Ok in Hs as (a & -> & Ha & ->).
  unfold EHT.capacity_ok. simpl. by apply Forall_insert.
Qed.

Lemma deref_capacity (t : EHT.Table K V) p b :
  EHT.capacity_ok t -> EHT.deref t p = Ok b ->
  EHT.size_ b = EHT.bucket_size_ t /\ (length (EHT.list_ b) <= EHT.size_ b)%nat.
Proof.
  intros Hok Hb. unfold EHT.deref in Hb. destruct p as [a|]; [|done].
  destruct (EHT.heap_ t !! a) as [b'|] eqn:Ea; [|done]. injection Hb as ->.
  unfold EHT.capacity_ok in Hok. rewrite Forall_lookup in Hok. by apply (Hok a).
Qed.

Lemma RedistributeBucket_capacity (t : EHT.Table K V) bucket t' :
  EHT.capacity_ok t -> EHT.RedistributeBucket hash t bucket = Ok t' ->
  EHT.capacity_ok t'.
Proof.
  intros Hok H0. pose proof H0 as H1. unfold EHT.RedistributeBucket in H1.
  inv_bind H1 as b Hb.
  eapply (RedistributeBucket_inv hash EHT.capacity_ok (fun _ => True));
    [| |exact Hb|done|exact Hok|exact H0].
  - intros t0 p tgt k v t1 Hn _ Hd _ Hs. eapply store_capacity; [exact Hn| |exact Hs].
    apply Bucket_Insert_capacity. by eapply deref_capacity.
  - intros t0 src k t1 Hn Hd Hs. eapply store_capacity; [exact Hn| |exact Hs].
    apply Bucket_Remove_capacity. by eapply deref_capacity.
Qed.

Lemma split_capacity (t : EHT.Table K V) idx t' :
  EHT.dir_shape t -> EHT.capacity_ok t -> EHT.split hash t idx = Ok t' ->
  EHT.capacity_ok t'.
Proof.
  intros Hs Hok H0.
  apply (split_Ok _ _ _ _ Hs) in H0 as (_ & a & b & _ & Hb & Hcases).
  assert (Hnb : EHT.size_ (EHT.IncrementDepth b) = EHT.bucket_size_ t
                /\ (length (EHT.list_ (EHT.IncrementDepth b))
                    <= EHT.size_ (EHT.IncrementDepth b))%nat).
  { unfold EHT.capacity_ok in Hok. rewrite Forall_lookup in Hok.
    exact (Hok a b Hb). }
  assert (Hnew : forall d,
            EHT.size_ (EHT.mkBucket (EHT.bucket_size_ t) d ([] : list (K * V)))
              = EHT.bucket_size_ t
            /\ (length (EHT.list_ (EHT.mkBucket (EHT.bucket_size_ t) d ([] : list (K * V))))
                <= EHT.size_ (EHT.mkBucket (EHT.bucket_size_ t) d ([] : list (K * V))))%nat).
  { intros d. simpl. split; [done|lia]. }
  assert (Hplaced : forall slot, EHT.capacity_ok (EHT.split_placed t slot a b)).
  { intros slot. unfold EHT.capacity_ok, EHT.split_placed.
    cbn [EHT.heap_ EHT.bucket_size_].
    apply Forall_app. split; [by apply Forall_insert|].
    apply Forall_singleton. apply Hnew. }
  destruct Hcases as [(_ & _ & tmp & _ & _ & H0)|[(_ & _ & _ & H0)|(_ & _ & _ & q & _ & H0)]];
    (eapply RedistributeBucket_capacity; [|exact H0]); [|done..].
  unfold EHT.capacity_ok, EHT.split_doubled. cbn [EHT.heap_ EHT.bucket_size_].
  apply Forall_insert; [|done]. apply Forall_app. split; [done|].
  apply Forall_singleton. apply Hnew.
Qed.

Lemma Insert_capacity fuel : forall (t : EHT.Table K V) key value t',
  EHT.dir_shape t -> EHT.capacity_ok t ->
  EHT.Insert hash fuel t key value = Ok t' -> EHT.capacity_ok t'.
Proof.
  induction fuel as [|fuel IH]; intros t key value t' Hs Hok H0; [done|].
  cbn [EHT.Insert] in H0.
  inv_bind H0 as idx Hidx. inv_bind H0 as p Hp. inv_bind H0 as b Hb.
  pose proof (deref_capacity _ _ _ Hok Hb) as Hnb.
  destruct (EHT.Bucket_Find key b) as [tmp|].
  - eapply store_capacity; [exact Hok| |exact H0]. by apply Bucket_Insert_capacity.
  - destruct (EHT.IsFull b).
    + inv_bind H0 as t1 Ht1. eapply IH; [| |exact H0].
      * by eapply split_shape.
      * by eapply split_capacity.
    + eapply store_capacity; [exact Hok| |exact H0]. by apply Bucket_Insert_capacity.
Qed.

Lemma Remove_capacity (t : EHT.Table K V) key r t' :
  EHT.capacity_ok t -> EHT.Remove hash t key = Ok (r, t') -> EHT.capacity_ok t'.
Proof.
  intros Hok. unfold EHT.Remove. intros H0.
  inv_bind H0 as idx Hidx. inv_bind H0 as p Hp. inv_bind H0 as b Hb.
  pose proof (Bucket_Remove_capacity key b _ (deref_capacity _ _ _ Hok Hb)) as Hnb.
  destruct (EHT.Bucket_Remove key b) as [r0 b'].
  inv_bind H0 as t1 Ht1. injection H0 as _ <-. by eapply store_capacity.
Qed.

(** X9.  In every reachable table each bucket has the capacity the table
    was built with and holds at most that many entries, with pairwise
    distinct keys. *)
Theorem buckets_within_capacity (t : EHT.Table K V) :
  EHT.reachable hash t ->
  forall a b, EHT.heap_ t !! a = Some b ->
    EHT.size_ b = EHT.bucket_size_ t
    /\ (length (EHT.list_ b) <= EHT.bucket_size_ t)%nat
    /\ NoDup (EHT.list_ b).*1.
Proof.
  intros Hr a b Hb. pose proof (reachable_nodup _ _ Hr) as Hn.
  assert (Hcap : EHT.capacity_ok t).
  { clear a b Hb Hn.
    induction Hr as [bs | fuel t key value t' Hr IH Hi | t key r t' _ IH Hr
                    | t key idx p b t' Hr IH _ _ _ _ _ Hs].
    - unfold EHT.capacity_ok. simpl. apply Forall_singleton. simpl. split; [done|lia].
    - eapply Insert_capacity; [|exact IH|exact Hi]. by apply reachable_shape in Hr.
    - by eapply Remove_capacity.
    - eapply split_capacity; [|exact IH|exact Hs]. by apply reachable_shape in Hr. }
  unfold EHT.capacity_ok in Hcap. rewrite Forall_lookup in Hcap.
  unfold EHT.keys_nodup in Hn. rewrite Forall_lookup in Hn.
  destruct (Hcap a b Hb) as [E1 E2]. split; [done|]. split; [lia|]. by apply (Hn a).
Qed.

End EHT_capacity.

(** Witness of X9: the bucket at address 1 of the table after five
    inserts. *)
Lemma buckets_within_capacity_witness :
  EHT.reachable EHT.hash_int EHT.table_04853 /\
  (EHT.size_ (EHT.mkBucket 2 1 [(5, 50); (3, 30)]) = EHT.bucket_size_ EHT.table_04853
   /\ (length (EHT.list_ (EHT.mkBucket 2 1 [(5, 50); (3, 30)]))
       <= EHT.bucket_size_ EHT.table_04853)%nat
   /\ NoDup (EHT.list_ (EHT.mkBucket 2 1 [(5, 50); (3, 30)])).*1).
Proof.
  split.
  - exact table_04853_reachable.
  - apply (buckets_within_capacity EHT.hash_int EHT.table_04853
             table_04853_reachable 1%nat).
    reflexivity.
Defined.

(** *** The entries of a table are entries that were inserted *)

Section EHT_entries.
Context {K V : Type} `{EqDecision K}.
Variable hash : K -> Z.

Lemma upsert_elem (key : K) (value : V) l kv :
  kv ∈ EHT.list_upsert key value l -> kv = (key, value) \/ kv ∈ l.
Proof.
  induction l as [|[k v] l IH]; simpl.
  - intros Hin. apply list_elem_of_singleton in Hin. by left.
  - case_decide as Hk.
    + subst. rewrite !elem_of_cons. intros [->|Hin]; [by left|right; by right].
    + rewrite !elem_of_cons. intros [->|Hin]; [right; by left|].
      destruct (IH Hin) as [->|Hl]; [by left|right; by right].
Qed.

Lemma remove_elem (key : K) (l : list (K * V)) kv :
  kv ∈ (EHT.list_remove_key key l).2 -> kv ∈ l.
Proof.
  induction l as [|[k v] l IH]; simpl; [done|]. case_decide.
  - simpl. intros Hin. by right.
  - destruct (EHT.list_remove_key key l) as [r l']. simpl in *.
    rewrite !elem_of_cons. intros [->|Hin]; [by left|right; by apply IH].
Qed.

Lemma Bucket_Insert_elem (key : K) (value : V) (b : EHT.Bucket K V) kv :
  kv ∈ EHT.list_ (EHT.Bucket_Insert key value b).2 ->
  kv = (key, value) \/ kv ∈ EHT.list_ b.
Proof.
  unfold EHT.Bucket_Insert. destruct (EHT.IsFull b); [by right|].
  simpl. apply upsert_elem.
Qed.

Lemma Bucket_Remove_elem (key : K) (b : EHT.Bucket K V) kv :
  kv ∈ EHT.list_ (EHT.Bucket_Remove key b).2 -> kv ∈ EHT.list_ b.
Proof. rewrite (proj1 (Bucket_Remove_list key b)). apply remove_elem. Qed.

Lemma store_entries S (t : EHT.Table K V) p b t' :
  EHT.entries_in S t -> (forall kv, kv ∈ EHT.list_ b -> S kv) ->
  EHT.store t p b = Ok t' -> EHT.entries_in S t'.
Proof.
  intros Hok Hb Hs. apply store_Ok in Hs as (a & -> & Ha & ->).
  intros x bx kv Hx Hkv. cbn [EHT.set_heap EHT.heap_] in Hx.
  destruct (decide (a = x)) as [->|Hne].
  - rewrite list_lookup_insert_eq in Hx by done. injection Hx as <-. by apply Hb.
  - rewrite list_lookup_insert_ne in Hx by done. by eapply Hok.
Qed.

Lemma deref_entries S (t : EHT.Table K V) p b kv :
  EHT.entries_in S t -> EHT.deref t p = Ok b -> kv ∈ EHT.list_ b -> S kv.
Proof.
  intros Hok Hb. unfold EHT.deref in Hb. destruct p as [a|]; [|done].
  destruct (EHT.heap_ t !! a) as [b'|] eqn:Ea; [|done]. injection Hb as ->.
  by apply (Hok a).
Qed.

Lemma RedistributeBucket_entries S (t : EHT.Table K V) bucket t' :
  EHT.entries_in S t -> EHT.RedistributeBucket hash t bucket = Ok t' ->
  EHT.entries_in S t'.
Proof.
  intros Hok. unfold EHT.RedistributeBucket. intros H0. inv_bind H0 as b Hb.
  pose proof (fun kv => deref_entries S t bucket b kv Hok Hb) as Hitems.
  apply (foldl_Ok_inv _ (EHT.entries_in S)) in H0.
  - destruct H0 as (t0 & [= <-] & Himp). by apply Himp.
  - intros acc [k v] a' Hx Hs. unfold EHT.redistribute_step in Hs.
    inv_bind Hs as t1 Ht1. exists t1. split; [done|]. intros IH.
    inv_bind Hs as idx Hidx. inv_bind Hs as p Hp. case_decide as Hpb.
    + by injection Hs as <-.
    + inv_bind Hs as tgt Htgt. inv_bind Hs as t2 Ht2. inv_bind Hs as src Hsrc.
      cbn [fst snd] in *.
      assert (IH2 : EHT.entries_in S t2).
      { eapply store_entries; [exact IH| |exact Ht2]. intros kv Hkv.
        apply Bucket_Insert_elem in Hkv as [->|Hkv]; [by apply Hitems|].
        by eapply deref_entries. }
      eapply store_entries; [exact IH2| |exact Hs]. intros kv Hkv.
      apply Bucket_Remove_elem in Hkv. by eapply deref_entries.
Qed.

Lemma split_entries S (t : EHT.Table K V) idx t' :
  EHT.dir_shape t -> EHT.entries_in S t -> EHT.split hash t idx = Ok t' ->
  EHT.entries_in S t'.
Proof.
  intros Hs Hok H0.
  apply (split_Ok _ _ _ _ Hs) in H0 as (_ & a & b & _ & Hb & Hcases).
  pose proof (lookup_lt_Some _ _ _ Hb) as Ha.
  assert (Hplaced : forall slot, EHT.entries_in S (EHT.split_placed t slot a b)).
  { intros slot x bx kv Hx Hkv. unfold EHT.split_placed in Hx. cbn [EHT.heap_] in Hx.
    apply lookup_app_Some in Hx as [Hx|[_ Hx]].
    - destruct (decide (a = x)) as [->|Hne].
      + rewrite list_lookup_insert_eq in Hx by done. injection Hx as <-.
        by apply (Hok x b).
      + rewrite list_lookup_insert_ne in Hx by done. by eapply Hok.
    - apply list_lookup_singleton_Some in Hx as [_ <-]. by apply elem_of_nil in Hkv. }
  destruct Hcases as [(_ & _ & tmp & _ & _ & H0)|[(_ & _ & _ & H0)|(_ & _ & _ & q & _ & H0)]];
    (eapply RedistributeBucket_entries; [|exact H0]); [|done..].
  intros x bx kv Hx Hkv. unfold EHT.split_doubled in Hx. cbn [EHT.heap_] in Hx.
  destruct (decide (a = x)) as [->|Hne].
  - rewrite list_lookup_insert_eq in Hx by (rewrite length_app; lia).
    injection Hx as <-. by apply (Hok x b).
  - rewrite list_lookup_insert_ne in Hx by done.
    apply lookup_app_Some in Hx as [Hx|[_ Hx]]; [by eapply Hok|].
    apply list_lookup_singleton_Some in Hx as [_ <-]. by apply elem_of_nil in Hkv.
Qed.

Lemma Insert_entries S fuel : forall (t : EHT.Table K V) key value t',
  EHT.dir_shape t -> EHT.entries_in S t -> S (key, value) ->
  EHT.Insert hash fuel t key value = Ok t' -> EHT.entries_in S t'.
Proof.
  induction fuel as [|fuel IH]; intros t key value t' Hs Hok HS H0; [done|].
  cbn [EHT.Insert] in H0.
  inv_bind H0 as idx Hidx. inv_bind H0 as p Hp. inv_bind H0 as b Hb.
  pose proof (fun kv => deref_entries S t p b kv Hok Hb) as Hitems.
  destruct (EHT.Bucket_Find key b) as [tmp|] eqn:Efind.
  - eapply store_entries; [exact Hok| |exact H0]. intros kv Hkv.
    unfold EHT.Bucket_Insert in Hkv. destruct (EHT.IsFull b); [by apply Hitems|].
    simpl in Hkv. rewrite list_upsert_same in Hkv by done. by apply Hitems.
  - destruct (EHT.IsFull b).
    + inv_bind H0 as t1 Ht1. eapply IH; [| |exact HS|exact H0].
      * by eapply split_shape.
      * by eapply split_entries.
    + eapply store_entries; [exact Hok| |exact H0]. intros kv Hkv.
      apply Bucket_Insert_elem in Hkv as [->|Hkv]; [done|by apply Hitems].
Qed.

Lemma Remove_entries S (t : EHT.Table K V) key r t' :
  EHT.entries_in S t -> EHT.Remove hash t key = Ok (r, t') -> EHT.entries_in S t'.
Proof.
  intros Hok. unfold EHT.Remove. intros H0.
  inv_bind H0 as idx Hidx. inv_bind H0 as p Hp. inv_bind H0 as b Hb.
  pose proof (fun kv => Bucket_Remove_elem key b kv) as Hsub.
  destruct (EHT.Bucket_Remove key b) as [r0 b'].
  inv_bind H0 as t1 Ht1. injection H0 as _ <-.
  eapply store_entries; [exact Hok| |exact Ht1]. intros kv Hkv.
  eapply deref_entries; [exact Hok|exact Hb|by apply Hsub].
Qed.

Lemma Find_entries S (t : EHT.Table K V) key v :
  EHT.entries_in S t -> EHT.Find hash t key = Ok (Some v) -> S (key, v).
Proof.
  intros Hok. unfold EHT.Find. intros H0.
  inv_bind H0 as idx Hidx. inv_bind H0 as p Hp. inv_bind H0 as b Hb.
  injection H0 as Hf. eapply deref_entries; [exact Hok|exact Hb|].
  unfold EHT.Bucket_Find in Hf. clear Hb.
  induction (EHT.list_ b) as [|[k w] l IH]; [done|]. simpl in Hf.
  case_decide as Hk.
  - injection Hf as <-. subst. by left.
  - right. by apply IH.
Qed.

(** X16.  [Find] yields only what was inserted: on a table built from a new
    one by calls of [Insert] with the pairs [kvs], all of which returned,
    a value that [Find(key)] yields was inserted with that key. *)
Theorem Find_yields_inserted (fuel : nat) (bucket_size : nat)
    (kvs : list (K * V)) (t : EHT.Table K V) (key : K) (v : V) :
  EHT.insert_all hash fuel (EHT.init bucket_size) kvs = Ok t ->
  EHT.Find hash t key = Ok (Some v) -> (key, v) ∈ kvs.
Proof.
  intros Hrun. apply (Find_entries (fun kv : K * V => kv ∈ kvs)).
  assert (Hgen : forall l t0,
            EHT.insert_all hash fuel (EHT.init bucket_size) l = Ok t0 ->
            EHT.reachable hash t0 /\ EHT.entries_in (fun kv : K * V => kv ∈ l) t0).
  { induction l as [|kv l IH] using rev_ind; intros t0 H0.
    - injection H0 as <-. split; [constructor|].
      intros a b kv Hb Hkv. simpl in Hb.
      apply list_lookup_singleton_Some in Hb as [_ <-]. by apply elem_of_nil in Hkv.
    - unfold EHT.insert_all in H0. rewrite foldl_app in H0. cbn [foldl] in H0.
      inv_bind H0 as t1 Ht1. destruct (IH t1 Ht1) as [Hr He]. split.
      + by eapply EHT.reach_Insert.
      + eapply Insert_entries; [by apply reachable_shape in Hr| | |exact H0].
        * intros a b x Hb Hx. apply elem_of_app. left. by eapply He.
        * apply elem_of_app. right. destruct kv. by left. }
  by apply Hgen.
Qed.

End EHT_entries.

(** Witness of X16: key 5 of the table after five inserts. *)
Lemma Find_yields_inserted_witness :
  (5, 50) ∈ [(0, 0); (4, 40); (8, 80); (5, 50); (3, 30)].
Proof.
  apply (Find_yields_inserted EHT.hash_int 5 2
           [(0, 0); (4, 40); (8, 80); (5, 50); (3, 30)] EHT.table_04853 5 50).
  - vm_compute. reflexivity.
  - vm_compute. reflexivity.
Defined.

(** *** What [RedistributeBucket] leaves in the bucket *)

Section EHT_redistribute.
Context {K V : Type} `{EqDecision K}.
Variable hash : K -> Z.

Lemma remove_key_middle (x : K * V) pre rest :
  x.1 ∉ pre.*1 ->
  (EHT.list_remove_key x.1 (pre ++ x :: rest)).2 = pre ++ rest.
Proof.
  induction pre as [|[k v] pre IH]; intros Hnot.
  - destruct x as [k v]. simpl. by rewrite decide_True.
  - rewrite fmap_cons, not_elem_of_cons in Hnot. destruct Hnot as [Hne Hnot].
    simpl in *. rewrite decide_False by congruence.
    specialize (IH Hnot). destruct (EHT.list_remove_key x.1 (pre ++ x :: rest)).
    simpl in *. by rewrite IH.
Qed.

Lemma redistribute_loop_start rest (acc : outcome (EHT.Table K V)) bucket t' :
  foldl (EHT.redistribute_step hash bucket) acc rest = Ok t' ->
  exists t1, acc = Ok t1.
Proof.
  intros H0. apply (foldl_Ok_inv _ (fun _ => True)) in H0 as (t1 & -> & _).
  - by exists t1.
  - intros acc0 x a' _ Hs. unfold EHT.redistribute_step in Hs.
    inv_bind Hs as t0 Ht0. by exists t0.
Qed.

Lemma redistribute_loop (a : nat) (dir : list (option nat)) (g : Z) rest :
  forall (t0 : EHT.Table K V) b0 pre t',
    EHT.dir_ t0 = dir -> EHT.global_depth_ t0 = g ->
    EHT.heap_ t0 !! a = Some b0 -> EHT.list_ b0 = pre ++ rest ->
    NoDup (pre ++ rest).*1 ->
    foldl (EHT.redistribute_step hash (Some a)) (Ok t0) rest = Ok t' ->
    exists b',
      EHT.heap_ t' !! a = Some b'
      /\ EHT.list_ b' = pre ++ filter (EHT.stays_in hash t0 a) rest
      /\ EHT.size_ b' = EHT.size_ b0 /\ EHT.depth_ b' = EHT.depth_ b0.
Proof.
  induction rest as [|x rest IH]; intros t0 b0 pre t' Hdir Hg Hb0 Hl Hnd H0.
  - injection H0 as <-. exists b0. by rewrite filter_nil.
  - cbn [foldl] in H0.
    destruct (redistribute_loop_start _ _ _ _ H0) as [t1 Estep].
    rewrite Estep in H0.
    unfold EHT.redistribute_step in Estep. ok_step in Estep.
    inv_bind Estep as idx Hidx. inv_bind Estep as p Hp.
    apply IndexOf_Ok in Hidx as [Hg0 ->]. apply vec_at_Ok in Hp as [_ Hp].
    rewrite filter_cons. case_decide as Hpa.
    + injection Estep as <-. subst p.
      rewrite decide_True by exact Hp.
      destruct (IH t0 b0 (pre ++ [x]) t') as (b' & E1 & E2 & E3 & E4);
        [done|done|done|by rewrite <-app_assoc|by rewrite <-app_assoc|done|].
      exists b'. split; [done|]. split; [|done]. by rewrite E2, <-app_assoc.
    + rewrite decide_False by (unfold EHT.stays_in; rewrite Hp; congruence).
      inv_bind Estep as tgt Htgt. inv_bind Estep as t2 Ht2. inv_bind Estep as src Hsrc.
      apply store_Ok in Ht2 as (a2 & -> & Ha2 & ->).
      assert (Hne : a2 <> a) by congruence.
      unfold EHT.deref in Hsrc. cbn [EHT.set_heap EHT.heap_] in Hsrc.
      rewrite list_lookup_insert_ne in Hsrc by done. rewrite Hb0 in Hsrc.
      injection Hsrc as <-.
      apply store_Ok in Estep as (a3 & [= <-] & Ha3 & ->).
      assert (Hrm : EHT.list_ (EHT.Bucket_Remove x.1 b0).2 = pre ++ rest).
      { rewrite (proj1 (Bucket_Remove_list x.1 b0)), Hl.
        apply remove_key_middle. rewrite fmap_app, fmap_cons in Hnd.
        apply NoDup_app in Hnd as (_ & Hdisj & _). intros Hin.
        apply (Hdisj _ Hin). by left. }
      destruct (IH (EHT.set_heap
                      (EHT.set_heap t0 (<[a2:=(EHT.Bucket_Insert x.1 x.2 tgt).2]> (EHT.heap_ t0)))
                      (<[a:=(EHT.Bucket_Remove x.1 b0).2]>
                         (EHT.heap_ (EHT.set_heap t0
                            (<[a2:=(EHT.Bucket_Insert x.1 x.2 tgt).2]> (EHT.heap_ t0))))))
                  (EHT.Bucket_Remove x.1 b0).2 pre t')
        as (b' & E1 & E2 & E3 & E4); [done|done| |done| |done|].
      * cbn [EHT.set_heap EHT.heap_]. apply list_lookup_insert_eq.
        rewrite length_insert. by eapply lookup_lt_Some.
      * rewrite fmap_app, fmap_cons in Hnd. rewrite fmap_app.
        apply NoDup_app in Hnd as (N1 & N2 & N3). apply NoDup_cons in N3 as [_ N3].
        apply NoDup_app. split; [done|]. split; [|done].
        intros k Hk Hk'. apply (N2 k Hk). by right.
      * exists b'. split; [done|]. split; [exact E2|].
        rewrite E3, E4. unfold EHT.Bucket_Remove.
        by destruct (EHT.list_remove_key x.1 (EHT.list_ b0)).
Qed.

(** X23.  [RedistributeBucket(bucket)], for a bucket with distinct keys:
    afterwards the bucket holds, in their order, the entries whose keys the
    directory sends to it, and no others; the directory, the depths and
    the bucket count are unchanged; and every entry of the table was an
    entry of the table before. *)
Theorem RedistributeBucket_keeps_routed (t t' : EHT.Table K V) (a : nat)
    (b : EHT.Bucket K V) :
  EHT.heap_ t !! a = Some b -> NoDup (EHT.list_ b).*1 ->
  EHT.RedistributeBucket hash t (Some a) = Ok t' ->
  (exists b', EHT.heap_ t' !! a = Some b'
     /\ EHT.list_ b' = filter (EHT.stays_in hash t a) (EHT.list_ b)
     /\ EHT.size_ b' = EHT.size_ b /\ EHT.depth_ b' = EHT.depth_ b)
  /\ EHT.dir_ t' = EHT.dir_ t
  /\ EHT.GetGlobalDepth t' = EHT.GetGlobalDepth t
  /\ EHT.GetNumBuckets t' = EHT.GetNumBuckets t
  /\ EHT.depth_ <$> EHT.heap_ t' = EHT.depth_ <$> EHT.heap_ t
  /\ (forall x bx kv, EHT.heap_ t' !! x = Some bx -> kv ∈ EHT.list_ bx ->
        exists y b0, EHT.heap_ t !! y = Some b0 /\ kv ∈ EHT.list_ b0).
Proof.
  intros Hb Hnd H0.
  pose proof (RedistributeBucket_dir _ _ _ _ H0) as (E1 & E2 & E3).
  pose proof (RedistributeBucket_depths _ _ _ _ H0) as E4.
  pose proof (RedistributeBucket_entries hash
                (fun kv => exists y b0, EHT.heap_ t !! y = Some b0 /\ kv ∈ EHT.list_ b0)
                t (Some a) t') as E5.
  split; [|split; [done|split; [done|split; [done|split; [done|]]]]].
  - unfold EHT.RedistributeBucket in H0. rewrite (deref_lookup _ _ _ Hb) in H0.
    ok_step in H0.
    by apply (redistribute_loop a (EHT.dir_ t) (EHT.global_depth_ t)
                (EHT.list_ b) t b [] t').
  - apply E5; [|exact H0]. intros y b0 kv Hy Hkv. by exists y, b0.
Qed.

End EHT_redistribute.

(** Witness of X23: the bucket at address 1 of the table after five
    inserts, once slot 5 holds the new bucket of a split in place. *)
Lemma RedistributeBucket_keeps_routed_witness :
  exists t',
    (exists b', EHT.heap_ t' !! 1%nat = Some b'
       /\ EHT.list_ b'
          = filter (EHT.stays_in EHT.hash_int
                      (EHT.split_placed EHT.table_04853 5 1
                         (EHT.mkBucket 2 1 [(5, 50); (3, 30)])) 1)
              (EHT.list_ (EHT.mkBucket 2 2 [(5, 50); (3, 30)]))
       /\ EHT.size_ b' = EHT.size_ (EHT.mkBucket 2 2 [(5, 50); (3, 30)])
       /\ EHT.depth_ b' = EHT.depth_ (EHT.mkBucket 2 2 [(5, 50); (3, 30)]))
    /\ EHT.dir_ t'
       = EHT.dir_ (EHT.split_placed EHT.table_04853 5 1
                     (EHT.mkBucket 2 1 [(5, 50); (3, 30)]))
    /\ EHT.GetGlobalDepth t'
       = EHT.GetGlobalDepth (EHT.split_placed EHT.table_04853 5 1
                               (EHT.mkBucket 2 1 [(5, 50); (3, 30)]))
    /\ EHT.GetNumBuckets t'
       = EHT.GetNumBuckets (EHT.split_placed EHT.table_04853 5 1
                              (EHT.mkBucket 2 1 [(5, 50); (3, 30)]))
    /\ EHT.depth_ <$> EHT.heap_ t'
       = EHT.depth_ <$> EHT.heap_ (EHT.split_placed EHT.table_04853 5 1
                                     (EHT.mkBucket 2 1 [(5, 50); (3, 30)]))
    /\ (forall x bx kv, EHT.heap_ t' !! x = Some bx -> kv ∈ EHT.list_ bx ->
          exists y b0,
            EHT.heap_ (EHT.split_placed EHT.table_04853 5 1
                         (EHT.mkBucket 2 1 [(5, 50); (3, 30)])) !! y = Some b0
            /\ kv ∈ EHT.list_ b0).
Proof.
  eexists.
  eapply (RedistributeBucket_keeps_routed EHT.hash_int
            (EHT.split_placed EHT.table_04853 5 1 (EHT.mkBucket 2 1 [(5, 50); (3, 30)]))).
  - reflexivity.
  - simpl. compute_done.
  - vm_compute. reflexivity.
Defined.

(** ** LRU-K replacer *)

Lemma wrap64_add_l a b : LRUK.wrap64 (LRUK.wrap64 a + b) = LRUK.wrap64 (a + b).
Proof. unfold LRUK.wrap64. by rewrite Z.add_mod_idemp_l. Qed.

Lemma wrap64_sub_l a b : LRUK.wrap64 (LRUK.wrap64 a - b) = LRUK.wrap64 (a - b).
Proof. unfold LRUK.wrap64. by rewrite Zminus_mod_idemp_l. Qed.

(** *** Counting evictable slots *)

Lemma count_insert (m : gmap Z LRUK.Slot) f s :
  LRUK.count_slots (<[f := s]> m)
  = (LRUK.count_slots (delete f m) + (if LRUK.evictable_ s then 1 else 0))%nat.
Proof.
  unfold LRUK.count_slots. rewrite <-insert_delete_eq.
  destruct (LRUK.evictable_ s) eqn:E.
  - rewrite map_filter_insert_True by done.
    rewrite map_size_insert_None; [lia|].
    apply map_lookup_filter_None. left. apply lookup_delete_eq.
  - rewrite map_filter_insert_False by (unfold LRUK.is_evictable; simpl; congruence).
    rewrite delete_delete_eq. lia.
Qed.

Lemma count_split (m : gmap Z LRUK.Slot) f s :
  m !! f = Some s ->
  LRUK.count_slots m
  = (LRUK.count_slots (delete f m) + (if LRUK.evictable_ s then 1 else 0))%nat.
Proof.
  intros E. rewrite <-(insert_delete_id m f s) at 1 by done.
  rewrite count_insert. by rewrite delete_delete_eq.
Qed.

Lemma count_insert_fresh (m : gmap Z LRUK.Slot) f s :
  m !! f = None ->
  LRUK.count_slots (<[f := s]> m)
  = (LRUK.count_slots m + (if LRUK.evictable_ s then 1 else 0))%nat.
Proof. intros E. rewrite count_insert. by rewrite delete_id. Qed.

(** *** The victim [Evict] reports holds an evictable slot *)

Lemma evict_visit_picks_evictable k (m : gmap Z LRUK.Slot) acc it a' :
  m !! it.1 = Some it.2 ->
  LRUK.evict_visit k acc it = Ok a' ->
  exists a, acc = Ok a /\
    ((LRUK.flag a = true ->
        exists f s, LRUK.result a = Some f /\ m !! f = Some s /\ LRUK.evictable_ s = true) ->
     (LRUK.flag a' = true ->
        exists f s, LRUK.result a' = Some f /\ m !! f = Some s /\ LRUK.evictable_ s = true)).
Proof.
  intros Hm H0. unfold LRUK.evict_visit in H0. inv_bind H0 as a Ha.
  exists a. split; [done|]. intros Hinv.
  destruct (LRUK.evictable_ it.2) eqn:Ev;
    [|rewrite orb_true_r in H0; by injection H0 as <-].
  assert (Hnew : exists f s, Some it.1 = Some f /\ m !! f = Some s
                    /\ LRUK.evictable_ s = true) by eauto.
  rewrite orb_false_r in H0.
  repeat (case_bool_decide; try (injection H0 as <-; done)).
  - inv_bind H0 as f0 Hf0. by injection H0 as <-.
  - inv_bind H0 as f0 Hf0. case_bool_decide; by injection H0 as <-.
  - inv_bind H0 as f0 Hf0. inv_bind H0 as b0 Hb0. cbv zeta in H0.
    case_bool_decide; by injection H0 as <-.
Qed.

Lemma Evict_Ok (r : LRUK.Replacer) o r' :
  LRUK.Evict r = Ok (o, r') ->
  (o = None /\ r' = r)
  \/ exists f s, o = Some f /\ LRUK.slots_ r !! f = Some s /\ LRUK.evictable_ s = true
       /\ r' = LRUK.mkReplacer (LRUK.replacer_size_ r) (LRUK.k_ r)
                 (delete f (LRUK.slots_ r)) (LRUK.current_timestamp_ r)
                 (LRUK.wrap64 (LRUK.curr_size_ r - 1)).
Proof.
  unfold LRUK.Evict. intros H0. inv_bind H0 as a Ha.
  apply (foldl_Ok_inv _ (fun a => LRUK.flag a = true ->
           exists f s, LRUK.result a = Some f /\ LRUK.slots_ r !! f = Some s
             /\ LRUK.evictable_ s = true)) in Ha.
  - destruct Ha as (a0 & [= <-] & Himp).
    destruct (LRUK.flag a) eqn:Hflag.
    + destruct Himp as (f & s & Hres & Hs & Hev); [done|done|].
      rewrite Hres in H0. injection H0 as <- <-. right. eauto 10.
    + injection H0 as <- <-. by left.
  - intros acc x a' Hin. apply evict_visit_picks_evictable.
    by apply elem_of_map_to_list'.
Qed.

(** *** Effect of each call on the counter and on the count *)

Lemma RecordAccess_count d (r : LRUK.Replacer) f r' :
  LRUK.RecordAccess d r f = Ok r' ->
  match LRUK.slots_ r !! f with
  | None =>
      LRUK.Size r' = LRUK.wrap64 (LRUK.Size r + 1)
      /\ LRUK.count_evictable r'
         = (LRUK.count_evictable r + (if d then 1 else 0))%nat
  | Some _ =>
      LRUK.Size r' = LRUK.Size r /\ LRUK.count_evictable r' = LRUK.count_evictable r
  end.
Proof.
  unfold LRUK.RecordAccess, LRUK.count_evictable, LRUK.Size.
  destruct (LRUK.slots_ r !! f) as [s|] eqn:E.
  - intros [= <-]. simpl. split; [done|].
    rewrite count_insert, (count_split _ _ _ E). by case_bool_decide.
  - case_bool_decide; [|done]. intros [= <-]. simpl. split; [done|].
    by rewrite count_insert_fresh.
Qed.

Lemma SetEvictable_count (r : LRUK.Replacer) f b r' :
  LRUK.SetEvictable r f b = Ok r' ->
  exists s, LRUK.slots_ r !! f = Some s /\
    (LRUK.count_evictable r' + (if LRUK.evictable_ s then 1 else 0)
     = LRUK.count_evictable r + (if b then 1 else 0))%nat
    /\ LRUK.Size r' =
         match LRUK.evictable_ s, b with
         | true, false => LRUK.wrap64 (LRUK.Size r - 1)
         | false, true => LRUK.wrap64 (LRUK.Size r + 1)
         | _, _ => LRUK.Size r
         end.
Proof.
  unfold LRUK.SetEvictable, LRUK.count_evictable, LRUK.Size.
  destruct (LRUK.slots_ r !! f) as [s|] eqn:E; [|done].
  intros [= <-]. exists s. split; [done|]. simpl.
  rewrite count_insert, (count_split _ _ _ E). simpl.
  split; [lia|]. by destruct (LRUK.evictable_ s), b.
Qed.

Lemma Evict_count (r : LRUK.Replacer) f r' :
  LRUK.Evict r = Ok (Some f, r') ->
  (LRUK.count_evictable r' + 1 = LRUK.count_evictable r)%nat
  /\ LRUK.Size r' = LRUK.wrap64 (LRUK.Size r - 1).
Proof.
  intros H0. apply Evict_Ok in H0 as [[? _]|(f0 & s & [= <-] & Hs & Hev & ->)]; [done|].
  unfold LRUK.count_evictable, LRUK.Size. simpl.
  rewrite (count_split _ _ _ Hs), Hev. done.
Qed.

Lemma Remove_count (r : LRUK.Replacer) f s r' :
  LRUK.slots_ r !! f = Some s ->
  LRUK.Remove r f = Ok r' ->
  (LRUK.count_evictable r' + 1 = LRUK.count_evictable r)%nat
  /\ LRUK.Size r' = LRUK.wrap64 (LRUK.Size r - 1).
Proof.
  unfold LRUK.Remove, LRUK.count_evictable, LRUK.Size. intros E. rewrite E.
  destruct (LRUK.evictable_ s) eqn:Hev; [|done]. intros [= <-]. simpl.
  rewrite (count_split _ _ _ E), Hev. done.
Qed.

Lemma reachable_Size (r : LRUK.Replacer) :
  LRUK.reachable true r ->
  LRUK.Size r = LRUK.wrap64 (Z.of_nat (LRUK.count_evictable r)).
Proof.
  induction 1 as [n k Hn Hk | r f r' _ IH Hc | r f b r' _ IH Hc
                 | r o r' _ IH Hc | r f r' _ IH Hc].
  - done.
  - apply RecordAccess_count in Hc.
    destruct (LRUK.slots_ r !! f); destruct Hc as [-> ->]; [done|].
    rewrite IH, wrap64_add_l. f_equal. lia.
  - apply SetEvictable_count in Hc as (s & _ & Hcnt & ->).
    destruct (LRUK.evictable_ s), b; rewrite ?IH, ?wrap64_add_l, ?wrap64_sub_l;
      f_equal; lia.
  - destruct o as [f|].
    + apply Evict_count in Hc as [Hcnt ->]. rewrite IH, wrap64_sub_l. f_equal. lia.
    + apply Evict_Ok in Hc as [[_ ->]|(? & ? & ? & _)]; done.
  - unfold LRUK.Remove in Hc. destruct (LRUK.slots_ r !! f) as [s|] eqn:E.
    + assert (Hc' : LRUK.Remove r f = Ok r') by (unfold LRUK.Remove; by rewrite E).
      apply (Remove_count _ _ _ _ E) in Hc' as [Hcnt ->].
      rewrite IH, wrap64_sub_l. f_equal. lia.
    + by injection Hc as <-.
Qed.

(** C6 (as the code has it).  When slots are created evictable, [Size()]
    is the number of evictable slots in every reachable state (as a
    [size_t]).  [RecordAccess] adds one to that number exactly when it
    creates a slot; [SetEvictable] changes it by one on a toggle and not
    otherwise; [Evict] and [Remove] take one off when they erase a slot. *)
Theorem Size_counts_evictable (r : LRUK.Replacer) :
  LRUK.reachable true r ->
  LRUK.Size r = LRUK.wrap64 (Z.of_nat (LRUK.count_evictable r))
  /\ (Z.of_nat (LRUK.count_evictable r) < 2 ^ 64 ->
      LRUK.Size r = Z.of_nat (LRUK.count_evictable r))
  /\ (forall f r', LRUK.RecordAccess true r f = Ok r' ->
        LRUK.count_evictable r'
        = (LRUK.count_evictable r
           + match LRUK.slots_ r !! f with None => 1 | Some _ => 0 end)%nat)
  /\ (forall f b r', LRUK.SetEvictable r f b = Ok r' ->
        exists s, LRUK.slots_ r !! f = Some s /\
          (LRUK.count_evictable r' + (if LRUK.evictable_ s then 1 else 0)
           = LRUK.count_evictable r + (if b then 1 else 0))%nat)
  /\ (forall f r', LRUK.Evict r = Ok (Some f, r') ->
        (LRUK.count_evictable r' + 1 = LRUK.count_evictable r)%nat)
  /\ (forall f s r', LRUK.slots_ r !! f = Some s -> LRUK.Remove r f = Ok r' ->
        (LRUK.count_evictable r' + 1 = LRUK.count_evictable r)%nat).
Proof.
  intros Hr. split; [by apply reachable_Size|]. repeat split.
  - intros Hlt. rewrite (reachable_Size _ Hr). unfold LRUK.wrap64.
    apply Z.mod_small. lia.
  - intros f r' Hc. apply RecordAccess_count in Hc.
    destruct (LRUK.slots_ r !! f); destruct Hc as [_ ->]; lia.
  - intros f b r' Hc. apply SetEvictable_count in Hc as (s & Hs & Hcnt & _). eauto.
  - intros f r' Hc. by apply Evict_count in Hc as [? _].
  - intros f s r' Hs Hc. by apply (Remove_count _ _ _ _ Hs) in Hc as [? _].
Qed.

(** C10.  [Remove] on a frame without a slot returns and leaves the
    replacer as it was; on a frame with a slot it fails the assertion when
    the slot is not evictable, and otherwise erases the slot and takes one
    off [Size()]. *)
Theorem Remove_cases (r : LRUK.Replacer) (frame_id : Z) :
  match LRUK.slots_ r !! frame_id with
  | None => LRUK.Remove r frame_id = Ok r
  | Some s =>
      if LRUK.evictable_ s then
        exists r', LRUK.Remove r frame_id = Ok r'
          /\ LRUK.slots_ r' = delete frame_id (LRUK.slots_ r)
          /\ LRUK.Size r' = LRUK.wrap64 (LRUK.Size r - 1)
          /\ (0 < LRUK.Size r < 2 ^ 64 -> LRUK.Size r' = LRUK.Size r - 1)
      else LRUK.Remove r frame_id = Fault
  end.
Proof.
  unfold LRUK.Remove. destruct (LRUK.slots_ r !! frame_id) as [s|]; [|done].
  destruct (LRUK.evictable_ s); [|done].
  eexists. split; [done|]. simpl. repeat split.
  intros Hsz. unfold LRUK.Size, LRUK.wrap64 in *. apply Z.mod_small. lia.
Qed.

(** *** Reachable replacers *)

Lemma do_calls_reachable d cs : forall r r',
  LRUK.reachable d r -> LRUK.do_calls d r cs = Ok r' -> LRUK.reachable d r'.
Proof.
  unfold LRUK.do_calls.
  induction cs as [|c cs IH] using rev_ind; intros r r' Hr H0.
  - by injection H0 as <-.
  - rewrite foldl_app in H0. cbn [foldl] in H0. inv_bind H0 as r1 Hr1.
    specialize (IH _ _ Hr Hr1). destruct c as [f|f b| |f]; cbn [LRUK.do_call] in H0.
    + eapply LRUK.reach_RecordAccess; [exact IH|exact H0].
    + eapply LRUK.reach_SetEvictable; [exact IH|exact H0].
    + inv_bind H0 as res Hres. injection H0 as <-. destruct res as [o r2].
      eapply LRUK.reach_Evict; [exact IH|exact Hres].
    + eapply LRUK.reach_Remove; [exact IH|exact H0].
Qed.

Lemma replacer_young_reachable : LRUK.reachable true LRUK.replacer_young.
Proof.
  apply (do_calls_reachable true LRUK.calls_young (LRUK.init 7 3)).
  - apply LRUK.reach_init; lia.
  - vm_compute. reflexivity.
Qed.

Lemma replacer_mature_reachable : LRUK.reachable true LRUK.replacer_mature.
Proof.
  apply (do_calls_reachable true LRUK.calls_mature (LRUK.init 7 2)).
  - apply LRUK.reach_init; lia.
  - vm_compute. reflexivity.
Qed.

Lemma replacer_k1_reachable : LRUK.reachable true LRUK.replacer_k1.
Proof.
  apply (do_calls_reachable true LRUK.calls_k1 (LRUK.init 7 1)).
  - apply LRUK.reach_init; lia.
  - vm_compute. reflexivity.
Qed.

(** *** What the loop of [Evict] computes *)

Lemma front_newest (s : LRUK.Slot) k :
  LRUK.slot_ok k s -> LRUK.front (LRUK.records_ s) = Ok (LRUK.newest s).
Proof.
  intros [Hn Hk]. unfold LRUK.newest. destruct (LRUK.records_ s); simpl in *; [lia|done].
Qed.

Lemma last_default (l : list Z) x : last l = Some x -> List.last l 0 = x.
Proof.
  induction l as [|y l IH]; [done|]. destruct l as [|z l].
  - by intros [= <-].
  - intros E. by apply IH.
Qed.

Lemma back_oldest (s : LRUK.Slot) k :
  LRUK.slot_ok k s -> LRUK.back (LRUK.records_ s) = Ok (LRUK.oldest s).
Proof.
  intros [Hn Hk]. unfold LRUK.back, LRUK.oldest.
  destruct (last (LRUK.records_ s)) as [x|] eqn:E.
  - by rewrite (last_default _ _ E).
  - apply last_None in E. rewrite E in Hn. simpl in Hn. lia.
Qed.

Lemma span_nonneg s : 0 <= LRUK.span s.
Proof. unfold LRUK.span, LRUK.wrap64. apply Z.mod_pos_bound. lia. Qed.

Lemma fewer_then_earlier_refl s : LRUK.fewer_then_earlier s s.
Proof. right. split; [done|lia]. Qed.

Lemma evict_visit_inv k l a f s :
  k <= LRUK.LONG_MAX -> LRUK.slot_ok k s -> LRUK.scan_inv k l a ->
  exists a', LRUK.evict_visit k (Ok a) (f, s) = Ok a'
    /\ LRUK.scan_inv k (l ++ [(f, s)]) a'.
Proof.
  intros Hk Hok Hinv. pose proof Hok as [Hn Hnk].
  assert (Hsp := span_nonneg s).
  unfold LRUK.evict_visit. ok_step. cbn [fst snd].
  rewrite (bool_decide_eq_false_2 (LRUK.record_nums_ s = 0)) by lia.
  rewrite orb_false_l.
  destruct (LRUK.evictable_ s) eqn:Hev; cbn [negb].
  2:{ (* not evictable: skipped *)
    exists a. split; [done|]. unfold LRUK.scan_inv in *.
    destruct (LRUK.flag a).
    - destruct Hinv as (f0 & s0 & Hres & Hin & Hev0 & Hcase).
      exists f0, s0. split; [done|]. split; [apply elem_of_app; by left|]. split; [done|].
      destruct Hcase as [(H1 & H2 & H3 & Hmin)|(H1 & H2 & H3 & H4 & Hmax)]; [left|right];
        repeat (split; [done|]); intros f' s' Hin' Hev';
        apply elem_of_app in Hin' as [Hin'|Hin']; eauto;
        apply list_elem_of_singleton in Hin'; congruence.
    - destruct Hinv as [-> Hall]. split; [done|].
      intros f' s' Hin' Hev'. apply elem_of_app in Hin' as [Hin'|Hin']; eauto.
      apply list_elem_of_singleton in Hin'. congruence. }
  rewrite (front_newest _ _ Hok), (back_oldest _ _ Hok). fold (LRUK.span s).
  unfold LRUK.scan_inv in Hinv. destruct (LRUK.flag a) eqn:Hflag.
  - destruct Hinv as (f0 & s0 & Hres & Hin & Hev0 & Hcase).
    destruct Hcase as [(H1 & H2 & H3 & Hmin)|(H1 & H2 & H3 & H4 & Hmax)].
    + (* a slot with fewer than k records is held *)
      case_bool_decide as Hyoung.
      * case_bool_decide as Hlt; [|case_bool_decide as Heq].
        -- ok_step. eexists. split; [done|]. unfold LRUK.scan_inv. cbn.
           exists f, s. split; [done|]. split; [apply elem_of_app; right; by apply list_elem_of_singleton|]. split; [done|].
           left. repeat (split; [done|]).
           intros f' s' Hin' Hev' Hy'. apply elem_of_app in Hin' as [Hin'|Hin'].
           ++ specialize (Hmin _ _ Hin' Hev' Hy'). unfold LRUK.fewer_then_earlier in *. lia.
           ++ apply list_elem_of_singleton in Hin'. simplify_eq.
              apply fewer_then_earlier_refl.
        -- ok_step. case_bool_decide as Hts.
           ++ eexists. split; [done|]. unfold LRUK.scan_inv. cbn.
              exists f, s. split; [done|]. split; [apply elem_of_app; right; by apply list_elem_of_singleton|]. split; [done|].
              left. split; [done|]. split; [lia|]. split; [done|].
              intros f' s' Hin' Hev' Hy'. apply elem_of_app in Hin' as [Hin'|Hin'].
              ** specialize (Hmin _ _ Hin' Hev' Hy').
                 unfold LRUK.fewer_then_earlier in *. lia.
              ** apply list_elem_of_singleton in Hin'. simplify_eq.
                 apply fewer_then_earlier_refl.
           ++ eexists. split; [done|]. unfold LRUK.scan_inv. rewrite Hflag.
              exists f0, s0. split; [done|]. split; [apply elem_of_app; by left|]. split; [done|].
              left. repeat (split; [done|]).
              intros f' s' Hin' Hev' Hy'. apply elem_of_app in Hin' as [Hin'|Hin']; eauto.
              apply list_elem_of_singleton in Hin'. simplify_eq.
              unfold LRUK.fewer_then_earlier. lia.
        -- eexists. split; [done|]. unfold LRUK.scan_inv. rewrite Hflag.
           exists f0, s0. split; [done|]. split; [apply elem_of_app; by left|]. split; [done|].
           left. repeat (split; [done|]).
           intros f' s' Hin' Hev' Hy'. apply elem_of_app in Hin' as [Hin'|Hin']; eauto.
           apply list_elem_of_singleton in Hin'. simplify_eq.
           unfold LRUK.fewer_then_earlier. lia.
      * rewrite bool_decide_eq_true_2 by lia.
        eexists. split; [done|]. unfold LRUK.scan_inv. rewrite Hflag.
        exists f0, s0. split; [done|]. split; [apply elem_of_app; by left|]. split; [done|].
        left. repeat (split; [done|]).
        intros f' s' Hin' Hev' Hy'. apply elem_of_app in Hin' as [Hin'|Hin']; eauto.
        apply list_elem_of_singleton in Hin'. simplify_eq. lia.
    + (* a slot with k records is held *)
      case_bool_decide as Hyoung.
      * rewrite bool_decide_eq_true_2 by lia. ok_step.
        eexists. split; [done|]. unfold LRUK.scan_inv. cbn.
        exists f, s. split; [done|]. split; [apply elem_of_app; right; by apply list_elem_of_singleton|]. split; [done|].
        left. repeat (split; [done|]).
        intros f' s' Hin' Hev' Hy'. apply elem_of_app in Hin' as [Hin'|Hin'].
        -- destruct (Hmax _ _ Hin' Hev'). lia.
        -- apply list_elem_of_singleton in Hin'. simplify_eq.
           apply fewer_then_earlier_refl.
      * rewrite bool_decide_eq_false_2 by lia. ok_step.
        case_bool_decide as Hgt; fold (LRUK.span s) in Hgt.
        -- eexists. split; [done|]. unfold LRUK.scan_inv. cbn.
           exists f, s. split; [done|]. split; [apply elem_of_app; right; by apply list_elem_of_singleton|]. split; [done|].
           right. split; [lia|]. split; [done|]. split; [done|]. split; [lia|].
           intros f' s' Hin' Hev'. apply elem_of_app in Hin' as [Hin'|Hin'].
           ++ destruct (Hmax _ _ Hin' Hev'). lia.
           ++ apply list_elem_of_singleton in Hin'. simplify_eq. lia.
        -- eexists. split; [done|]. unfold LRUK.scan_inv. rewrite Hflag.
           exists f0, s0. split; [done|]. split; [apply elem_of_app; by left|]. split; [done|].
           right. repeat (split; [done|]).
           intros f' s' Hin' Hev'. apply elem_of_app in Hin' as [Hin'|Hin']; eauto.
           apply list_elem_of_singleton in Hin'. simplify_eq. lia.
  - (* nothing held yet *)
    destruct Hinv as [-> Hall]. cbn [LRUK.evict_init LRUK.min_record_nums
      LRUK.max_distance LRUK.min_timestamp LRUK.result LRUK.flag].
    case_bool_decide as Hyoung.
    + rewrite bool_decide_eq_true_2 by lia. ok_step.
      eexists. split; [done|]. unfold LRUK.scan_inv. cbn.
      exists f, s. split; [done|]. split; [apply elem_of_app; right; by apply list_elem_of_singleton|]. split; [done|].
      left. repeat (split; [done|]).
      intros f' s' Hin' Hev' Hy'. apply elem_of_app in Hin' as [Hin'|Hin'].
      * destruct (Hall _ _ Hin' Hev'). lia.
      * apply list_elem_of_singleton in Hin'. simplify_eq.
        apply fewer_then_earlier_refl.
    + rewrite bool_decide_eq_false_2 by lia. ok_step.
      case_bool_decide as Hgt; fold (LRUK.span s) in Hgt.
      * eexists. split; [done|]. unfold LRUK.scan_inv. cbn.
        exists f, s. split; [done|]. split; [apply elem_of_app; right; by apply list_elem_of_singleton|]. split; [done|].
        right. split; [lia|]. split; [done|]. split; [done|]. split; [lia|].
        intros f' s' Hin' Hev'. apply elem_of_app in Hin' as [Hin'|Hin'].
        -- destruct (Hall _ _ Hin' Hev'). lia.
        -- apply list_elem_of_singleton in Hin'. simplify_eq. lia.
      * eexists. split; [done|]. unfold LRUK.scan_inv. cbn.
        split; [done|].
        intros f' s' Hin' Hev'. apply elem_of_app in Hin' as [Hin'|Hin']; eauto.
        apply list_elem_of_singleton in Hin'. simplify_eq. lia.
Qed.

Lemma evict_scan_inv k l :
  k <= LRUK.LONG_MAX -> (forall x, x ∈ l -> LRUK.slot_ok k x.2) ->
  exists a, foldl (LRUK.evict_visit k) (Ok LRUK.evict_init) l = Ok a
    /\ LRUK.scan_inv k l a.
Proof.
  intros Hk. induction l as [|[f s] l IH] using rev_ind; intros Hok.
  - exists LRUK.evict_init. split; [done|]. split; [done|].
    intros f' s' Hin. by apply elem_of_nil in Hin.
  - destruct IH as (a & Ha & Hinv).
    { intros x Hx. apply Hok, elem_of_app. by left. }
    rewrite foldl_app, Ha. cbn [foldl].
    apply evict_visit_inv; [done| |done].
    apply (Hok (f, s)), elem_of_app. right. by apply list_elem_of_singleton.
Qed.

Lemma length_removelast_cons (x : Z) l : length (removelast (x :: l)) = length l.
Proof.
  revert x. induction l as [|y l IH]; intros x; [done|].
  change (removelast (x :: y :: l)) with (x :: removelast (y :: l)).
  cbn [length]. by rewrite IH.
Qed.

(** Reachable replacers keep between 1 and [k_] records per slot. *)
Lemma reachable_slots_ok d (r : LRUK.Replacer) :
  LRUK.reachable d r -> 1 <= LRUK.k_ r < 2 ^ 64 /\ LRUK.slots_ok r.
Proof.
  induction 1 as [n k Hn Hk | r f r' _ [Hk IH] Hc | r f b r' _ [Hk IH] Hc
                 | r o r' _ [Hk IH] Hc | r f r' _ [Hk IH] Hc].
  - split; [done|]. intros f s Hs. unfold LRUK.init in Hs. cbn [LRUK.slots_] in Hs.
    by rewrite lookup_empty in Hs.
  - unfold LRUK.RecordAccess in Hc.
    destruct (LRUK.slots_ r !! f) as [s|] eqn:E.
    + injection Hc as <-. split; [done|]. intros f' s' Hs'.
      cbn [LRUK.slots_ LRUK.k_] in *.
      apply lookup_insert_Some in Hs' as [[<- <-]|[_ Hs']]; [|by eapply IH].
      destruct (IH _ _ E) as [Hn Hnk].
      case_bool_decide as Hfull; split; cbn [LRUK.records_ LRUK.record_nums_].
      * destruct (LRUK.records_ s) as [|x rest]; cbn [length] in *; [lia|].
        rewrite length_removelast_cons. lia.
      * lia.
      * unfold LRUK.wrap64. rewrite Z.mod_small by lia. cbn [length]. lia.
      * unfold LRUK.wrap64. rewrite Z.mod_small by lia. lia.
    + case_bool_decide; [|done]. injection Hc as <-. split; [done|].
      intros f' s' Hs'. simpl in *.
      apply lookup_insert_Some in Hs' as [[<- <-]|[_ Hs']]; [|by eapply IH].
      split; simpl; lia.
  - unfold LRUK.SetEvictable in Hc.
    destruct (LRUK.slots_ r !! f) as [s|] eqn:E; [|done].
    injection Hc as <-. split; [done|]. intros f' s' Hs'. simpl in *.
    apply lookup_insert_Some in Hs' as [[<- <-]|[_ Hs']]; [|by eapply IH].
    exact (IH _ _ E).
  - apply Evict_Ok in Hc as [[_ ->]|(f & s & _ & _ & _ & ->)]; [done|].
    split; [done|]. intros f' s' Hs'. simpl in *.
    apply lookup_delete_Some in Hs' as [_ Hs']. by eapply IH.
  - unfold LRUK.Remove in Hc. destruct (LRUK.slots_ r !! f) as [s|] eqn:E.
    + destruct (LRUK.evictable_ s); [|done]. injection Hc as <-.
      split; [done|]. intros f' s' Hs'. simpl in *.
      apply lookup_delete_Some in Hs' as [_ Hs']. by eapply IH.
    + by injection Hc as <-.
Qed.

(** C3 (as the code has it).  When some evictable frame has fewer than
    [k_] records, or has [k_] records with a positive span, [Evict] returns
    an evictable frame and erases its slot.  A frame with fewer than [k_]
    records is taken before any frame with [k_] records: the one with the
    fewest records, and among those the one whose most recent access is
    the earliest.  When every evictable frame has [k_] records, one with
    the greatest span between its oldest and its most recent kept access is
    taken. *)
Theorem Evict_selects (r : LRUK.Replacer) :
  LRUK.slots_ok r -> LRUK.k_ r <= LRUK.LONG_MAX ->
  (exists f s, LRUK.evictable_at r f s
     /\ (LRUK.record_nums_ s < LRUK.k_ r \/ 0 < LRUK.span s)) ->
  exists f s,
    LRUK.Evict r =
      Ok (Some f,
          LRUK.mkReplacer (LRUK.replacer_size_ r) (LRUK.k_ r)
            (delete f (LRUK.slots_ r)) (LRUK.current_timestamp_ r)
            (LRUK.wrap64 (LRUK.curr_size_ r - 1)))
    /\ LRUK.evictable_at r f s
    /\ ((LRUK.record_nums_ s < LRUK.k_ r
         /\ forall f' s', LRUK.evictable_at r f' s' ->
              LRUK.record_nums_ s' < LRUK.k_ r -> LRUK.fewer_then_earlier s s')
        \/ (forall f' s', LRUK.evictable_at r f' s' ->
              LRUK.k_ r <= LRUK.record_nums_ s' /\ LRUK.span s' <= LRUK.span s)).
Proof.
  intros Hok Hk (f1 & s1 & [Hs1 Hev1] & Hcand).
  destruct (evict_scan_inv (LRUK.k_ r) (map_to_list (LRUK.slots_ r)) Hk)
    as (a & Ha & Hinv).
  { intros [f s] Hin. apply elem_of_map_to_list in Hin. by eapply Hok. }
  unfold LRUK.Evict. rewrite Ha. ok_step.
  unfold LRUK.scan_inv in Hinv. destruct (LRUK.flag a).
  - destruct Hinv as (f & s & Hres & Hin & Hev & Hcase).
    apply elem_of_map_to_list in Hin. rewrite Hres.
    exists f, s. split; [done|]. split; [done|].
    destruct Hcase as [(H1 & _ & _ & Hmin)|(_ & _ & _ & _ & Hmax)]; [left|right].
    + split; [done|]. intros f' s' [Hs' Hev'] Hy'.
      apply (Hmin f' s'); [by apply elem_of_map_to_list|done|done].
    + intros f' s' [Hs' Hev']. apply (Hmax f' s'); [by apply elem_of_map_to_list|done].
  - destruct Hinv as [_ Hall].
    destruct (Hall f1 s1) as [Hm Hsp]; [by apply elem_of_map_to_list|done|]. lia.
Qed.

(** Witness of C3: frames 1 (two accesses) and 2 (one access), [K = 3]. *)
Lemma Evict_selects_witness :
  exists f s,
    LRUK.Evict LRUK.replacer_young =
      Ok (Some f,
          LRUK.mkReplacer (LRUK.replacer_size_ LRUK.replacer_young)
            (LRUK.k_ LRUK.replacer_young)
            (delete f (LRUK.slots_ LRUK.replacer_young))
            (LRUK.current_timestamp_ LRUK.replacer_young)
            (LRUK.wrap64 (LRUK.curr_size_ LRUK.replacer_young - 1)))
    /\ LRUK.evictable_at LRUK.replacer_young f s
    /\ ((LRUK.record_nums_ s < LRUK.k_ LRUK.replacer_young
         /\ forall f' s', LRUK.evictable_at LRUK.replacer_young f' s' ->
              LRUK.record_nums_ s' < LRUK.k_ LRUK.replacer_young ->
              LRUK.fewer_then_earlier s s')
        \/ (forall f' s', LRUK.evictable_at LRUK.replacer_young f' s' ->
              LRUK.k_ LRUK.replacer_young <= LRUK.record_nums_ s'
              /\ LRUK.span s' <= LRUK.span s)).
Proof.
  apply (Evict_selects LRUK.replacer_young).
  - exact (proj2 (reachable_slots_ok true _ replacer_young_reachable)).
  - vm_compute. discriminate.
  - exists 2, (LRUK.mkSlot [1] 1 true). split.
    + split; [vm_compute; reflexivity | reflexivity].
    + left. simpl. lia.
Defined.

(** Counterexample to C3 as stated, on three reachable replacers.
    (1) [K = 3]: frame 1 was first accessed at time 0, frame 2 at time 1,
    both have fewer than [K] accesses, and [Evict] takes frame 2.
    (2) [K = 2]: the second most recent access of frame 1 is at time 0, that
    of frame 2 at time 2, so frame 1 has the greater backward K-distance,
    and [Evict] takes frame 2.
    (3) [K = 1]: frame 1 is evictable and [Evict] takes nothing. *)
Lemma Evict_order_cex :
  (LRUK.reachable true LRUK.replacer_young
   /\ LRUK.slots_ LRUK.replacer_young !! 1 = Some (LRUK.mkSlot [2; 0] 2 true)
   /\ LRUK.slots_ LRUK.replacer_young !! 2 = Some (LRUK.mkSlot [1] 1 true)
   /\ LRUK.oldest (LRUK.mkSlot [2; 0] 2 true) < LRUK.oldest (LRUK.mkSlot [1] 1 true)
   /\ LRUK.Evict LRUK.replacer_young =
        Ok (Some 2, LRUK.mkReplacer 7 3 (<[1 := LRUK.mkSlot [2; 0] 2 true]> ∅) 3 1))
  /\ (LRUK.reachable true LRUK.replacer_mature
      /\ LRUK.current_timestamp_ LRUK.replacer_mature = 6
      /\ LRUK.slots_ LRUK.replacer_mature !! 1 = Some (LRUK.mkSlot [1; 0] 2 true)
      /\ LRUK.slots_ LRUK.replacer_mature !! 2 = Some (LRUK.mkSlot [5; 2] 2 true)
      /\ 6 - LRUK.oldest (LRUK.mkSlot [1; 0] 2 true)
         > 6 - LRUK.oldest (LRUK.mkSlot [5; 2] 2 true)
      /\ LRUK.Evict LRUK.replacer_mature =
           Ok (Some 2,
               LRUK.mkReplacer 7 2
                 (<[1 := LRUK.mkSlot [1; 0] 2 true]>
                    (<[3 := LRUK.mkSlot [4; 3] 2 false]> ∅)) 6 1))
  /\ (LRUK.reachable true LRUK.replacer_k1
      /\ LRUK.slots_ LRUK.replacer_k1 !! 1 = Some (LRUK.mkSlot [0] 1 true)
      /\ LRUK.Evict LRUK.replacer_k1 = Ok (None, LRUK.replacer_k1)).
Proof.
  split; [|split].
  - split; [exact replacer_young_reachable|].
    repeat split; try (vm_compute; reflexivity).
  - split; [exact replacer_mature_reachable|].
    repeat split; try (vm_compute; reflexivity).
  - split; [exact replacer_k1_reachable|].
    repeat split; vm_compute; reflexivity.
Qed.

(** Witness of C6: the replacer after three accesses and two
    [SetEvictable] calls. *)
Lemma Size_counts_evictable_witness :
  LRUK.Size LRUK.replacer_young
  = LRUK.wrap64 (Z.of_nat (LRUK.count_evictable LRUK.replacer_young))
  /\ (Z.of_nat (LRUK.count_evictable LRUK.replacer_young) < 2 ^ 64 ->
      LRUK.Size LRUK.replacer_young
      = Z.of_nat (LRUK.count_evictable LRUK.replacer_young))
  /\ (forall f r', LRUK.RecordAccess true LRUK.replacer_young f = Ok r' ->
        LRUK.count_evictable r'
        = (LRUK.count_evictable LRUK.replacer_young
           + match LRUK.slots_ LRUK.replacer_young !! f with None => 1 | Some _ => 0 end)%nat)
  /\ (forall f b r', LRUK.SetEvictable LRUK.replacer_young f b = Ok r' ->
        exists s, LRUK.slots_ LRUK.replacer_young !! f = Some s /\
          (LRUK.count_evictable r' + (if LRUK.evictable_ s then 1 else 0)
           = LRUK.count_evictable LRUK.replacer_young + (if b then 1 else 0))%nat)
  /\ (forall f r', LRUK.Evict LRUK.replacer_young = Ok (Some f, r') ->
        (LRUK.count_evictable r' + 1 = LRUK.count_evictable LRUK.replacer_young)%nat)
  /\ (forall f s r', LRUK.slots_ LRUK.replacer_young !! f = Some s ->
        LRUK.Remove LRUK.replacer_young f = Ok r' ->
        (LRUK.count_evictable r' + 1 = LRUK.count_evictable LRUK.replacer_young)%nat).
Proof.
  apply (Size_counts_evictable LRUK.replacer_young).
  apply (do_calls_reachable true LRUK.calls_young (LRUK.init 7 3)).
  - apply LRUK.reach_init; lia.
  - vm_compute. reflexivity.
Defined.

(** Counterexample to C6 as stated: on a new replacer, [RecordAccess(1)]
    takes [Size()] from 0 to 1, whatever [Slot()] sets the evictable flag
    to.  With a slot that starts non-evictable, [Size()] is then 1 for no
    evictable frame; with a slot that starts evictable, the call has changed
    the number of evictable frames. *)
Lemma RecordAccess_changes_Size_cex :
  LRUK.Size (LRUK.init 7 2) = 0
  /\ LRUK.count_evictable (LRUK.init 7 2) = 0%nat
  /\ (LRUK.RecordAccess false (LRUK.init 7 2) 1
        = Ok (LRUK.mkReplacer 7 2 (<[1 := LRUK.mkSlot [0] 1 false]> ∅) 1 1)
      /\ LRUK.Size (LRUK.mkReplacer 7 2 (<[1 := LRUK.mkSlot [0] 1 false]> ∅) 1 1) = 1
      /\ LRUK.count_evictable
           (LRUK.mkReplacer 7 2 (<[1 := LRUK.mkSlot [0] 1 false]> ∅) 1 1) = 0%nat)
  /\ (LRUK.RecordAccess true (LRUK.init 7 2) 1
        = Ok (LRUK.mkReplacer 7 2 (<[1 := LRUK.mkSlot [0] 1 true]> ∅) 1 1)
      /\ LRUK.Size (LRUK.mkReplacer 7 2 (<[1 := LRUK.mkSlot [0] 1 true]> ∅) 1 1) = 1
      /\ LRUK.count_evictable
           (LRUK.mkReplacer 7 2 (<[1 := LRUK.mkSlot [0] 1 true]> ∅) 1 1) = 1%nat).
Proof. repeat split; vm_compute; reflexivity. Qed.

(** *** Histories and timestamps *)

Lemma lookup_removelast {A} (l : list A) (i : nat) y :
  removelast l !! i = Some y -> l !! i = Some y.
Proof.
  revert i. induction l as [|a [|b l] IH]; intros i Hi; [done|done|].
  change (removelast (a :: b :: l)) with (a :: removelast (b :: l)) in Hi.
  destruct i as [|i]; [done|]. simpl in *. by apply IH.
Qed.

Lemma elem_of_removelast {A} (l : list A) x : x ∈ removelast l -> x ∈ l.
Proof.
  intros Hx. apply list_elem_of_lookup in Hx as [i Hi].
  apply list_elem_of_lookup. exists i. by apply lookup_removelast.
Qed.

Lemma do_calls_snoc d r cs c :
  LRUK.do_calls d r (cs ++ [c]) = LRUK.do_calls d r cs ≫= fun r' => LRUK.do_call d r' c.
Proof. unfold LRUK.do_calls. by rewrite foldl_app. Qed.

Lemma count_accesses_snoc cs c :
  LRUK.count_accesses (cs ++ [c])
  = (LRUK.count_accesses cs
     + match c with LRUK.CRecordAccess _ => 1 | _ => 0 end)%nat.
Proof.
  unfold LRUK.count_accesses. induction cs as [|c0 cs IH].
  - simpl. lia.
  - rewrite <-app_comm_cons, !fmap_cons. cbn [sum_list sum_list_with].
    change (sum_list_with id ?l) with (sum_list l). rewrite IH. lia.
Qed.

Lemma stamps_ok_slots (r r' : LRUK.Replacer) :
  LRUK.current_timestamp_ r' = LRUK.current_timestamp_ r ->
  (forall f s, LRUK.slots_ r' !! f = Some s ->
     exists s0, LRUK.slots_ r !! f = Some s0 /\ LRUK.records_ s = LRUK.records_ s0) ->
  LRUK.stamps_ok r -> LRUK.stamps_ok r'.
Proof.
  intros Ets Hsl Hok f s Hs. destruct (Hsl f s Hs) as (s0 & Hs0 & ->).
  rewrite Ets. by apply (Hok f).
Qed.

(** One call keeps the timestamps in order, and advances the clock by one
    when it is a [RecordAccess]. *)
Lemma do_call_stamps d (r : LRUK.Replacer) c r' :
  0 <= LRUK.current_timestamp_ r ->
  (forall f, c = LRUK.CRecordAccess f -> LRUK.current_timestamp_ r + 1 < 2 ^ 64) ->
  LRUK.stamps_ok r -> LRUK.do_call d r c = Ok r' ->
  LRUK.stamps_ok r'
  /\ LRUK.current_timestamp_ r'
     = LRUK.current_timestamp_ r
       + match c with LRUK.CRecordAccess _ => 1 | _ => 0 end.
Proof.
  intros Hts0 Hts Hok Hc. destruct c as [f|f b| |f]; cbn [LRUK.do_call] in Hc.
  - specialize (Hts f eq_refl).
    assert (Hw : LRUK.wrap64 (LRUK.current_timestamp_ r + 1)
                 = LRUK.current_timestamp_ r + 1)
      by (unfold LRUK.wrap64; apply Z.mod_small; lia).
    assert (Hcons : forall l,
              (forall x, x ∈ l -> 0 <= x < LRUK.current_timestamp_ r) ->
              (forall (i j : nat) x y, (i < j)%nat ->
                 l !! i = Some x -> l !! j = Some y -> y < x) ->
              (forall x, x ∈ LRUK.current_timestamp_ r :: l ->
                 0 <= x < LRUK.current_timestamp_ r + 1)
              /\ (forall (i j : nat) x y, (i < j)%nat ->
                    (LRUK.current_timestamp_ r :: l) !! i = Some x ->
                    (LRUK.current_timestamp_ r :: l) !! j = Some y -> y < x)).
    { intros l Hb Hs. split.
      - intros x Hx. apply elem_of_cons in Hx as [->|Hx]; [lia|].
        specialize (Hb x Hx). lia.
      - intros i j x y Hij Hi Hj. destruct j as [|j]; [lia|]. simpl in Hj.
        destruct i as [|i]; simpl in Hi.
        + injection Hi as <-. apply list_elem_of_lookup_2 in Hj.
          specialize (Hb y Hj). lia.
        + apply (Hs i j); [lia|done..]. }
    unfold LRUK.RecordAccess in Hc.
    destruct (LRUK.slots_ r !! f) as [s|] eqn:E.
    + injection Hc as <-. cbn [LRUK.current_timestamp_]. split; [|exact Hw].
      intros f' s' Hs'. cbn [LRUK.slots_ LRUK.current_timestamp_] in *. rewrite Hw.
      apply lookup_insert_Some in Hs' as [[<- <-]|[_ Hs']].
      * destruct (Hok _ _ E) as [Hb Hs].
        destruct (Hcons _ Hb Hs) as [Hb' Hs'].
        case_bool_decide; cbn [LRUK.records_]; [|done]. split.
        -- intros x Hx. apply Hb'. by apply elem_of_removelast.
        -- intros i j x y Hij Hi Hj.
           apply (Hs' i j); [done|by apply lookup_removelast..].
      * destruct (Hok _ _ Hs') as [Hb Hs]. split; [|done].
        intros x Hx. specialize (Hb x Hx). lia.
    + case_bool_decide; [|done]. injection Hc as <-.
      cbn [LRUK.current_timestamp_]. split; [|exact Hw].
      intros f' s' Hs'. cbn [LRUK.slots_ LRUK.current_timestamp_] in *. rewrite Hw.
      apply lookup_insert_Some in Hs' as [[<- <-]|[_ Hs']].
      * cbn [LRUK.records_]. apply (Hcons []).
        -- intros x Hx. by apply elem_of_nil in Hx.
        -- intros i j x y _ Hi. by rewrite lookup_nil in Hi.
      * destruct (Hok _ _ Hs') as [Hb Hs]. split; [|done].
        intros x Hx. specialize (Hb x Hx). lia.
  - unfold LRUK.SetEvictable in Hc.
    destruct (LRUK.slots_ r !! f) as [s|] eqn:E; [|done]. injection Hc as <-.
    split; [|simpl; lia]. eapply stamps_ok_slots; [| |exact Hok]; [done|].
    intros f' s' Hs'. cbn [LRUK.slots_] in Hs'.
    apply lookup_insert_Some in Hs' as [[<- <-]|[_ Hs']]; eauto.
  - inv_bind Hc as res Hres. destruct res as [o r1]. cbn [snd] in Hc.
    injection Hc as <-.
    apply Evict_Ok in Hres as [[_ ->]|(f & s & _ & _ & _ & ->)];
      (split; [|simpl; lia]); [done|].
    eapply stamps_ok_slots; [| |exact Hok]; [done|].
    intros f' s' Hs'. cbn [LRUK.slots_] in Hs'.
    apply lookup_delete_Some in Hs' as [_ Hs']. eauto.
  - unfold LRUK.Remove in Hc. destruct (LRUK.slots_ r !! f) as [s|] eqn:E.
    + destruct (LRUK.evictable_ s); [|done]. injection Hc as <-.
      split; [|simpl; lia]. eapply stamps_ok_slots; [| |exact Hok]; [done|].
      intros f' s' Hs'. cbn [LRUK.slots_] in Hs'.
      apply lookup_delete_Some in Hs' as [_ Hs']. eauto.
    + injection Hc as <-. split; [done|lia].
Qed.

Lemma last_lookup_default (l : list Z) x :
  List.last (x :: l) 0 = x \/ exists j, (x :: l) !! S j = Some (List.last (x :: l) 0).
Proof.
  destruct l as [|y l]; [by left|]. right.
  destruct (last (x :: y :: l)) as [z|] eqn:E.
  - rewrite (last_default _ _ E). rewrite last_lookup in E. simpl in E.
    exists (length l). exact E.
  - by apply last_None in E.
Qed.

(** X11.  After a sequence of calls on a new replacer (fewer than [2^64]
    of them calls of [RecordAccess]), the clock is the number of
    [RecordAccess] calls; the timestamps of every slot lie below it and
    decrease strictly from the front of the history, so the difference
    [front() - back()] that [Evict] computes is the time between the
    oldest and the most recent access kept, without wrap-around. *)
Theorem timestamps_decrease (d : bool) (num_frames k : Z)
    (cs : list LRUK.call) (r : LRUK.Replacer) :
  LRUK.do_calls d (LRUK.init num_frames k) cs = Ok r ->
  Z.of_nat (LRUK.count_accesses cs) < 2 ^ 64 ->
  LRUK.current_timestamp_ r = Z.of_nat (LRUK.count_accesses cs)
  /\ LRUK.stamps_ok r
  /\ (forall f s, LRUK.slots_ r !! f = Some s ->
        LRUK.oldest s <= LRUK.newest s
        /\ LRUK.span s = LRUK.newest s - LRUK.oldest s).
Proof.
  intros Hrun Hcount.
  assert (Hinv : LRUK.current_timestamp_ r = Z.of_nat (LRUK.count_accesses cs)
                 /\ LRUK.stamps_ok r).
  { revert r Hrun Hcount. induction cs as [|c cs IH] using rev_ind; intros r Hrun Hcount.
    - injection Hrun as <-. split; [done|]. intros f s Hs.
      unfold LRUK.init in Hs. cbn [LRUK.slots_] in Hs. by rewrite lookup_empty in Hs.
    - rewrite do_calls_snoc in Hrun. inv_bind Hrun as r1 Hr1.
      rewrite count_accesses_snoc in Hcount |- *.
      destruct (IH r1 Hr1) as [Hts Hok]; [lia|].
      destruct (do_call_stamps d r1 c r) as [Hok' Hts']; [lia| |done|done|].
      + intros f ->. lia.
      + split; [|done]. rewrite Hts', Hts. destruct c; lia. }
  destruct Hinv as [Hts Hok]. split; [done|]. split; [done|].
  intros f s Hs. destruct (Hok f s Hs) as [Hb Hsorted].
  unfold LRUK.span, LRUK.newest, LRUK.oldest, LRUK.wrap64.
  destruct (LRUK.records_ s) as [|x l]; [done|]. cbn [hd].
  assert (Hx : 0 <= x < LRUK.current_timestamp_ r) by (apply Hb; by left).
  destruct (last_lookup_default l x) as [->|[j Hj]].
  - split; [lia|]. rewrite Z.mod_small; lia.
  - pose proof (Hsorted 0%nat (S j) x _ ltac:(lia) eq_refl Hj) as Hlt.
    apply list_elem_of_lookup_2 in Hj. specialize (Hb _ Hj).
    split; [lia|]. rewrite Z.mod_small; lia.
Qed.

(** Witness of X11: the calls that lead to [replacer_mature]. *)
Lemma timestamps_decrease_witness :
  LRUK.current_timestamp_ LRUK.replacer_mature
    = Z.of_nat (LRUK.count_accesses LRUK.calls_mature)
  /\ LRUK.stamps_ok LRUK.replacer_mature
  /\ (forall f s, LRUK.slots_ LRUK.replacer_mature !! f = Some s ->
        LRUK.oldest s <= LRUK.newest s
        /\ LRUK.span s = LRUK.newest s - LRUK.oldest s).
Proof.
  apply (timestamps_decrease true 7 2 LRUK.calls_mature LRUK.replacer_mature).
  - vm_compute. reflexivity.
  - vm_compute. reflexivity.
Defined.

(** *** The history of a slot, the evictable flag, and what [Evict] spares *)

Lemma removelast_take (x : Z) l k :
  length l = k -> removelast (x :: l) = take k (x :: l).
Proof.
  intros <-. revert x. induction l as [|y l IH]; intros x; [done|].
  change (removelast (x :: y :: l)) with (x :: removelast (y :: l)).
  by rewrite IH.
Qed.

(** X10.  In every reachable replacer each slot keeps between 1 and [k_]
    timestamps, as many as [record_nums_] says; [RecordAccess] on a frame
    that has a slot returns, puts the current timestamp in front of the
    history and keeps its first [k_] entries, and leaves the evictable
    flag, the other slots and [Size()] as they are. *)
Theorem slots_hold_history (d : bool) (r : LRUK.Replacer) :
  LRUK.reachable d r ->
  forall f s, LRUK.slots_ r !! f = Some s ->
    LRUK.record_nums_ s = Z.of_nat (length (LRUK.records_ s))
    /\ 1 <= LRUK.record_nums_ s <= LRUK.k_ r
    /\ exists r' s',
         LRUK.RecordAccess d r f = Ok r'
         /\ LRUK.slots_ r' = <[f := s']> (LRUK.slots_ r)
         /\ LRUK.records_ s'
            = take (Z.to_nat (LRUK.k_ r)) (LRUK.current_timestamp_ r :: LRUK.records_ s)
         /\ LRUK.record_nums_ s' = Z.of_nat (length (LRUK.records_ s'))
         /\ LRUK.evictable_ s' = LRUK.evictable_ s
         /\ LRUK.Size r' = LRUK.Size r.
Proof.
  intros Hr f s Hs. destruct (reachable_slots_ok d r Hr) as [Hk Hok].
  destruct (Hok f s Hs) as [Hn Hnk]. split; [done|]. split; [done|].
  unfold LRUK.RecordAccess. rewrite Hs. eexists. eexists. split; [done|].
  cbn [LRUK.slots_]. split; [done|].
  case_bool_decide as Hfull; cbn [LRUK.records_ LRUK.record_nums_ LRUK.evictable_].
  - split; [apply removelast_take; lia|]. split; [|done].
    destruct (LRUK.records_ s) as [|x l]; cbn [length] in *; [lia|].
    rewrite length_removelast_cons. cbn [length]. lia.
  - split; [|split; [|done]].
    + rewrite take_ge; [done|]. cbn [length]. lia.
    + unfold LRUK.wrap64. rewrite Z.mod_small by lia. cbn [length]. lia.
Qed.

(** Witness of X10: frame 2 of [replacer_mature]. *)
Lemma slots_hold_history_witness :
  LRUK.reachable true LRUK.replacer_mature /\
  (LRUK.record_nums_ (LRUK.mkSlot [5; 2] 2 true)
     = Z.of_nat (length (LRUK.records_ (LRUK.mkSlot [5; 2] 2 true)))
   /\ 1 <= LRUK.record_nums_ (LRUK.mkSlot [5; 2] 2 true) <= LRUK.k_ LRUK.replacer_mature
   /\ exists r' s',
        LRUK.RecordAccess true LRUK.replacer_mature 2 = Ok r'
        /\ LRUK.slots_ r' = <[2 := s']> (LRUK.slots_ LRUK.replacer_mature)
        /\ LRUK.records_ s'
           = take (Z.to_nat (LRUK.k_ LRUK.replacer_mature))
               (LRUK.current_timestamp_ LRUK.replacer_mature
                :: LRUK.records_ (LRUK.mkSlot [5; 2] 2 true))
        /\ LRUK.record_nums_ s' = Z.of_nat (length (LRUK.records_ s'))
        /\ LRUK.evictable_ s' = LRUK.evictable_ (LRUK.mkSlot [5; 2] 2 true)
        /\ LRUK.Size r' = LRUK.Size LRUK.replacer_mature).
Proof.
  split.
  - exact replacer_mature_reachable.
  - apply (slots_hold_history true LRUK.replacer_mature replacer_mature_reachable 2).
    vm_compute. reflexivity.
Defined.

Lemma reachable_size_range d (r : LRUK.Replacer) :
  LRUK.reachable d r -> 0 <= LRUK.curr_size_ r < 2 ^ 64.
Proof.
  assert (Hw : forall z, 0 <= LRUK.wrap64 z < 2 ^ 64)
    by (intros z; unfold LRUK.wrap64; apply Z.mod_pos_bound; lia).
  induction 1 as [n k Hn Hk | r f r' _ IH Hc | r f b r' _ IH Hc
                 | r o r' _ IH Hc | r f r' _ IH Hc].
  - simpl. lia.
  - unfold LRUK.RecordAccess in Hc. destruct (LRUK.slots_ r !! f) as [s|].
    + by injection Hc as <-.
    + case_bool_decide; [|done]. injection Hc as <-. apply Hw.
  - unfold LRUK.SetEvictable in Hc. destruct (LRUK.slots_ r !! f) as [s|]; [|done].
    injection Hc as <-. cbn [LRUK.curr_size_].
    destruct (LRUK.evictable_ s), b; simpl; done || apply Hw.
  - apply Evict_Ok in Hc as [[_ ->]|(f & s & _ & _ & _ & ->)]; [done|apply Hw].
  - unfold LRUK.Remove in Hc. destruct (LRUK.slots_ r !! f) as [s|].
    + destruct (LRUK.evictable_ s); [|done]. injection Hc as <-. apply Hw.
    + by injection Hc as <-.
Qed.

(** X12.  Two calls of [SetEvictable] on the same frame have the effect of
    the second one alone: on every reachable replacer, the flag, the
    history and [Size()] after [SetEvictable(f, b)] and then
    [SetEvictable(f, b')] are those after [SetEvictable(f, b')]. *)
Theorem SetEvictable_last_wins (d : bool) (r r1 r2 : LRUK.Replacer)
    (f : Z) (b b' : bool) :
  LRUK.reachable d r ->
  LRUK.SetEvictable r f b = Ok r1 -> LRUK.SetEvictable r1 f b' = Ok r2 ->
  LRUK.SetEvictable r f b' = Ok r2.
Proof.
  intros Hr H1 H2. pose proof (reachable_size_range d r Hr) as Hc.
  unfold LRUK.SetEvictable in *.
  destruct (LRUK.slots_ r !! f) as [s|] eqn:E; [|done]. injection H1 as <-.
  cbn [LRUK.slots_ LRUK.curr_size_ LRUK.replacer_size_ LRUK.k_
       LRUK.current_timestamp_] in H2.
  rewrite lookup_insert_eq in H2. injection H2 as <-.
  cbn [LRUK.records_ LRUK.record_nums_ LRUK.evictable_].
  rewrite insert_insert_eq. do 2 f_equal.
  assert (Hup : LRUK.wrap64 (LRUK.wrap64 (LRUK.curr_size_ r - 1) + 1) = LRUK.curr_size_ r).
  { rewrite wrap64_add_l. unfold LRUK.wrap64.
    replace (LRUK.curr_size_ r - 1 + 1) with (LRUK.curr_size_ r) by lia.
    apply Z.mod_small. lia. }
  assert (Hdown : LRUK.wrap64 (LRUK.wrap64 (LRUK.curr_size_ r + 1) - 1) = LRUK.curr_size_ r).
  { rewrite wrap64_sub_l. unfold LRUK.wrap64.
    replace (LRUK.curr_size_ r + 1 - 1) with (LRUK.curr_size_ r) by lia.
    apply Z.mod_small. lia. }
  destruct (LRUK.evictable_ s), b, b'; simpl; congruence.
Qed.

(** Witness of X12: frame 1 of [replacer_young], made non-evictable and
    evictable again. *)
Lemma SetEvictable_last_wins_witness :
  LRUK.reachable true LRUK.replacer_young
  /\ LRUK.SetEvictable LRUK.replacer_young 1 true = Ok LRUK.replacer_young.
Proof.
  split; [exact replacer_young_reachable|].
  apply (SetEvictable_last_wins true LRUK.replacer_young
           (LRUK.mkReplacer 7 3
              (<[1 := LRUK.mkSlot [2; 0] 2 false]> (LRUK.slots_ LRUK.replacer_young)) 3 1)
           LRUK.replacer_young 1 false true replacer_young_reachable).
  - vm_compute. reflexivity.
  - vm_compute. reflexivity.
Defined.

Lemma evict_visit_skips k a (it : Z * LRUK.Slot) :
  LRUK.evictable_ it.2 = false -> LRUK.evict_visit k (Ok a) it = Ok a.
Proof.
  intros Hev. unfold LRUK.evict_visit. ok_step. rewrite Hev.
  by rewrite orb_true_r.
Qed.

(** X13.  When no slot is evictable (in particular on an empty replacer),
    [Evict] returns false and changes nothing. *)
Theorem Evict_nothing_evictable (r : LRUK.Replacer) :
  (forall f s, LRUK.slots_ r !! f = Some s -> LRUK.evictable_ s = false) ->
  LRUK.Evict r = Ok (None, r).
Proof.
  intros Hall. unfold LRUK.Evict.
  assert (Hfold : forall l a,
            (forall it, it ∈ l -> LRUK.evictable_ it.2 = false) ->
            foldl (LRUK.evict_visit (LRUK.k_ r)) (Ok a) l = Ok a).
  { induction l as [|it l IH]; intros a Hl; [done|]. cbn [foldl].
    rewrite evict_visit_skips by (apply Hl; by left).
    apply IH. intros it' Hit'. apply Hl. by right. }
  rewrite Hfold; [done|]. intros [f s] Hin.
  apply elem_of_map_to_list in Hin. by apply (Hall f).
Qed.

(** Witness of X13: one frame, accessed and not evictable. *)
Lemma Evict_nothing_evictable_witness :
  LRUK.Evict LRUK.replacer_pinned = Ok (None, LRUK.replacer_pinned).
Proof.
  apply Evict_nothing_evictable. intros f s Hs.
  unfold LRUK.replacer_pinned in Hs. cbn [LRUK.slots_] in Hs.
  apply lookup_insert_Some in Hs as [[_ <-]|[_ Hs]]; [done|].
  by rewrite lookup_empty in Hs.
Defined.

(** X14.  [Evict] never takes a frame that is not evictable: when it
    returns a frame, that frame had a slot with the evictable flag set; the
    slot is erased, [Size()] goes down by one, and the other slots and the
    clock are as before.  When it returns no frame, nothing has changed. *)
Theorem Evict_spares_pinned (r : LRUK.Replacer) (o : option Z) (r' : LRUK.Replacer) :
  LRUK.Evict r = Ok (o, r') ->
  match o with
  | None => r' = r
  | Some f =>
      (exists s, LRUK.slots_ r !! f = Some s /\ LRUK.evictable_ s = true)
      /\ LRUK.slots_ r' !! f = None
      /\ (forall f', f' <> f -> LRUK.slots_ r' !! f' = LRUK.slots_ r !! f')
      /\ LRUK.Size r' = LRUK.wrap64 (LRUK.Size r - 1)
      /\ LRUK.current_timestamp_ r' = LRUK.current_timestamp_ r
      /\ LRUK.k_ r' = LRUK.k_ r /\ LRUK.replacer_size_ r' = LRUK.replacer_size_ r
  end.
Proof.
  intros He. apply Evict_Ok in He as [[-> ->]|(f & s & -> & Hs & Hev & ->)]; [done|].
  cbn [LRUK.slots_ LRUK.Size LRUK.curr_size_ LRUK.current_timestamp_ LRUK.k_
       LRUK.replacer_size_].
  split; [by exists s|]. split; [apply lookup_delete_eq|].
  split; [|done]. intros f' Hne. by apply lookup_delete_ne.
Qed.

(** Witness of X14: [Evict] on [replacer_mature] takes frame 2. *)
Lemma Evict_spares_pinned_witness :
  (exists s, LRUK.slots_ LRUK.replacer_mature !! 2 = Some s
             /\ LRUK.evictable_ s = true)
  /\ LRUK.slots_ (LRUK.mkReplacer 7 2
                    (<[1 := LRUK.mkSlot [1; 0] 2 true]>
                       (<[3 := LRUK.mkSlot [4; 3] 2 false]> ∅)) 6 1) !! 2 = None
  /\ (forall f', f' <> 2 ->
        LRUK.slots_ (LRUK.mkReplacer 7 2
                       (<[1 := LRUK.mkSlot [1; 0] 2 true]>
                          (<[3 := LRUK.mkSlot [4; 3] 2 false]> ∅)) 6 1) !! f'
        = LRUK.slots_ LRUK.replacer_mature !! f')
  /\ LRUK.Size (LRUK.mkReplacer 7 2
                  (<[1 := LRUK.mkSlot [1; 0] 2 true]>
                     (<[3 := LRUK.mkSlot [4; 3] 2 false]> ∅)) 6 1)
     = LRUK.wrap64 (LRUK.Size LRUK.replacer_mature - 1)
  /\ LRUK.current_timestamp_
       (LRUK.mkReplacer 7 2
          (<[1 := LRUK.mkSlot [1; 0] 2 true]>
             (<[3 := LRUK.mkSlot [4; 3] 2 false]> ∅)) 6 1)
     = LRUK.current_timestamp_ LRUK.replacer_mature
  /\ LRUK.k_ (LRUK.mkReplacer 7 2
                (<[1 := LRUK.mkSlot [1; 0] 2 true]>
                   (<[3 := LRUK.mkSlot [4; 3] 2 false]> ∅)) 6 1)
     = LRUK.k_ LRUK.replacer_mature
  /\ LRUK.replacer_size_
       (LRUK.mkReplacer 7 2
          (<[1 := LRUK.mkSlot [1; 0] 2 true]>
             (<[3 := LRUK.mkSlot [4; 3] 2 false]> ∅)) 6 1)
     = LRUK.replacer_size_ LRUK.replacer_mature.
Proof.
  apply (Evict_spares_pinned LRUK.replacer_mature (Some 2)).
  vm_compute. reflexivity.
Defined.

(** X15.  When every evictable frame has [k_] records whose oldest and
    most recent timestamps coincide, [Evict] returns false although frames
    are evictable: a span of 0 never exceeds the initial [max_distance].
    With [k_ = 1] this is so in every state: the replacer never evicts. *)
Theorem Evict_zero_span (r : LRUK.Replacer) :
  LRUK.slots_ok r -> LRUK.k_ r <= LRUK.LONG_MAX ->
  (forall f s, LRUK.evictable_at r f s ->
     LRUK.k_ r <= LRUK.record_nums_ s /\ LRUK.span s = 0)
  \/ LRUK.k_ r = 1 ->
  LRUK.Evict r = Ok (None, r).
Proof.
  intros Hok Hk Hzero.
  assert (Hall : forall f s, LRUK.evictable_at r f s ->
            LRUK.k_ r <= LRUK.record_nums_ s /\ LRUK.span s = 0).
  { destruct Hzero as [Hz|Hk1]; [exact Hz|]. intros f s [Hs _].
    destruct (Hok f s Hs) as [Hn Hnk]. split; [lia|].
    unfold LRUK.span, LRUK.newest, LRUK.oldest.
    destruct (LRUK.records_ s) as [|x [|y l]]; cbn [length] in Hn; [lia| |lia].
    simpl. unfold LRUK.wrap64. by rewrite Z.sub_diag. }
  destruct (evict_scan_inv (LRUK.k_ r) (map_to_list (LRUK.slots_ r)) Hk)
    as (a & Ha & Hinv).
  { intros [f s] Hin. apply elem_of_map_to_list in Hin. by eapply Hok. }
  unfold LRUK.Evict. rewrite Ha. ok_step.
  unfold LRUK.scan_inv in Hinv. destruct (LRUK.flag a); [|done].
  destruct Hinv as (f & s & Hres & Hin & Hev & Hcase).
  apply elem_of_map_to_list in Hin.
  destruct (Hall f s (conj Hin Hev)) as [Hge Hsp].
  destruct Hcase as [(Hlt & _)|(_ & _ & _ & Hpos & _)]; lia.
Qed.

(** Witness of X15: [K = 1], frame 1 accessed once and evictable. *)
Lemma Evict_zero_span_witness :
  LRUK.Evict LRUK.replacer_k1 = Ok (None, LRUK.replacer_k1).
Proof.
  apply Evict_zero_span.
  - exact (proj2 (reachable_slots_ok true _ replacer_k1_reachable)).
  - vm_compute. discriminate.
  - right. reflexivity.
Defined.

(** ** Buffer pool manager *)

Lemma pool_dirty_pinned_run :
  BPM.run 1 4 BPM.calls_dirty_pinned = Ok BPM.pool_dirty_pinned.
Proof. vm_compute. reflexivity. Qed.

Lemma pool_dirty_unpinned_run :
  BPM.run 1 4 BPM.calls_dirty_unpinned = Ok BPM.pool_dirty_unpinned.
Proof. vm_compute. reflexivity. Qed.

Lemma wrap32_small z : - 2 ^ 31 <= z < 2 ^ 31 -> BPM.wrap32 z = z.
Proof. intros Hz. unfold BPM.wrap32. rewrite Z.mod_small; lia. Qed.

(** C1 (as the code has it).  For a resident page with a positive pin
    count, [UnpinPgImp] returns true, takes one off the pin count, marks
    the frame evictable in the replacer when the count reaches zero, and
    assigns the argument to the dirty flag, whatever the flag was. *)
Theorem UnpinPgImp_assigns_dirty {Data} (b : BPM.Pool Data)
    (page_id : Z) (is_dirty : bool) (f : Z) (pg : BPM.Page Data) :
  BPM.frame_of b page_id = Ok (Some f) ->
  vec_at (BPM.pages_ b) f = Ok pg ->
  0 < BPM.pin_count_ pg < 2 ^ 31 ->
  (BPM.pin_count_ pg = 1 -> is_Some (LRUK.slots_ (BPM.replacer_ b) !! f)) ->
  exists r,
    BPM.UnpinPgImp Data b page_id is_dirty =
      Ok (true,
          BPM.mkPool (BPM.pool_size_ b)
            (<[Z.to_nat f :=
                 BPM.mkPage (BPM.data_ pg) (BPM.page_id_ pg)
                            (BPM.pin_count_ pg - 1) is_dirty]> (BPM.pages_ b))
            (BPM.page_table_ b) r (BPM.free_list_ b)
            (BPM.next_page_id_ b) (BPM.disk_ b))
    /\ (if bool_decide (BPM.pin_count_ pg = 1)
        then LRUK.SetEvictable (BPM.replacer_ b) f true = Ok r
             /\ exists s, LRUK.slots_ r !! f = Some s /\ LRUK.evictable_ s = true
        else r = BPM.replacer_ b).
Proof.
  intros Hfind Hpg Hpin Hslot. unfold BPM.UnpinPgImp, BPM.frame_of in *.
  rewrite Hfind. ok_step. rewrite Hpg. ok_step.
  rewrite bool_decide_eq_false_2 by lia. cbv zeta.
  rewrite wrap32_small by lia.
  assert (Hset : vec_set (BPM.pages_ b) f
                   (BPM.mkPage (BPM.data_ pg) (BPM.page_id_ pg)
                      (BPM.pin_count_ pg - 1) is_dirty)
                 = Ok (<[Z.to_nat f := BPM.mkPage (BPM.data_ pg) (BPM.page_id_ pg)
                            (BPM.pin_count_ pg - 1) is_dirty]> (BPM.pages_ b))).
  { apply vec_at_Ok in Hpg as [Hf Hl]. apply lookup_lt_Some in Hl.
    unfold vec_set. rewrite bool_decide_eq_true_2 by lia. done. }
  destruct (decide (BPM.pin_count_ pg = 1)) as [H1|H1].
  - rewrite !bool_decide_eq_true_2 by lia.
    destruct Hslot as [s Hs]; [done|].
    unfold LRUK.SetEvictable at 1. rewrite Hs. ok_step. rewrite Hset. ok_step.
    eexists. split; [done|]. split.
    + unfold LRUK.SetEvictable. by rewrite Hs.
    + eexists. split; [apply lookup_insert_eq|done].
  - rewrite !bool_decide_eq_false_2 by lia. ok_step. rewrite Hset. ok_step.
    eexists. split; done.
Qed.

(** Witness of C1: page 0, dirty and pinned once, in a pool of one frame. *)
Lemma UnpinPgImp_assigns_dirty_witness :
  exists r,
    BPM.UnpinPgImp (list Z) BPM.pool_dirty_pinned 0 false =
      Ok (true,
          BPM.mkPool (BPM.pool_size_ BPM.pool_dirty_pinned)
            (<[Z.to_nat 0 :=
                 BPM.mkPage (BPM.data_ (BPM.mkPage BPM.zero4 0 1 true))
                            (BPM.page_id_ (BPM.mkPage BPM.zero4 0 1 true))
                            (BPM.pin_count_ (BPM.mkPage BPM.zero4 0 1 true) - 1) false]>
               (BPM.pages_ BPM.pool_dirty_pinned))
            (BPM.page_table_ BPM.pool_dirty_pinned) r
            (BPM.free_list_ BPM.pool_dirty_pinned)
            (BPM.next_page_id_ BPM.pool_dirty_pinned)
            (BPM.disk_ BPM.pool_dirty_pinned))
    /\ (if bool_decide (BPM.pin_count_ (BPM.mkPage BPM.zero4 0 1 true) = 1)
        then LRUK.SetEvictable (BPM.replacer_ BPM.pool_dirty_pinned) 0 true = Ok r
             /\ exists s, LRUK.slots_ r !! 0 = Some s /\ LRUK.evictable_ s = true
        else r = BPM.replacer_ BPM.pool_dirty_pinned).
Proof.
  apply (UnpinPgImp_assigns_dirty BPM.pool_dirty_pinned 0 false 0
           (BPM.mkPage BPM.zero4 0 1 true)).
  - vm_compute. reflexivity.
  - vm_compute. reflexivity.
  - simpl. lia.
  - intros _. vm_compute. eexists. reflexivity.
Defined.

(** Counterexample to C1 as stated: page 0 is resident, pinned once and
    dirty; [UnpinPgImp(0, false)] returns true and leaves the dirty flag
    false. *)
Lemma UnpinPgImp_clean_unpin_cex :
  BPM.run 1 4 BPM.calls_dirty_pinned = Ok BPM.pool_dirty_pinned
  /\ BPM.frame_of BPM.pool_dirty_pinned 0 = Ok (Some 0)
  /\ BPM.page_at BPM.pool_dirty_pinned 0 = Some (BPM.mkPage BPM.zero4 0 1 true)
  /\ (res ← BPM.UnpinPgImp (list Z) BPM.pool_dirty_pinned 0 false;
      Ok (res.1, BPM.page_at res.2 0))
     = Ok (true, Some (BPM.mkPage BPM.zero4 0 0 false)).
Proof. repeat split; vm_compute; reflexivity. Qed.

(** C4 (on the code).  In a pool of one frame, page 0 is created and
    unpinned dirty; the next [NewPgImp] evicts it and hands out frame 0 for
    page 1 with pin count 1 and a zeroed payload, but with the dirty flag
    still set. *)
Theorem NewPgImp_keeps_dirty_flag :
  BPM.run 1 4 BPM.calls_dirty_unpinned = Ok BPM.pool_dirty_unpinned
  /\ (res ← BPM.NewPgImp (list Z) BPM.zero4 true 8 BPM.pool_dirty_unpinned;
      Ok (res.1, BPM.page_at res.2 0, BPM.frame_of res.2 1))
     = Ok (Some (0, 1), Some (BPM.mkPage BPM.zero4 1 1 true), Ok (Some 0)).
Proof. split; vm_compute; reflexivity. Qed.

(** C5 (on the code).  (1) In a pool of eleven frames with page-table
    buckets of four entries, ten pages are fetched and stay pinned; page 5
    is in frame 5 and in the table.  Fetching page 9 then splits a bucket of
    the table, after which frame 5 still holds page 5, pinned, and the
    table no longer has an entry for it.  (2) After [NewPage],
    [UnpinPage(0)], [DeletePage(0)] frame 0, back on the free list, still
    carries page id 0, and the page table has no entry for it. *)
Theorem page_table_misses_resident_page :
  (b ← BPM.run 11 4 BPM.calls_fetch10; Ok (BPM.page_at b 5, BPM.frame_of b 5))
  = Ok (Some (BPM.mkPage BPM.zero4 5 1 false), Ok (Some 5))
  /\ (b ← BPM.run 11 4 BPM.calls_fetch11; Ok (BPM.page_at b 5, BPM.frame_of b 5))
     = Ok (Some (BPM.mkPage BPM.zero4 5 1 false), Ok None)
  /\ (b ← BPM.run 1 4 BPM.calls_deleted;
      Ok (BPM.page_at b 0, BPM.frame_of b 0, BPM.free_list_ b))
     = Ok (Some (BPM.mkPage BPM.zero4 0 0 false), Ok None, [0]).
Proof. repeat split; vm_compute; reflexivity. Qed.

(** The pool and the replacer fit together only when [Slot()] starts
    evictable: seed scenario 1 of the specification then runs and reuses
    frame 0 (page 0, the earliest access) for page 3; with slots that start
    non-evictable the fourth [NewPage] fails the assertion of
    [RecordAccess]. *)
Lemma scenario1_needs_evictable_slots :
  (b ← BPM.do_calls (list Z) BPM.zero4 true 8
         (BPM.init (list Z) BPM.zero4 3 2 4) BPM.calls_scenario1;
   Ok (BPM.page_id_ <$> BPM.pages_ b))
  = Ok [3; 1; 2]
  /\ BPM.do_calls (list Z) BPM.zero4 false 8
       (BPM.init (list Z) BPM.zero4 3 2 4) BPM.calls_scenario1
     = Fault.
Proof. split; vm_compute; reflexivity. Qed.

(** *** What [NewPgImp] does to the frame it hands out *)

Lemma GetNewFrame_keeps {Data} (b : BPM.Pool Data) o b1 :
  BPM.GetNewFrame Data b = Ok (o, b1) ->
  BPM.pages_ b1 = BPM.pages_ b /\ BPM.page_table_ b1 = BPM.page_table_ b
  /\ BPM.next_page_id_ b1 = BPM.next_page_id_ b /\ BPM.disk_ b1 = BPM.disk_ b.
Proof.
  unfold BPM.GetNewFrame. destruct (BPM.free_list_ b) as [|f rest].
  - intros H0. inv_bind H0 as res Hres. by injection H0 as <- <-.
  - by intros [= <- <-].
Qed.

(** Besides the dirty flag, the frame [NewPgImp] returns is as C4 says:
    its page id is the value of the counter, which then goes up by one; its
    payload is zeroed; its pin count is 1; its slot in the replacer is
    non-evictable; and, when no bucket of the page table held the new id,
    the table maps the id to the frame.  The dirty flag is the one the
    frame carried before the call. *)
Lemma NewPgImp_frame {Data} (zero : Data) d fuel (b : BPM.Pool Data) f pid b' :
  BPM.NewPgImp Data zero d fuel b = Ok (Some (f, pid), b') ->
  pid = BPM.next_page_id_ b
  /\ BPM.next_page_id_ b' = BPM.wrap32 (pid + 1)
  /\ (exists pg, vec_at (BPM.pages_ b) f = Ok pg
        /\ BPM.page_at b' f = Some (BPM.mkPage zero pid 1 (BPM.is_dirty_ pg)))
  /\ (exists s, LRUK.slots_ (BPM.replacer_ b') !! f = Some s
        /\ LRUK.evictable_ s = false)
  /\ (EHT.key_absent pid (BPM.page_table_ b) -> BPM.frame_of b' pid = Ok (Some f)).
Proof.
  unfold BPM.NewPgImp. intros H0. inv_bind H0 as got Hgot.
  destruct got as [o b1]. cbn [fst snd] in H0.
  apply GetNewFrame_keeps in Hgot as (Epg & Etb & Eid & Edk).
  destruct o as [f0|]; [|done]. cbv zeta in H0.
  inv_bind H0 as pg Hpg. inv_bind H0 as rm Hrm. inv_bind H0 as tbl Htbl.
  inv_bind H0 as r1 Hr1. inv_bind H0 as r2 Hr2. inv_bind H0 as pages Hpages.
  injection H0 as -> <- <-. cbn [BPM.next_page_id_ BPM.replacer_].
  rewrite Epg in Hpg, Hpages. rewrite Etb in Hrm. rewrite Eid in *.
  split; [done|]. split; [done|]. split; [|split].
  - exists pg. split; [done|]. unfold BPM.page_at. cbn [BPM.pages_].
    apply vec_set_Ok in Hpages as [Hb ->].
    rewrite list_lookup_insert_eq by lia. done.
  - unfold LRUK.SetEvictable in Hr2.
    destruct (LRUK.slots_ r1 !! f) as [s|]; [|done]. injection Hr2 as <-.
    eexists. split; [apply lookup_insert_eq|done].
  - intros Habs. unfold BPM.frame_of. cbn [BPM.page_table_].
    destruct rm as [r t1]. cbn [snd] in Htbl.
    eapply Insert_absent_Find; [|exact Htbl]. by eapply Remove_absent.
Qed.

(** [DeletePgImp] zeroes the payload of the frame it frees and leaves its
    page id (and the rest of its metadata) in place. *)
Lemma DeletePgImp_keeps_page_id {Data} (zero : Data) (b : BPM.Pool Data)
    page_id f b' :
  BPM.frame_of b page_id = Ok (Some f) ->
  BPM.DeletePgImp Data zero b page_id = Ok (true, b') ->
  exists pg, vec_at (BPM.pages_ b) f = Ok pg
    /\ BPM.page_at b' f
       = Some (BPM.mkPage zero (BPM.page_id_ pg) (BPM.pin_count_ pg) (BPM.is_dirty_ pg))
    /\ BPM.free_list_ b' = BPM.free_list_ b ++ [f].
Proof.
  unfold BPM.frame_of, BPM.DeletePgImp. intros Hf H0. rewrite Hf in H0.
  ok_step in H0. inv_bind H0 as pg Hpg. case_bool_decide; [done|].
  inv_bind H0 as rm Hrm. inv_bind H0 as r Hr. inv_bind H0 as pages Hpages.
  injection H0 as <-. exists pg. split; [done|]. split; [|done].
  unfold BPM.page_at. cbn [BPM.pages_].
  apply vec_set_Ok in Hpages as [Hb ->].
  rewrite list_lookup_insert_eq by lia. done.
Qed.

(** *** Frame ids stay within the frame array *)

Lemma RecordAccess_keys (P : Z -> Prop) d (r : LRUK.Replacer) f r' :
  P f -> (forall f' s, LRUK.slots_ r !! f' = Some s -> P f') ->
  LRUK.RecordAccess d r f = Ok r' ->
  forall f' s, LRUK.slots_ r' !! f' = Some s -> P f'.
Proof.
  intros Hf Hok Hc f' s' Hs'. unfold LRUK.RecordAccess in Hc.
  destruct (LRUK.slots_ r !! f) as [s|] eqn:E.
  - injection Hc as <-. cbn [LRUK.slots_] in Hs'.
    apply lookup_insert_Some in Hs' as [[<- _]|[_ Hs']]; [done|by eapply Hok].
  - case_bool_decide; [|done]. injection Hc as <-. cbn [LRUK.slots_] in Hs'.
    apply lookup_insert_Some in Hs' as [[<- _]|[_ Hs']]; [done|by eapply Hok].
Qed.

Lemma SetEvictable_keys (P : Z -> Prop) (r : LRUK.Replacer) f b r' :
  (forall f' s, LRUK.slots_ r !! f' = Some s -> P f') ->
  LRUK.SetEvictable r f b = Ok r' ->
  forall f' s, LRUK.slots_ r' !! f' = Some s -> P f'.
Proof.
  intros Hok Hc f' s' Hs'. unfold LRUK.SetEvictable in Hc.
  destruct (LRUK.slots_ r !! f) as [s|] eqn:E; [|done].
  injection Hc as <-. cbn [LRUK.slots_] in Hs'.
  apply lookup_insert_Some in Hs' as [[<- _]|[_ Hs']]; by eapply Hok.
Qed.

Lemma Evict_keys (P : Z -> Prop) (r : LRUK.Replacer) o r' :
  (forall f' s, LRUK.slots_ r !! f' = Some s -> P f') ->
  LRUK.Evict r = Ok (o, r') ->
  (forall f' s, LRUK.slots_ r' !! f' = Some s -> P f')
  /\ (forall f, o = Some f -> P f).
Proof.
  intros Hok Hc. apply Evict_Ok in Hc as [[-> ->]|(f & s & -> & Hs & _ & ->)].
  - split; [done|]. by intros f.
  - split.
    + intros f' s' Hs'. cbn [LRUK.slots_] in Hs'.
      apply lookup_delete_Some in Hs' as [_ Hs']. by eapply Hok.
    + intros f0 [= <-]. by eapply Hok.
Qed.

Lemma Remove_keys (P : Z -> Prop) (r : LRUK.Replacer) f r' :
  (forall f' s, LRUK.slots_ r !! f' = Some s -> P f') ->
  LRUK.Remove r f = Ok r' ->
  forall f' s, LRUK.slots_ r' !! f' = Some s -> P f'.
Proof.
  intros Hok Hc f' s' Hs'. unfold LRUK.Remove in Hc.
  destruct (LRUK.slots_ r !! f) as [s|] eqn:E.
  - destruct (LRUK.evictable_ s); [|done]. injection Hc as <-.
    cbn [LRUK.slots_] in Hs'. apply lookup_delete_Some in Hs' as [_ Hs'].
    by eapply Hok.
  - injection Hc as <-. by eapply Hok.
Qed.

Section BPM_frames.
Context {Data : Type}.
Variable zero : Data.
Variable d : bool.
Variable fuel : nat.

#[local] Abbreviation Pool := (BPM.Pool Data).

Lemma GetNewFrame_frames (b : Pool) o b1 :
  BPM.frames_ok b -> BPM.GetNewFrame Data b = Ok (o, b1) ->
  BPM.frames_ok b1 /\ BPM.pool_size_ b1 = BPM.pool_size_ b
  /\ (forall f, o = Some f -> 0 <= f < BPM.pool_size_ b).
Proof.
  intros (Hlen & Hfree & Hslots & Hent & Hreach). unfold BPM.GetNewFrame.
  destruct (BPM.free_list_ b) as [|f rest] eqn:Efree.
  - intros H0. inv_bind H0 as res Hres. destruct res as [o' r']. cbn [fst snd] in H0.
    injection H0 as <- <-.
    destruct (Evict_keys _ _ _ _ Hslots Hres) as [Hk Ho].
    split; [|split; [done|exact Ho]]. unfold BPM.frames_ok. cbn.
    split; [done|]. split; [intros f0 Hf0; by apply elem_of_nil in Hf0|].
    split; [exact Hk|]. by split.
  - intros [= <- <-]. split; [|split; [done|]].
    + unfold BPM.frames_ok. cbn. split; [done|].
      split; [intros f' Hf'; apply Hfree; by right|]. split; [exact Hslots|]. by split.
    + intros f' [= <-]. apply Hfree. by left.
Qed.

Lemma table_update_frames (tbl : EHT.Table Z Z) n old new f rm tbl' :
  EHT.reachable EHT.hash_int tbl ->
  EHT.entries_in (fun kv : Z * Z => 0 <= kv.2 < n) tbl -> 0 <= f < n ->
  EHT.Remove EHT.hash_int tbl old = Ok rm ->
  EHT.Insert EHT.hash_int fuel rm.2 new f = Ok tbl' ->
  EHT.reachable EHT.hash_int tbl'
  /\ EHT.entries_in (fun kv : Z * Z => 0 <= kv.2 < n) tbl'.
Proof.
  intros Hr He Hf Hrm Hins. destruct rm as [r0 t1]. cbn [snd] in Hins.
  assert (Hr1 : EHT.reachable EHT.hash_int t1) by (by eapply EHT.reach_Remove).
  split; [by eapply EHT.reach_Insert|].
  eapply Insert_entries; [by apply reachable_shape in Hr1| |exact Hf|exact Hins].
  by eapply Remove_entries.
Qed.

Lemma vec_set_length {A} (v : list A) i a v' :
  vec_set v i a = Ok v' -> length v' = length v.
Proof. intros Hs. apply vec_set_Ok in Hs as [_ ->]. apply length_insert. Qed.

Lemma NewPgImp_frames (b : Pool) o b' :
  BPM.frames_ok b -> BPM.NewPgImp Data zero d fuel b = Ok (o, b') ->
  BPM.frames_ok b' /\ BPM.pool_size_ b' = BPM.pool_size_ b.
Proof.
  intros Hok. unfold BPM.NewPgImp. intros H0. inv_bind H0 as got Hgot.
  destruct got as [o1 b1]. cbn [fst snd] in H0.
  destruct (GetNewFrame_frames b o1 b1 Hok Hgot) as (Hok1 & Hps & Hf).
  destruct o1 as [f|]; [|by injection H0 as <- <-]. cbv zeta in H0.
  specialize (Hf f eq_refl). destruct Hok1 as (Hlen & Hfree & Hslots & Hent & Hreach).
  inv_bind H0 as pg Hpg. inv_bind H0 as rm Hrm. inv_bind H0 as tbl Htbl.
  inv_bind H0 as r1 Hr1. inv_bind H0 as r2 Hr2. inv_bind H0 as pages Hpages.
  injection H0 as <- <-. split; [|done]. unfold BPM.frames_ok. cbn.
  rewrite Hps in *.
  destruct (table_update_frames _ _ _ _ f _ _ Hreach Hent Hf Hrm Htbl) as [Hr' He'].
  split; [by rewrite (vec_set_length _ _ _ _ Hpages)|]. split; [done|].
  split; [|by split].
  eapply SetEvictable_keys; [|exact Hr2]. eapply RecordAccess_keys; [|exact Hslots|exact Hr1].
  done.
Qed.

Lemma FetchPgImp_frames (b : Pool) page_id o b' :
  BPM.frames_ok b -> BPM.FetchPgImp Data zero d fuel b page_id = Ok (o, b') ->
  BPM.frames_ok b' /\ BPM.pool_size_ b' = BPM.pool_size_ b.
Proof.
  intros Hok. unfold BPM.FetchPgImp. intros H0. inv_bind H0 as found Hfound.
  destruct found as [f|].
  - destruct Hok as (Hlen & Hfree & Hslots & Hent & Hreach).
    pose proof (Find_entries _ _ _ _ _ Hent Hfound) as Hf. cbn [snd] in Hf.
    inv_bind H0 as pg Hpg. inv_bind H0 as r1 Hr1. inv_bind H0 as r2 Hr2.
    inv_bind H0 as pages Hpages. injection H0 as <- <-. split; [|done].
    unfold BPM.frames_ok. cbn.
    split; [by rewrite (vec_set_length _ _ _ _ Hpages)|]. split; [done|].
    split; [|by split].
    eapply RecordAccess_keys; [exact Hf| |exact Hr2].
    case_bool_decide; [|by injection Hr1 as <-].
    eapply SetEvictable_keys; [|exact Hr1]. exact Hslots.
  - inv_bind H0 as got Hgot. destruct got as [o1 b1]. cbn [fst snd] in H0.
    destruct (GetNewFrame_frames b o1 b1 Hok Hgot) as (Hok1 & Hps & Hf).
    destruct o1 as [f|]; [|by injection H0 as <- <-].
    specialize (Hf f eq_refl).
    destruct Hok1 as (Hlen & Hfree & Hslots & Hent & Hreach).
    inv_bind H0 as pg Hpg. cbv zeta in H0.
    inv_bind H0 as r1 Hr1. inv_bind H0 as r2 Hr2.
    inv_bind H0 as rm Hrm. inv_bind H0 as tbl Htbl. inv_bind H0 as pages Hpages.
    injection H0 as <- <-. split; [|done]. unfold BPM.frames_ok. cbn.
    rewrite Hps in *.
    destruct (table_update_frames _ _ _ _ f _ _ Hreach Hent Hf Hrm Htbl) as [Hr' He'].
    split; [by rewrite (vec_set_length _ _ _ _ Hpages)|]. split; [done|].
    split; [|by split].
    eapply RecordAccess_keys; [exact Hf| |exact Hr2].
    case_bool_decide; [|by injection Hr1 as <-].
    inv_bind Hr1 as r0 Hr0. eapply SetEvictable_keys; [|exact Hr1].
    eapply RecordAccess_keys; [exact Hf|exact Hslots|exact Hr0].
Qed.

Lemma UnpinPgImp_frames (b : Pool) page_id is_dirty o b' :
  BPM.frames_ok b -> BPM.UnpinPgImp Data b page_id is_dirty = Ok (o, b') ->
  BPM.frames_ok b' /\ BPM.pool_size_ b' = BPM.pool_size_ b.
Proof.
  intros Hok. unfold BPM.UnpinPgImp. intros H0. inv_bind H0 as found Hfound.
  destruct found as [f|]; [|by injection H0 as <- <-].
  inv_bind H0 as pg Hpg. case_bool_decide; [by injection H0 as <- <-|].
  cbv zeta in H0. inv_bind H0 as r Hr. inv_bind H0 as pages Hpages.
  injection H0 as <- <-. split; [|done].
  destruct Hok as (Hlen & Hfree & Hslots & Hent & Hreach).
  unfold BPM.frames_ok. cbn.
  split; [by rewrite (vec_set_length _ _ _ _ Hpages)|]. split; [done|].
  split; [|by split].
  case_bool_decide; [|by injection Hr as <-].
  eapply SetEvictable_keys; [|exact Hr]. exact Hslots.
Qed.

Lemma FlushPgImp_frames (b : Pool) page_id o b' :
  BPM.frames_ok b -> BPM.FlushPgImp Data b page_id = Ok (o, b') ->
  BPM.frames_ok b' /\ BPM.pool_size_ b' = BPM.pool_size_ b.
Proof.
  intros Hok. unfold BPM.FlushPgImp. intros H0. inv_bind H0 as found Hfound.
  destruct found as [f|]; [|by injection H0 as <- <-].
  inv_bind H0 as pg Hpg. inv_bind H0 as pages Hpages.
  injection H0 as <- <-. split; [|done].
  destruct Hok as (Hlen & Hfree & Hslots & Hent & Hreach).
  unfold BPM.frames_ok. cbn.
  split; [by rewrite (vec_set_length _ _ _ _ Hpages)|]. done.
Qed.

Lemma FlushAllPgsImp_frames (b b' : Pool) :
  BPM.frames_ok b -> BPM.FlushAllPgsImp Data b = Ok b' ->
  BPM.frames_ok b' /\ BPM.pool_size_ b' = BPM.pool_size_ b.
Proof.
  intros Hok. unfold BPM.FlushAllPgsImp. intros H0.
  apply (foldl_Ok_inv _
           (fun b0 : Pool => BPM.frames_ok b0
                             /\ BPM.pool_size_ b0 = BPM.pool_size_ b)) in H0.
  - destruct H0 as (b0 & [= <-] & Himp). by apply Himp.
  - intros acc idx a' _ Hs. inv_bind Hs as b1 Hb1. exists b1. split; [done|].
    intros [IH Eps]. inv_bind Hs as pg Hpg. inv_bind Hs as res Hres.
    injection Hs as <-. destruct res as [o b2]. cbn [snd].
    destruct (FlushPgImp_frames _ _ _ _ IH Hres) as [Hok2 Eps2].
    split; [done|congruence].
Qed.

Lemma DeletePgImp_frames (b : Pool) page_id o b' :
  BPM.frames_ok b -> BPM.DeletePgImp Data zero b page_id = Ok (o, b') ->
  BPM.frames_ok b' /\ BPM.pool_size_ b' = BPM.pool_size_ b.
Proof.
  intros Hok. unfold BPM.DeletePgImp. intros H0. inv_bind H0 as found Hfound.
  destruct found as [f|]; [|by injection H0 as <- <-].
  inv_bind H0 as pg Hpg. case_bool_decide; [by injection H0 as <- <-|].
  inv_bind H0 as rm Hrm. inv_bind H0 as r Hr. inv_bind H0 as pages Hpages.
  injection H0 as <- <-. split; [|done].
  destruct Hok as (Hlen & Hfree & Hslots & Hent & Hreach).
  pose proof (Find_entries _ _ _ _ _ Hent Hfound) as Hf. cbn [snd] in Hf.
  destruct rm as [r0 t1]. unfold BPM.frames_ok. cbn.
  split; [by rewrite (vec_set_length _ _ _ _ Hpages)|].
  split; [|split; [|split]].
  - intros f' Hf'. apply elem_of_app in Hf' as [Hf'|Hf']; [by apply Hfree|].
    apply list_elem_of_singleton in Hf'. by subst.
  - eapply Remove_keys; [|exact Hr]. exact Hslots.
  - by eapply Remove_entries.
  - by eapply EHT.reach_Remove.
Qed.

Lemma do_call_frames (b : Pool) c b' :
  BPM.frames_ok b -> BPM.do_call Data zero d fuel b c = Ok b' ->
  BPM.frames_ok b' /\ BPM.pool_size_ b' = BPM.pool_size_ b.
Proof.
  intros Hok Hc. destruct c as [|p|p dirty|p| |p]; cbn [BPM.do_call] in Hc.
  - inv_bind Hc as res Hres. injection Hc as <-. destruct res as [o b1].
    by eapply NewPgImp_frames.
  - inv_bind Hc as res Hres. injection Hc as <-. destruct res as [o b1].
    by eapply FetchPgImp_frames.
  - inv_bind Hc as res Hres. injection Hc as <-. destruct res as [o b1].
    by eapply UnpinPgImp_frames.
  - inv_bind Hc as res Hres. injection Hc as <-. destruct res as [o b1].
    by eapply FlushPgImp_frames.
  - by eapply FlushAllPgsImp_frames.
  - inv_bind Hc as res Hres. injection Hc as <-. destruct res as [o b1].
    by eapply DeletePgImp_frames.
Qed.

Lemma init_frames (pool_size : nat) (k : Z) (bucket_size : nat) :
  BPM.frames_ok (BPM.init Data zero pool_size k bucket_size).
Proof.
  unfold BPM.frames_ok, BPM.init. cbn. split; [by rewrite length_replicate|].
  split; [|split; [|split]].
  - intros f Hf. apply list_elem_of_fmap in Hf as (i & -> & Hi).
    apply elem_of_seq in Hi. lia.
  - intros f s Hs. by rewrite lookup_empty in Hs.
  - intros a b kv Hb Hkv. apply list_lookup_singleton_Some in Hb as [_ <-].
    by apply elem_of_nil in Hkv.
  - apply EHT.reach_init.
Qed.

Lemma do_calls_frames (b : Pool) cs b' :
  BPM.frames_ok b -> BPM.do_calls Data zero d fuel b cs = Ok b' ->
  BPM.frames_ok b' /\ BPM.pool_size_ b' = BPM.pool_size_ b.
Proof.
  intros Hok. unfold BPM.do_calls. intros H0.
  apply (foldl_Ok_inv _
           (fun b0 : Pool => BPM.frames_ok b0
                             /\ BPM.pool_size_ b0 = BPM.pool_size_ b)) in H0.
  - destruct H0 as (b0 & [= <-] & Himp). by apply Himp.
  - intros acc c a' _ Hs. inv_bind Hs as b1 Hb1. exists b1. split; [done|].
    intros [IH Eps]. destruct (do_call_frames _ _ _ IH Hs) as [Hok2 Eps2].
    split; [done|congruence].
Qed.

End BPM_frames.

(** *** What the calls of the pool do to a frame *)

(** X20.  In every pool reached from a new one by calls that returned, the
    frame array has the length it was built with, and every frame id the
    pool keeps or obtains is an index of it: the ids on the free list, the
    ids that have a slot in the replacer, the frame the page table yields
    for a page, and the frame that [GetNewFrame] hands out.  So no call
    indexes [pages_] out of bounds. *)
Theorem frame_ids_in_bounds {Data} (zero : Data) (d : bool) (fuel : nat)
    (pool_size : nat) (k : Z) (bucket_size : nat) (cs : list BPM.call)
    (b : BPM.Pool Data) :
  BPM.do_calls Data zero d fuel (BPM.init Data zero pool_size k bucket_size) cs
    = Ok b ->
  BPM.pool_size_ b = Z.of_nat pool_size
  /\ length (BPM.pages_ b) = pool_size
  /\ (forall f, f ∈ BPM.free_list_ b -> 0 <= f < Z.of_nat (length (BPM.pages_ b)))
  /\ (forall f s, LRUK.slots_ (BPM.replacer_ b) !! f = Some s ->
        0 <= f < Z.of_nat (length (BPM.pages_ b)))
  /\ (forall p f, BPM.frame_of b p = Ok (Some f) ->
        0 <= f < Z.of_nat (length (BPM.pages_ b))
        /\ returns (vec_at (BPM.pages_ b) f))
  /\ (forall f b1, BPM.GetNewFrame Data b = Ok (Some f, b1) ->
        0 <= f < Z.of_nat (length (BPM.pages_ b))
        /\ returns (vec_at (BPM.pages_ b) f)).
Proof.
  intros Hrun.
  destruct (do_calls_frames zero d fuel _ _ _
              (init_frames zero pool_size k bucket_size) Hrun) as [Hok Hps].
  cbn in Hps. pose proof Hok as (Hlen & Hfree & Hslots & Hent & Hreach).
  split; [done|]. split; [lia|]. rewrite Hlen.
  split; [exact Hfree|]. split; [exact Hslots|]. split.
  - intros p f Hf. pose proof (Find_entries _ _ _ _ _ Hent Hf) as Hr. cbn [snd] in Hr.
    split; [done|]. apply vec_at_in_bounds. lia.
  - intros f b1 Hg. destruct (GetNewFrame_frames b _ _ Hok Hg) as (_ & _ & Hf).
    specialize (Hf f eq_refl). split; [done|]. apply vec_at_in_bounds. lia.
Qed.

(** Witness of X20: one frame; page 0 created, unpinned dirty, fetched. *)
Lemma frame_ids_in_bounds_witness :
  BPM.pool_size_ BPM.pool_dirty_pinned = Z.of_nat 1
  /\ length (BPM.pages_ BPM.pool_dirty_pinned) = 1%nat
  /\ (forall f, f ∈ BPM.free_list_ BPM.pool_dirty_pinned ->
        0 <= f < Z.of_nat (length (BPM.pages_ BPM.pool_dirty_pinned)))
  /\ (forall f s, LRUK.slots_ (BPM.replacer_ BPM.pool_dirty_pinned) !! f = Some s ->
        0 <= f < Z.of_nat (length (BPM.pages_ BPM.pool_dirty_pinned)))
  /\ (forall p f, BPM.frame_of BPM.pool_dirty_pinned p = Ok (Some f) ->
        0 <= f < Z.of_nat (length (BPM.pages_ BPM.pool_dirty_pinned))
        /\ returns (vec_at (BPM.pages_ BPM.pool_dirty_pinned) f))
  /\ (forall f b1, BPM.GetNewFrame (list Z) BPM.pool_dirty_pinned = Ok (Some f, b1) ->
        0 <= f < Z.of_nat (length (BPM.pages_ BPM.pool_dirty_pinned))
        /\ returns (vec_at (BPM.pages_ BPM.pool_dirty_pinned) f)).
Proof.
  apply (frame_ids_in_bounds BPM.zero4 true 8 1 2 4 BPM.calls_dirty_pinned).
  exact pool_dirty_pinned_run.
Defined.

Section BPM_props.
Context {Data : Type}.
Variable zero : Data.
Variable d : bool.
Variable fuel : nat.

(** X18.  When the free list is empty and the replacer has no victim,
    [GetNewFrame] returns false and changes nothing; [NewPgImp] then
    returns [nullptr] without taking a page id, and so does [FetchPgImp]
    for a page that is not in the page table. *)
Theorem out_of_frames_unchanged (b b1 : BPM.Pool Data) :
  BPM.GetNewFrame Data b = Ok (None, b1) ->
  b1 = b
  /\ BPM.free_list_ b = []
  /\ BPM.NewPgImp Data zero d fuel b = Ok (None, b)
  /\ (forall p, BPM.frame_of b p = Ok None ->
        BPM.FetchPgImp Data zero d fuel b p = Ok (None, b)).
Proof.
  intros Hg.
  assert (Hb1 : b1 = b /\ BPM.free_list_ b = []).
  { unfold BPM.GetNewFrame in Hg. destruct (BPM.free_list_ b) as [|f rest] eqn:Efree; [|done].
    inv_bind Hg as res Hres. destruct res as [o r']. cbn [fst snd] in Hg.
    injection Hg as -> <-.
    apply Evict_Ok in Hres as [[_ ->]|(f & s & Hf & _)]; [|done].
    split; [|done]. destruct b. cbn in *. by subst. }
  destruct Hb1 as [-> Hfree]. split; [done|]. split; [done|]. split.
  - unfold BPM.NewPgImp. by rewrite Hg.
  - intros p Hp. unfold BPM.FetchPgImp. unfold BPM.frame_of in Hp. rewrite Hp.
    ok_step. by rewrite Hg.
Qed.

(** The page table after [Remove(old)] and [Insert(new, f)], when it did
    not hold [new]: it maps [new] to [f]. *)
Lemma table_update_Find (tbl : EHT.Table Z Z) old new f rm tbl' :
  EHT.reachable EHT.hash_int tbl ->
  EHT.Find EHT.hash_int tbl new = Ok None ->
  EHT.Remove EHT.hash_int tbl old = Ok rm ->
  EHT.Insert EHT.hash_int fuel rm.2 new f = Ok tbl' ->
  EHT.Find EHT.hash_int tbl' new = Ok (Some f).
Proof.
  intros Hr Hnone Hrm Hins. destruct rm as [r0 t1]. cbn [snd] in Hins.
  destruct (Remove_effect EHT.hash_int tbl old (reachable_shape _ _ Hr)
              (reachable_ptrs _ _ Hr) (reachable_nodup _ _ Hr))
    as (r0' & t1' & Hrm' & Hgone & _ & Hother & _).
  rewrite Hrm in Hrm'. injection Hrm' as <- <-.
  assert (Hnone1 : EHT.Find EHT.hash_int t1 new = Ok None).
  { destruct (decide (new = old)) as [->|Hne]; [done|]. by rewrite Hother. }
  assert (Hr1 : EHT.reachable EHT.hash_int t1) by (by eapply EHT.reach_Remove).
  destruct (Insert_Find_gen EHT.hash_int fuel t1 new f tbl') as (o & Ho & Hres & _);
    [by apply reachable_shape in Hr1|by apply reachable_ptrs in Hr1
    |by apply reachable_depths_ok in Hr1|by apply reachable_mirror in Hr1|done|].
  rewrite Hnone1 in Ho. by injection Ho as <-.
Qed.

(** X17.  When [NewPgImp] returns a frame: the frame is the front of the
    free list, or, when that list is empty, a frame whose slot in the
    replacer was evictable; the page id is the value of [next_page_id_],
    which goes up by one; the frame gets that page id, pin count 1 and a
    zeroed payload, and keeps the dirty flag it had; its old content was
    written to disk if that flag was set; the other frames are as before;
    the slot of the frame is non-evictable; and the page table maps the
    page id to the frame, if it did not hold that id before. *)
Theorem NewPgImp_hands_out_frame (b b' : BPM.Pool Data) (f pid : Z) :
  BPM.frames_ok b ->
  BPM.NewPgImp Data zero d fuel b = Ok (Some (f, pid), b') ->
  pid = BPM.next_page_id_ b
  /\ BPM.next_page_id_ b' = BPM.wrap32 (pid + 1)
  /\ 0 <= f < Z.of_nat (length (BPM.pages_ b))
  /\ (exists pg, BPM.page_at b f = Some pg
        /\ BPM.page_at b' f = Some (BPM.mkPage zero pid 1 (BPM.is_dirty_ pg))
        /\ BPM.disk_ b' = BPM.write_back Data (BPM.disk_ b) pg)
  /\ (forall i : nat, i <> Z.to_nat f -> BPM.pages_ b' !! i = BPM.pages_ b !! i)
  /\ (exists s, LRUK.slots_ (BPM.replacer_ b') !! f = Some s
        /\ LRUK.evictable_ s = false)
  /\ (BPM.frame_of b pid = Ok None -> BPM.frame_of b' pid = Ok (Some f))
  /\ match BPM.free_list_ b with
     | f0 :: rest => f = f0 /\ BPM.free_list_ b' = rest
     | [] => BPM.free_list_ b' = []
             /\ exists s, LRUK.slots_ (BPM.replacer_ b) !! f = Some s
                          /\ LRUK.evictable_ s = true
     end.
Proof.
  intros Hok H0. pose proof Hok as (Hlen & _ & _ & _ & Hreach).
  unfold BPM.NewPgImp in H0. inv_bind H0 as got Hgot.
  destruct got as [o b1]. cbn [fst snd] in H0.
  destruct (GetNewFrame_frames b o b1 Hok Hgot) as (_ & _ & Hf).
  pose proof (GetNewFrame_keeps _ _ _ Hgot) as (Epg & Etb & Eid & Edk).
  destruct o as [f0|]; [|done]. cbv zeta in H0. specialize (Hf f0 eq_refl).
  inv_bind H0 as pg Hpg. inv_bind H0 as rm Hrm. inv_bind H0 as tbl Htbl.
  inv_bind H0 as r1 Hr1. inv_bind H0 as r2 Hr2. inv_bind H0 as pages Hpages.
  injection H0 as -> <- <-.
  cbn [BPM.next_page_id_ BPM.replacer_ BPM.disk_ BPM.free_list_ BPM.pages_].
  rewrite Epg in Hpg, Hpages. rewrite Etb in Hrm. rewrite Eid, Edk in *.
  apply vec_set_Ok in Hpages as [Hb ->]. apply vec_at_Ok in Hpg as [_ Hpg].
  split; [done|]. split; [done|]. split; [lia|].
  split; [|split; [|split; [|split]]].
  - exists pg. split; [done|]. split; [|done]. unfold BPM.page_at. cbn [BPM.pages_].
    rewrite list_lookup_insert_eq by lia. done.
  - intros i Hi. by rewrite list_lookup_insert_ne.
  - unfold LRUK.SetEvictable in Hr2.
    destruct (LRUK.slots_ r1 !! f) as [s|]; [|done]. injection Hr2 as <-.
    eexists. split; [apply lookup_insert_eq|done].
  - intros Hnone. unfold BPM.frame_of in *. cbn [BPM.page_table_].
    by eapply table_update_Find.
  - unfold BPM.GetNewFrame in Hgot. destruct (BPM.free_list_ b) as [|f1 rest].
    + inv_bind Hgot as res Hres. destruct res as [o r']. cbn [fst snd] in Hgot.
      injection Hgot as -> <-. cbn [BPM.free_list_]. split; [done|].
      apply Evict_Ok in Hres as [[Hn _]|(f1 & s & Hf1 & Hs & Hev & _)]; [done|].
      injection Hf1 as <-. by exists s.
    + injection Hgot as <- <-. done.
Qed.

Lemma flushed_refl (pg : BPM.Page Data) : BPM.flushed pg pg.
Proof. by repeat split. Qed.

Lemma flushed_trans (pg1 pg2 pg3 : BPM.Page Data) :
  BPM.flushed pg1 pg2 -> BPM.flushed pg2 pg3 -> BPM.flushed pg1 pg3.
Proof.
  intros (E1 & E2 & E3 & E4) (F1 & F2 & F3 & F4).
  repeat split; try congruence. intros Hd. by apply E4, F4.
Qed.

(** One [FlushPage]: nothing but one dirty flag and the disk changes. *)
Lemma FlushPgImp_effect (b b' : BPM.Pool Data) p o :
  BPM.FlushPgImp Data b p = Ok (o, b') ->
  BPM.pool_size_ b' = BPM.pool_size_ b
  /\ BPM.page_table_ b' = BPM.page_table_ b
  /\ BPM.replacer_ b' = BPM.replacer_ b
  /\ BPM.free_list_ b' = BPM.free_list_ b
  /\ BPM.next_page_id_ b' = BPM.next_page_id_ b
  /\ Forall2 BPM.flushed (BPM.pages_ b) (BPM.pages_ b')
  /\ (forall f, BPM.frame_of b p = Ok (Some f) ->
        exists pg', BPM.pages_ b' !! Z.to_nat f = Some pg'
                    /\ BPM.is_dirty_ pg' = false).
Proof.
  unfold BPM.FlushPgImp, BPM.frame_of. intros H0. inv_bind H0 as found Hfound.
  destruct found as [f|].
  - inv_bind H0 as pg Hpg. inv_bind H0 as pages Hpages. injection H0 as <- <-.
    cbn [BPM.pool_size_ BPM.page_table_ BPM.replacer_ BPM.free_list_
         BPM.next_page_id_ BPM.pages_].
    apply vec_set_Ok in Hpages as [Hb ->]. apply vec_at_Ok in Hpg as [_ Hpg].
    repeat (split; [done|]). split.
    + apply Forall2_same_length_lookup. split; [by rewrite length_insert|].
      intros i x y Hx Hy. destruct (decide (i = Z.to_nat f)) as [->|Hne].
      * rewrite list_lookup_insert_eq in Hy by lia. injection Hy as <-.
        rewrite Hpg in Hx. injection Hx as <-. by repeat split.
      * rewrite list_lookup_insert_ne in Hy by done. rewrite Hx in Hy.
        injection Hy as <-. apply flushed_refl.
    + intros f' Hf'. rewrite Hfound in Hf'. injection Hf' as <-.
      eexists. split; [apply list_lookup_insert_eq; lia|done].
  - injection H0 as <- <-. repeat (split; [done|]). split.
    + apply Forall2_same_length_lookup. split; [done|].
      intros i x y Hx Hy. rewrite Hx in Hy. injection Hy as <-. apply flushed_refl.
    + intros f Hf. by rewrite Hfound in Hf.
Qed.

Lemma Forall2_flushed_trans (l1 l2 l3 : list (BPM.Page Data)) :
  Forall2 BPM.flushed l1 l2 -> Forall2 BPM.flushed l2 l3 ->
  Forall2 BPM.flushed l1 l3.
Proof.
  intros H1 H2. revert l3 H2. induction H1 as [|x y l1 l2 Hxy _ IH]; intros l3 H2.
  - by inversion H2.
  - inversion H2 as [|y' z l2' l3' Hyz Hrest]; subst. constructor.
    + by eapply flushed_trans.
    + by apply IH.
Qed.

(** The loop of [FlushAllPgsImp] over the first [m] frames. *)
Lemma flush_loop_effect (b : BPM.Pool Data) (m : nat) (b' : BPM.Pool Data) :
  (m <= length (BPM.pages_ b))%nat ->
  foldl (fun acc idx =>
           b0 ← acc;
           pg ← vec_at (BPM.pages_ b0) (Z.of_nat idx);
           res ← BPM.FlushPgImp Data b0 (BPM.page_id_ pg);
           Ok res.2)
        (Ok b) (seq 0 m) = Ok b' ->
  BPM.pool_size_ b' = BPM.pool_size_ b
  /\ BPM.page_table_ b' = BPM.page_table_ b
  /\ BPM.replacer_ b' = BPM.replacer_ b
  /\ BPM.free_list_ b' = BPM.free_list_ b
  /\ BPM.next_page_id_ b' = BPM.next_page_id_ b
  /\ Forall2 BPM.flushed (BPM.pages_ b) (BPM.pages_ b')
  /\ ((forall (i : nat) pg, BPM.pages_ b !! i = Some pg ->
         BPM.frame_of b (BPM.page_id_ pg) = Ok (Some (Z.of_nat i))) ->
      forall (i : nat) pg', (i < m)%nat -> BPM.pages_ b' !! i = Some pg' ->
        BPM.is_dirty_ pg' = false).
Proof.
  revert b'. induction m as [|m IH]; intros b' Hm H0.
  - injection H0 as <-. repeat (split; [done|]). split.
    + apply Forall2_same_length_lookup. split; [done|].
      intros i x y Hx Hy. rewrite Hx in Hy. injection Hy as <-. apply flushed_refl.
    + intros _ i pg' Hi. lia.
  - rewrite seq_S, foldl_app, Nat.add_0_l in H0. cbn [foldl] in H0.
    inv_bind H0 as b1 Hb1. inv_bind H0 as pg Hpg. inv_bind H0 as res Hres.
    injection H0 as <-. destruct res as [o b2]. cbn [snd].
    destruct (IH b1) as (E1 & E2 & E3 & E4 & E5 & E6 & E7); [lia|done|].
    destruct (FlushPgImp_effect _ _ _ _ Hres) as (F1 & F2 & F3 & F4 & F5 & F6 & F7).
    repeat (split; [congruence|]). split; [by eapply Forall2_flushed_trans|].
    intros Hcons i pg' Hi Hpg'. apply vec_at_Ok in Hpg as [_ Hpg].
    rewrite Nat2Z.id in Hpg.
    destruct (decide (i = m)) as [->|Hne].
    + destruct (Forall2_lookup_r _ _ _ _ _ E6 Hpg) as (pg0 & Hpg0 & Hfl).
      destruct Hfl as (_ & Eid & _).
      destruct (F7 (Z.of_nat m)) as (pg2 & Hpg2 & Hclean).
      { unfold BPM.frame_of in *. rewrite E2, Eid. by apply Hcons. }
      rewrite Nat2Z.id in Hpg2. rewrite Hpg' in Hpg2. by injection Hpg2 as <-.
    + destruct (Forall2_lookup_r _ _ _ _ _ F6 Hpg') as (pg1 & Hpg1 & Hfl).
      destruct Hfl as (_ & _ & _ & Hd).
      destruct (BPM.is_dirty_ pg') eqn:Edirty; [|done].
      specialize (Hd eq_refl). rewrite (E7 Hcons i pg1) in Hd; [done|lia|done].
Qed.

(** X19.  [FlushAllPgsImp] changes nothing but dirty flags and the disk:
    the page table, the replacer, the free list and the page id counter
    are as before, every frame keeps its payload, page id and pin count,
    and no dirty flag is set.  When the page table maps the page id of
    every frame to that frame, all frames are clean afterwards. *)
Theorem FlushAllPgsImp_cleans (b b' : BPM.Pool Data) :
  Z.of_nat (length (BPM.pages_ b)) = BPM.pool_size_ b ->
  BPM.FlushAllPgsImp Data b = Ok b' ->
  BPM.pool_size_ b' = BPM.pool_size_ b
  /\ BPM.page_table_ b' = BPM.page_table_ b
  /\ BPM.replacer_ b' = BPM.replacer_ b
  /\ BPM.free_list_ b' = BPM.free_list_ b
  /\ BPM.next_page_id_ b' = BPM.next_page_id_ b
  /\ Forall2 BPM.flushed (BPM.pages_ b) (BPM.pages_ b')
  /\ ((forall (i : nat) pg, BPM.pages_ b !! i = Some pg ->
         BPM.frame_of b (BPM.page_id_ pg) = Ok (Some (Z.of_nat i))) ->
      forall (i : nat) pg', BPM.pages_ b' !! i = Some pg' ->
        BPM.is_dirty_ pg' = false).
Proof.
  intros Hlen H0. unfold BPM.FlushAllPgsImp in H0.
  destruct (flush_loop_effect b (Z.to_nat (BPM.pool_size_ b)) b')
    as (E1 & E2 & E3 & E4 & E5 & E6 & E7); [lia|exact H0|].
  repeat (split; [done|]). intros Hcons i pg' Hpg'. apply (E7 Hcons i); [|done].
  apply lookup_lt_Some in Hpg'. apply Forall2_length in E6. lia.
Qed.

(** X21.  [DeletePgImp] of a page that the page table maps to frame [f]:
    with a pin count other than 0 it returns false and changes nothing;
    with pin count 0 (and a slot that, if there is one, is evictable) it
    returns true, the page is no longer in the page table, every other page
    is found as before, the slot of the frame is gone, the frame is
    appended to the free list with a zeroed payload, and it keeps its page
    id and dirty flag; nothing is written to disk. *)
Theorem DeletePgImp_frees_frame (b : BPM.Pool Data) (page_id f : Z)
    (pg : BPM.Page Data) :
  BPM.frames_ok b ->
  BPM.frame_of b page_id = Ok (Some f) -> BPM.page_at b f = Some pg ->
  (BPM.pin_count_ pg <> 0 -> BPM.DeletePgImp Data zero b page_id = Ok (false, b))
  /\ (BPM.pin_count_ pg = 0 ->
      (forall s, LRUK.slots_ (BPM.replacer_ b) !! f = Some s ->
                 LRUK.evictable_ s = true) ->
      exists b',
        BPM.DeletePgImp Data zero b page_id = Ok (true, b')
        /\ BPM.frame_of b' page_id = Ok None
        /\ (forall p, p <> page_id -> BPM.frame_of b' p = BPM.frame_of b p)
        /\ BPM.free_list_ b' = BPM.free_list_ b ++ [f]
        /\ BPM.page_at b' f
           = Some (BPM.mkPage zero (BPM.page_id_ pg) (BPM.pin_count_ pg)
                     (BPM.is_dirty_ pg))
        /\ (forall i : nat, i <> Z.to_nat f ->
              BPM.pages_ b' !! i = BPM.pages_ b !! i)
        /\ LRUK.slots_ (BPM.replacer_ b') !! f = None
        /\ BPM.disk_ b' = BPM.disk_ b
        /\ BPM.next_page_id_ b' = BPM.next_page_id_ b).
Proof.
  intros (Hlen & _ & _ & Hent & Hreach) Hfind Hpg.
  pose proof (Find_entries _ _ _ _ _ Hent Hfind) as Hf. cbn [snd] in Hf.
  assert (Hat : vec_at (BPM.pages_ b) f = Ok pg) by (apply vec_at_lookup; [lia|done]).
  unfold BPM.frame_of in *. unfold BPM.DeletePgImp. rewrite Hfind. ok_step.
  rewrite Hat. ok_step. split.
  - intros Hpin. by rewrite bool_decide_eq_true_2.
  - intros Hpin Hslot. rewrite bool_decide_eq_false_2 by lia.
    destruct (Remove_effect EHT.hash_int (BPM.page_table_ b) page_id
                (reachable_shape _ _ Hreach) (reachable_ptrs _ _ Hreach)
                (reachable_nodup _ _ Hreach))
      as (r0 & t1 & Hrm & Hgone & _ & Hother & _).
    rewrite Hrm. ok_step. cbn [snd].
    assert (Hrem : exists r, LRUK.Remove (BPM.replacer_ b) f = Ok r
                             /\ LRUK.slots_ r !! f = None).
    { unfold LRUK.Remove. destruct (LRUK.slots_ (BPM.replacer_ b) !! f) as [s|] eqn:E.
      - rewrite (Hslot s eq_refl). eexists. split; [done|]. apply lookup_delete_eq.
      - by exists (BPM.replacer_ b). }
    destruct Hrem as (r & -> & Hr). ok_step.
    rewrite vec_set_returns by lia. ok_step. eexists. split; [done|].
    cbn [BPM.page_table_ BPM.free_list_ BPM.replacer_ BPM.disk_ BPM.next_page_id_].
    split; [done|]. split; [done|]. split; [done|].
    unfold BPM.page_at. cbn [BPM.pages_].
    split; [by rewrite list_lookup_insert_eq by lia|].
    split; [|done]. intros i Hi. by rewrite list_lookup_insert_ne.
Qed.

(** X22.  When [FetchPgImp] is called for a page that is not in the page
    table and returns a frame: the frame is the front of the free list or
    the replacer's victim; its old content was written to disk if its
    dirty flag was set; it gets the page id, the payload the disk has for
    the page, and a pin count one above the one it had, and keeps its
    dirty flag; the other frames, the free list but for its front, and
    the page id counter are as before; the frame has a slot in the
    replacer; and the page table maps the page to the frame. *)
Theorem FetchPgImp_loads_page (b b' : BPM.Pool Data) (page_id f : Z) :
  BPM.frames_ok b -> BPM.frame_of b page_id = Ok None ->
  BPM.FetchPgImp Data zero d fuel b page_id = Ok (Some f, b') ->
  0 <= f < Z.of_nat (length (BPM.pages_ b))
  /\ (exists pg, BPM.page_at b f = Some pg
        /\ BPM.disk_ b' = BPM.write_back Data (BPM.disk_ b) pg
        /\ BPM.page_at b' f
           = Some (BPM.mkPage (BPM.ReadPage Data zero (BPM.disk_ b') page_id) page_id
                     (BPM.wrap32 (BPM.pin_count_ pg + 1)) (BPM.is_dirty_ pg)))
  /\ (forall i : nat, i <> Z.to_nat f -> BPM.pages_ b' !! i = BPM.pages_ b !! i)
  /\ is_Some (LRUK.slots_ (BPM.replacer_ b') !! f)
  /\ BPM.frame_of b' page_id = Ok (Some f)
  /\ BPM.next_page_id_ b' = BPM.next_page_id_ b
  /\ match BPM.free_list_ b with
     | f0 :: rest => f = f0 /\ BPM.free_list_ b' = rest
     | [] => BPM.free_list_ b' = []
             /\ exists s, LRUK.slots_ (BPM.replacer_ b) !! f = Some s
                          /\ LRUK.evictable_ s = true
     end.
Proof.
  intros Hok Hnone H0. pose proof Hok as (Hlen & _ & _ & _ & Hreach).
  unfold BPM.FetchPgImp in H0. unfold BPM.frame_of in Hnone. rewrite Hnone in H0.
  ok_step in H0. inv_bind H0 as got Hgot.
  destruct got as [o b1]. cbn [fst snd] in H0.
  destruct (GetNewFrame_frames b o b1 Hok Hgot) as (_ & _ & Hf).
  pose proof (GetNewFrame_keeps _ _ _ Hgot) as (Epg & Etb & Eid & Edk).
  destruct o as [f0|]; [|done]. specialize (Hf f0 eq_refl).
  inv_bind H0 as pg Hpg. cbv zeta in H0.
  inv_bind H0 as r1 Hr1. inv_bind H0 as r2 Hr2.
  inv_bind H0 as rm Hrm. inv_bind H0 as tbl Htbl. inv_bind H0 as pages Hpages.
  injection H0 as -> <-.
  cbn [BPM.next_page_id_ BPM.replacer_ BPM.disk_ BPM.free_list_ BPM.pages_].
  rewrite Epg in Hpg, Hpages. rewrite Etb in Hrm. rewrite Eid, Edk in *.
  apply vec_set_Ok in Hpages as [Hb ->]. apply vec_at_Ok in Hpg as [_ Hpg].
  split; [lia|]. split; [|split; [|split; [|split; [|split; [done|]]]]].
  - exists pg. split; [done|]. split; [done|]. unfold BPM.page_at. cbn [BPM.pages_].
    rewrite list_lookup_insert_eq by lia. done.
  - intros i Hi. by rewrite list_lookup_insert_ne.
  - unfold LRUK.RecordAccess in Hr2. destruct (LRUK.slots_ r1 !! f) as [s|].
    + injection Hr2 as <-. cbn [LRUK.slots_]. rewrite lookup_insert_eq. by eexists.
    + case_bool_decide; [|done]. injection Hr2 as <-. cbn [LRUK.slots_].
      rewrite lookup_insert_eq. by eexists.
  - unfold BPM.frame_of. cbn [BPM.page_table_]. by eapply table_update_Find.
  - unfold BPM.GetNewFrame in Hgot. destruct (BPM.free_list_ b) as [|f1 rest].
    + inv_bind Hgot as res Hres. destruct res as [o r']. cbn [fst snd] in Hgot.
      injection Hgot as -> <-. cbn [BPM.free_list_]. split; [done|].
      apply Evict_Ok in Hres as [[Hn _]|(f1 & s & Hf1 & Hs & Hev & _)]; [done|].
      injection Hf1 as <-. by exists s.
    + injection Hgot as <- <-. done.
Qed.

End BPM_props.

(** Witness of X18: one frame, pinned. *)
Lemma out_of_frames_unchanged_witness :
  BPM.pool_dirty_pinned = BPM.pool_dirty_pinned
  /\ BPM.free_list_ BPM.pool_dirty_pinned = []
  /\ BPM.NewPgImp (list Z) BPM.zero4 true 8 BPM.pool_dirty_pinned
     = Ok (None, BPM.pool_dirty_pinned)
  /\ (forall p, BPM.frame_of BPM.pool_dirty_pinned p = Ok None ->
        BPM.FetchPgImp (list Z) BPM.zero4 true 8 BPM.pool_dirty_pinned p
        = Ok (None, BPM.pool_dirty_pinned)).
Proof.
  apply (out_of_frames_unchanged BPM.zero4 true 8 BPM.pool_dirty_pinned
           BPM.pool_dirty_pinned).
  vm_compute. reflexivity.
Defined.

Lemma pool_dirty_unpinned_frames : BPM.frames_ok BPM.pool_dirty_unpinned.
Proof.
  apply (do_calls_frames BPM.zero4 true 8
           (BPM.init (list Z) BPM.zero4 1 2 4) BPM.calls_dirty_unpinned).
  - apply (init_frames BPM.zero4 1 2 4).
  - exact pool_dirty_unpinned_run.
Qed.

(** Witness of X17: one frame that holds page 0, unpinned and dirty. *)
Lemma NewPgImp_hands_out_frame_witness :
  exists b',
    1 = BPM.next_page_id_ BPM.pool_dirty_unpinned
    /\ BPM.next_page_id_ b' = BPM.wrap32 (1 + 1)
    /\ 0 <= 0 < Z.of_nat (length (BPM.pages_ BPM.pool_dirty_unpinned))
    /\ (exists pg, BPM.page_at BPM.pool_dirty_unpinned 0 = Some pg
          /\ BPM.page_at b' 0 = Some (BPM.mkPage BPM.zero4 1 1 (BPM.is_dirty_ pg))
          /\ BPM.disk_ b'
             = BPM.write_back (list Z) (BPM.disk_ BPM.pool_dirty_unpinned) pg)
    /\ (forall i : nat, i <> Z.to_nat 0 ->
          BPM.pages_ b' !! i = BPM.pages_ BPM.pool_dirty_unpinned !! i)
    /\ (exists s, LRUK.slots_ (BPM.replacer_ b') !! 0 = Some s
          /\ LRUK.evictable_ s = false)
    /\ (BPM.frame_of BPM.pool_dirty_unpinned 1 = Ok None ->
        BPM.frame_of b' 1 = Ok (Some 0))
    /\ match BPM.free_list_ BPM.pool_dirty_unpinned with
       | f0 :: rest => 0 = f0 /\ BPM.free_list_ b' = rest
       | [] => BPM.free_list_ b' = []
               /\ exists s, LRUK.slots_ (BPM.replacer_ BPM.pool_dirty_unpinned) !! 0
                            = Some s
                            /\ LRUK.evictable_ s = true
       end.
Proof.
  eexists.
  eapply (NewPgImp_hands_out_frame BPM.zero4 true 8 BPM.pool_dirty_unpinned).
  - exact pool_dirty_unpinned_frames.
  - vm_compute. reflexivity.
Defined.

(** Witness of X19: one frame that holds page 0, unpinned and dirty. *)
Lemma FlushAllPgsImp_cleans_witness :
  exists b',
    BPM.pool_size_ b' = BPM.pool_size_ BPM.pool_dirty_unpinned
    /\ BPM.page_table_ b' = BPM.page_table_ BPM.pool_dirty_unpinned
    /\ BPM.replacer_ b' = BPM.replacer_ BPM.pool_dirty_unpinned
    /\ BPM.free_list_ b' = BPM.free_list_ BPM.pool_dirty_unpinned
    /\ BPM.next_page_id_ b' = BPM.next_page_id_ BPM.pool_dirty_unpinned
    /\ Forall2 BPM.flushed (BPM.pages_ BPM.pool_dirty_unpinned) (BPM.pages_ b')
    /\ ((forall (i : nat) pg, BPM.pages_ BPM.pool_dirty_unpinned !! i = Some pg ->
           BPM.frame_of BPM.pool_dirty_unpinned (BPM.page_id_ pg)
           = Ok (Some (Z.of_nat i))) ->
        forall (i : nat) pg', BPM.pages_ b' !! i = Some pg' ->
          BPM.is_dirty_ pg' = false).
Proof.
  eexists. eapply (FlushAllPgsImp_cleans BPM.pool_dirty_unpinned).
  - reflexivity.
  - vm_compute. reflexivity.
Defined.

(** Witness of X21: one frame that holds page 0, unpinned and dirty. *)
Lemma DeletePgImp_frees_frame_witness :
  (BPM.pin_count_ (BPM.mkPage BPM.zero4 0 0 true) <> 0 ->
   BPM.DeletePgImp (list Z) BPM.zero4 BPM.pool_dirty_unpinned 0
   = Ok (false, BPM.pool_dirty_unpinned))
  /\ (BPM.pin_count_ (BPM.mkPage BPM.zero4 0 0 true) = 0 ->
      (forall s, LRUK.slots_ (BPM.replacer_ BPM.pool_dirty_unpinned) !! 0 = Some s ->
                 LRUK.evictable_ s = true) ->
      exists b',
        BPM.DeletePgImp (list Z) BPM.zero4 BPM.pool_dirty_unpinned 0 = Ok (true, b')
        /\ BPM.frame_of b' 0 = Ok None
        /\ (forall p, p <> 0 ->
              BPM.frame_of b' p = BPM.frame_of BPM.pool_dirty_unpinned p)
        /\ BPM.free_list_ b' = BPM.free_list_ BPM.pool_dirty_unpinned ++ [0]
        /\ BPM.page_at b' 0
           = Some (BPM.mkPage BPM.zero4
                     (BPM.page_id_ (BPM.mkPage BPM.zero4 0 0 true))
                     (BPM.pin_count_ (BPM.mkPage BPM.zero4 0 0 true))
                     (BPM.is_dirty_ (BPM.mkPage BPM.zero4 0 0 true)))
        /\ (forall i : nat, i <> Z.to_nat 0 ->
              BPM.pages_ b' !! i = BPM.pages_ BPM.pool_dirty_unpinned !! i)
        /\ LRUK.slots_ (BPM.replacer_ b') !! 0 = None
        /\ BPM.disk_ b' = BPM.disk_ BPM.pool_dirty_unpinned
        /\ BPM.next_page_id_ b' = BPM.next_page_id_ BPM.pool_dirty_unpinned).
Proof.
  apply (DeletePgImp_frees_frame BPM.zero4 BPM.pool_dirty_unpinned 0 0
           (BPM.mkPage BPM.zero4 0 0 true) pool_dirty_unpinned_frames).
  - vm_compute. reflexivity.
  - reflexivity.
Defined.

(** Witness of X22: a new pool of one frame, page 7. *)
Lemma FetchPgImp_loads_page_witness :
  exists b',
    0 <= 0 < Z.of_nat (length (BPM.pages_ (BPM.init (list Z) BPM.zero4 1 2 4)))
    /\ (exists pg, BPM.page_at (BPM.init (list Z) BPM.zero4 1 2 4) 0 = Some pg
          /\ BPM.disk_ b'
             = BPM.write_back (list Z) (BPM.disk_ (BPM.init (list Z) BPM.zero4 1 2 4)) pg
          /\ BPM.page_at b' 0
             = Some (BPM.mkPage (BPM.ReadPage (list Z) BPM.zero4 (BPM.disk_ b') 7) 7
                       (BPM.wrap32 (BPM.pin_count_ pg + 1)) (BPM.is_dirty_ pg)))
    /\ (forall i : nat, i <> Z.to_nat 0 ->
          BPM.pages_ b' !! i = BPM.pages_ (BPM.init (list Z) BPM.zero4 1 2 4) !! i)
    /\ is_Some (LRUK.slots_ (BPM.replacer_ b') !! 0)
    /\ BPM.frame_of b' 7 = Ok (Some 0)
    /\ BPM.next_page_id_ b' = BPM.next_page_id_ (BPM.init (list Z) BPM.zero4 1 2 4)
    /\ match BPM.free_list_ (BPM.init (list Z) BPM.zero4 1 2 4) with
       | f0 :: rest => 0 = f0 /\ BPM.free_list_ b' = rest
       | [] => BPM.free_list_ b' = []
               /\ exists s,
                    LRUK.slots_ (BPM.replacer_ (BPM.init (list Z) BPM.zero4 1 2 4)) !! 0
                    = Some s
                    /\ LRUK.evictable_ s = true
       end.
Proof.
  eexists.
  eapply (FetchPgImp_loads_page BPM.zero4 true 8 (BPM.init (list Z) BPM.zero4 1 2 4)).
  - apply (init_frames BPM.zero4 1 2 4).
  - vm_compute. reflexivity.
  - vm_compute. reflexivity.
Defined.

(** *** Pin counts *)

Section BPM_pins.
Context {Data : Type}.
Variable zero : Data.
Variable d : bool.
Variable fuel : nat.

Lemma pins_within_mono n m (pages : list (BPM.Page Data)) :
  n <= m -> BPM.pins_within n pages -> BPM.pins_within m pages.
Proof. intros Hle Hok i pg Hi. specialize (Hok i pg Hi). lia. Qed.

Lemma pins_within_set n (pages pages' : list (BPM.Page Data)) f pg' :
  BPM.pins_within n pages -> 0 <= BPM.pin_count_ pg' <= n + 1 ->
  vec_set pages f pg' = Ok pages' -> BPM.pins_within (n + 1) pages'.
Proof.
  intros Hok Hpin Hset. apply vec_set_Ok in Hset as [Hb ->]. intros i pg Hi.
  destruct (decide (i = Z.to_nat f)) as [->|Hne].
  - rewrite list_lookup_insert_eq in Hi by lia. by injection Hi as <-.
  - rewrite list_lookup_insert_ne in Hi by done. specialize (Hok i pg Hi). lia.
Qed.

Lemma pins_within_at n (pages : list (BPM.Page Data)) f pg :
  BPM.pins_within n pages -> vec_at pages f = Ok pg ->
  0 <= BPM.pin_count_ pg <= n.
Proof. intros Hok Hat. apply vec_at_Ok in Hat as [_ Hat]. by apply (Hok _ _ Hat). Qed.

Lemma flushed_pins m (l l' : list (BPM.Page Data)) :
  Forall2 BPM.flushed l l' -> BPM.pins_within m l -> BPM.pins_within m l'.
Proof.
  intros Hfl Hok i pg' Hi.
  destruct (Forall2_lookup_r _ _ _ _ _ Hfl Hi) as (pg & Hpg & Hf).
  destruct Hf as (_ & _ & -> & _). by apply (Hok i).
Qed.

(** One call raises no pin count by more than one and lowers none below 0. *)
Lemma do_call_pins n (b : BPM.Pool Data) c b' :
  0 <= n -> n + 1 < 2 ^ 31 -> BPM.pins_within n (BPM.pages_ b) ->
  BPM.do_call Data zero d fuel b c = Ok b' ->
  BPM.pins_within (n + 1) (BPM.pages_ b').
Proof.
  intros Hn0 Hn Hok Hc.
  assert (Hsame : BPM.pins_within (n + 1) (BPM.pages_ b))
    by (eapply pins_within_mono; [|exact Hok]; lia).
  destruct c as [|p|p dirty|p| |p]; cbn [BPM.do_call] in Hc.
  - inv_bind Hc as res Hres. injection Hc as <-. unfold BPM.NewPgImp in Hres.
    inv_bind Hres as got Hgot. destruct got as [o b1]. cbn [fst snd] in Hres.
    apply GetNewFrame_keeps in Hgot as (Epg & _).
    destruct o as [f|]; [|injection Hres as <-; cbn [snd]; by rewrite Epg].
    cbv zeta in Hres.
    inv_bind Hres as pg Hpg. inv_bind Hres as rm Hrm. inv_bind Hres as tbl Htbl.
    inv_bind Hres as r1 Hr1. inv_bind Hres as r2 Hr2. inv_bind Hres as pages Hpages.
    injection Hres as <-. cbn [snd BPM.pages_]. rewrite Epg in Hpages.
    eapply pins_within_set; [exact Hok| |exact Hpages]. simpl. lia.
  - inv_bind Hc as res Hres. injection Hc as <-. unfold BPM.FetchPgImp in Hres.
    inv_bind Hres as found Hfound. destruct found as [f|].
    + inv_bind Hres as pg Hpg. inv_bind Hres as r1 Hr1. inv_bind Hres as r2 Hr2.
      inv_bind Hres as pages Hpages. injection Hres as <-. cbn [snd BPM.pages_].
      pose proof (pins_within_at _ _ _ _ Hok Hpg) as Hpin.
      eapply pins_within_set; [exact Hok| |exact Hpages]. simpl.
      rewrite wrap32_small by lia. lia.
    + inv_bind Hres as got Hgot. destruct got as [o b1]. cbn [fst snd] in Hres.
      apply GetNewFrame_keeps in Hgot as (Epg & _).
      destruct o as [f|]; [|injection Hres as <-; cbn [snd]; by rewrite Epg].
      inv_bind Hres as pg Hpg. cbv zeta in Hres.
      inv_bind Hres as r1 Hr1. inv_bind Hres as r2 Hr2.
      inv_bind Hres as rm Hrm. inv_bind Hres as tbl Htbl.
      inv_bind Hres as pages Hpages. injection Hres as <-. cbn [snd BPM.pages_].
      rewrite Epg in Hpg, Hpages.
      pose proof (pins_within_at _ _ _ _ Hok Hpg) as Hpin.
      eapply pins_within_set; [exact Hok| |exact Hpages]. simpl.
      rewrite wrap32_small by lia. lia.
  - inv_bind Hc as res Hres. injection Hc as <-. unfold BPM.UnpinPgImp in Hres.
    inv_bind Hres as found Hfound.
    destruct found as [f|]; [|by injection Hres as <-].
    inv_bind Hres as pg Hpg. case_bool_decide as Hzero; [by injection Hres as <-|].
    cbv zeta in Hres. inv_bind Hres as r Hr. inv_bind Hres as pages Hpages.
    injection Hres as <-. cbn [snd BPM.pages_].
    pose proof (pins_within_at _ _ _ _ Hok Hpg) as Hpin.
    eapply pins_within_set; [exact Hok| |exact Hpages]. simpl.
    rewrite wrap32_small by lia. lia.
  - inv_bind Hc as res Hres. injection Hc as <-. destruct res as [o b1]. cbn [snd].
    apply FlushPgImp_effect in Hres as (_ & _ & _ & _ & _ & Hfl & _).
    by eapply flushed_pins.
  - unfold BPM.FlushAllPgsImp in Hc.
    apply (foldl_Ok_inv _
             (fun b0 : BPM.Pool Data => BPM.pins_within (n + 1) (BPM.pages_ b0))) in Hc.
    + destruct Hc as (b0 & [= <-] & Himp). by apply Himp.
    + intros acc idx a' _ Hs. inv_bind Hs as b1 Hb1. exists b1. split; [done|].
      intros IH. inv_bind Hs as pg Hpg. inv_bind Hs as res Hres.
      injection Hs as <-. destruct res as [o b2]. cbn [snd].
      apply FlushPgImp_effect in Hres as (_ & _ & _ & _ & _ & Hfl & _).
      by eapply flushed_pins.
  - inv_bind Hc as res Hres. injection Hc as <-. unfold BPM.DeletePgImp in Hres.
    inv_bind Hres as found Hfound.
    destruct found as [f|]; [|by injection Hres as <-].
    inv_bind Hres as pg Hpg. case_bool_decide as Hzero; [by injection Hres as <-|].
    inv_bind Hres as rm Hrm. inv_bind Hres as r Hr. inv_bind Hres as pages Hpages.
    injection Hres as <-. cbn [snd BPM.pages_].
    pose proof (pins_within_at _ _ _ _ Hok Hpg) as Hpin.
    eapply pins_within_set; [exact Hok| |exact Hpages]. simpl. lia.
Qed.

Lemma bpm_do_calls_snoc (b : BPM.Pool Data) cs c :
  BPM.do_calls Data zero d fuel b (cs ++ [c])
  = BPM.do_calls Data zero d fuel b cs ≫= fun b' => BPM.do_call Data zero d fuel b' c.
Proof. unfold BPM.do_calls. by rewrite foldl_app. Qed.

(** X25.  After fewer than [2^31] calls on a new pool, every pin count
    is between 0 and the number of calls: [UnpinPgImp] does not lower a
    pin count of 0, and no call raises a pin count by more than one. *)
Theorem pin_counts_stay_nonnegative (pool_size : nat) (k : Z) (bucket_size : nat)
    (cs : list BPM.call) (b : BPM.Pool Data) :
  BPM.do_calls Data zero d fuel (BPM.init Data zero pool_size k bucket_size) cs
    = Ok b ->
  Z.of_nat (length cs) < 2 ^ 31 ->
  forall (i : nat) pg, BPM.pages_ b !! i = Some pg ->
    0 <= BPM.pin_count_ pg <= Z.of_nat (length cs).
Proof.
  revert b. induction cs as [|c cs IH] using rev_ind; intros b Hrun Hlen.
  - injection Hrun as <-. intros i pg Hi. cbn in Hi.
    apply lookup_replicate in Hi as [-> _]. simpl. lia.
  - rewrite bpm_do_calls_snoc in Hrun. inv_bind Hrun as b1 Hb1.
    rewrite length_app in Hlen |- *. cbn [length] in Hlen |- *.
    replace (Z.of_nat (length cs + 1)) with (Z.of_nat (length cs) + 1) by lia.
    apply (do_call_pins (Z.of_nat (length cs)) b1 c b); [lia|lia| |done].
    intros i pg Hi. apply (IH b1 Hb1) with (i := i); [lia|done].
Qed.

(** X24.  [FetchPgImp] of a page that the page table maps to frame [f]
    returns that frame: its pin count goes up by one, its payload, page id
    and dirty flag stay, and no other frame changes; the frame has a slot
    in the replacer, which is non-evictable if the pin count was 0, and the
    clock of the replacer has advanced; the page table, the free list, the
    page id counter and the disk are unchanged. *)
Theorem FetchPgImp_pins_resident_page (b b' : BPM.Pool Data) (page_id f : Z)
    (o : option Z) :
  BPM.frame_of b page_id = Ok (Some f) ->
  BPM.FetchPgImp Data zero d fuel b page_id = Ok (o, b') ->
  o = Some f
  /\ (exists pg, vec_at (BPM.pages_ b) f = Ok pg
        /\ BPM.page_at b' f
           = Some (BPM.mkPage (BPM.data_ pg) (BPM.page_id_ pg)
                     (BPM.wrap32 (BPM.pin_count_ pg + 1)) (BPM.is_dirty_ pg))
        /\ exists s', LRUK.slots_ (BPM.replacer_ b') !! f = Some s'
                      /\ (BPM.pin_count_ pg = 0 -> LRUK.evictable_ s' = false))
  /\ (forall i : nat, i <> Z.to_nat f -> BPM.pages_ b' !! i = BPM.pages_ b !! i)
  /\ LRUK.current_timestamp_ (BPM.replacer_ b')
     = LRUK.wrap64 (LRUK.current_timestamp_ (BPM.replacer_ b) + 1)
  /\ BPM.page_table_ b' = BPM.page_table_ b
  /\ BPM.free_list_ b' = BPM.free_list_ b
  /\ BPM.next_page_id_ b' = BPM.next_page_id_ b
  /\ BPM.disk_ b' = BPM.disk_ b.
Proof.
  unfold BPM.frame_of, BPM.FetchPgImp. intros Hfind H0. rewrite Hfind in H0.
  ok_step in H0. inv_bind H0 as pg Hpg. inv_bind H0 as r1 Hr1. inv_bind H0 as r2 Hr2.
  inv_bind H0 as pages Hpages. injection H0 as <- <-.
  cbn [BPM.pages_ BPM.replacer_ BPM.page_table_ BPM.free_list_ BPM.next_page_id_
       BPM.disk_].
  apply vec_set_Ok in Hpages as [Hb ->].
  assert (Hr1' : LRUK.current_timestamp_ r1 = LRUK.current_timestamp_ (BPM.replacer_ b)
                 /\ (BPM.pin_count_ pg = 0 ->
                     exists s, LRUK.slots_ r1 !! f = Some s /\ LRUK.evictable_ s = false)).
  { case_bool_decide as Hzero.
    - unfold LRUK.SetEvictable in Hr1.
      destruct (LRUK.slots_ (BPM.replacer_ b) !! f) as [s|]; [|done].
      injection Hr1 as <-. split; [done|]. intros _. eexists.
      split; [apply lookup_insert_eq|done].
    - injection Hr1 as <-. split; [done|]. intros Hz. done. }
  destruct Hr1' as [Ets Hslot].
  split; [done|]. split; [|split; [|split; [|done]]].
  - exists pg. split; [done|]. split.
    + unfold BPM.page_at. cbn [BPM.pages_]. by rewrite list_lookup_insert_eq by lia.
    + unfold LRUK.RecordAccess in Hr2. destruct (LRUK.slots_ r1 !! f) as [s|] eqn:E.
      * injection Hr2 as <-. cbn [LRUK.slots_]. eexists.
        split; [apply lookup_insert_eq|]. intros Hz.
        destruct (Hslot Hz) as (s0 & [= <-] & Hev).
        by destruct (bool_decide (LRUK.record_nums_ s = LRUK.k_ r1)).
      * case_bool_decide; [|done]. injection Hr2 as <-. cbn [LRUK.slots_].
        eexists. split; [apply lookup_insert_eq|]. intros Hz.
        by destruct (Hslot Hz) as (s0 & ? & _).
  - intros i Hi. by rewrite list_lookup_insert_ne.
  - rewrite <-Ets. unfold LRUK.RecordAccess in Hr2.
    destruct (LRUK.slots_ r1 !! f) as [s|].
    + by injection Hr2 as <-.
    + case_bool_decide; [|done]. by injection Hr2 as <-.
Qed.


End BPM_pins.

(** Witness of X25: one frame; page 0 created, unpinned dirty, fetched. *)
Lemma pin_counts_stay_nonnegative_witness :
  0 <= BPM.pin_count_ (BPM.mkPage BPM.zero4 0 1 true)
    <= Z.of_nat (length BPM.calls_dirty_pinned).
Proof.
  apply (pin_counts_stay_nonnegative BPM.zero4 true 8 1 2 4 BPM.calls_dirty_pinned
           BPM.pool_dirty_pinned pool_dirty_pinned_run) with (i := 0%nat).
  - vm_compute. reflexivity.
  - reflexivity.
Defined.

(** Witness of X24: one frame that holds page 0, unpinned and dirty. *)
Lemma FetchPgImp_pins_resident_page_witness :
  exists b',
    Some 0 = Some 0
    /\ (exists pg, vec_at (BPM.pages_ BPM.pool_dirty_unpinned) 0 = Ok pg
          /\ BPM.page_at b' 0
             = Some (BPM.mkPage (BPM.data_ pg) (BPM.page_id_ pg)
                       (BPM.wrap32 (BPM.pin_count_ pg + 1)) (BPM.is_dirty_ pg))
          /\ exists s', LRUK.slots_ (BPM.replacer_ b') !! 0 = Some s'
                        /\ (BPM.pin_count_ pg = 0 -> LRUK.evictable_ s' = false))
    /\ (forall i : nat, i <> Z.to_nat 0 ->
          BPM.pages_ b' !! i = BPM.pages_ BPM.pool_dirty_unpinned !! i)
    /\ LRUK.current_timestamp_ (BPM.replacer_ b')
       = LRUK.wrap64
           (LRUK.current_timestamp_ (BPM.replacer_ BPM.pool_dirty_unpinned) + 1)
    /\ BPM.page_table_ b' = BPM.page_table_ BPM.pool_dirty_unpinned
    /\ BPM.free_list_ b' = BPM.free_list_ BPM.pool_dirty_unpinned
    /\ BPM.next_page_id_ b' = BPM.next_page_id_ BPM.pool_dirty_unpinned
    /\ BPM.disk_ b' = BPM.disk_ BPM.pool_dirty_unpinned.
Proof.
  eexists.
  eapply (FetchPgImp_pins_resident_page BPM.zero4 true 8 BPM.pool_dirty_unpinned _ 0).
  - vm_compute. reflexivity.
  - vm_compute. reflexivity.
Defined.
